(** * Data-Privacy-Protector: detection, substitution and splicing

    A shallow embedding of [privacy_protector/detectors.py],
    [privacy_protector/generators.py] and [privacy_protector/protector.py],
    together with the properties of the detection-and-substitution engine.

    Conventions of the embedding.
    - A Python [str] is a [string]; its characters are the 256 code points
      U+0000..U+00FF, and the character tables below ([\w], [\d], [\s],
      [str.isalpha], [str.isdigit], case folding) are Python's tables
      restricted to that block.
    - Offsets into a text are [nat].
    - A function that can raise returns an [outcome]; a method that mutates
      its object returns the new object next to its result.
    - The standard-library module [re] is embedded as a parser
      ([re_compile]) and a backtracking matcher ([re_match], [search],
      [finditer]) for the pattern syntax listed at [parse_sub].
    - The [Faker] library is an interface ([Faker]) of random draws over an
      explicit generator state. *)

From Stdlib Require Import String Ascii List Arith ZArith Lia Bool Permutation.
From Stdlib Require Import QArith.QArith_base.
From stdpp Require Import base option gmap strings pretty.
Import ListNotations.

Local Open Scope string_scope.
Local Open Scope nat_scope.
#[local] Arguments String.append !s1 s2 : simpl nomatch.

(** ** Outcomes: a returned value or a raised exception *)

Inductive exn : Type :=
| re_error (msg : string)        (* re.error *)
| OverflowError                  (* repetition count >= MAXREPEAT *)
| RandrangeError                 (* random.randrange: non-integer or empty range *)
| LocaleError (locale : string)  (* Faker(locale): a locale the library does not know *)
| GuardError (what : string)     (* an exception of the backend module *)
| OutsideModel (what : string).  (* pattern syntax this embedding does not interpret *)

Inductive outcome (A : Type) : Type :=
| Ok (a : A)
| Raise (e : exn).
Arguments Ok {A} a.
Arguments Raise {A} e.

#[global] Instance outcome_ret : MRet outcome := @Ok.
#[global] Instance outcome_bind : MBind outcome :=
  fun A B f m => match m with Ok a => f a | Raise e => Raise e end.

(** ** Python strings *)

Definition code (c : ascii) : nat := nat_of_ascii c.

Definition in_range (lo hi : nat) (c : ascii) : bool :=
  (lo <=? code c) && (code c <=? hi).

Definition is_code (n : nat) (c : ascii) : bool := code c =? n.

(** [s[:n]] *)
Fixpoint str_take (n : nat) (s : string) : string :=
  match n, s with
  | S n', String c s' => String c (str_take n' s')
  | _, _ => EmptyString
  end.

(** [s[n:]] *)
Fixpoint str_drop (n : nat) (s : string) : string :=
  match n, s with
  | S n', String _ s' => str_drop n' s'
  | _, _ => s
  end.

(** [s[a:b]] for non-negative [a], [b] *)
Definition str_slice (a b : nat) (s : string) : string :=
  str_take (b - a) (str_drop a s).

(** [c in s] for a one-character [c] *)
Fixpoint str_contains (c : ascii) (s : string) : bool :=
  match s with
  | EmptyString => false
  | String x s' => if Ascii.eqb x c then true else str_contains c s'
  end.

(** [s.index(c)], defined when [c in s] *)
Fixpoint str_index (c : ascii) (s : string) : option nat :=
  match s with
  | EmptyString => None
  | String x s' =>
      if Ascii.eqb x c then Some 0
      else match str_index c s' with Some n => Some (S n) | None => None end
  end.

(** [s.startswith(p)] *)
Definition startswith (p s : string) : bool := String.prefix p s.

(** [s.replace(c, r)] for a one-character [c] *)
Fixpoint str_replace (c : ascii) (r : string) (s : string) : string :=
  match s with
  | EmptyString => EmptyString
  | String x s' =>
      if Ascii.eqb x c then r ++ str_replace c r s'
      else String x (str_replace c r s')
  end.

(** [sep.join(parts)] *)
Fixpoint str_join (sep : string) (parts : list string) : string :=
  match parts with
  | [] => EmptyString
  | [p] => p
  | p :: ps => p ++ sep ++ str_join sep ps
  end.

Fixpoint str_filter (f : ascii -> bool) (s : string) : string :=
  match s with
  | EmptyString => EmptyString
  | String x s' => if f x then String x (str_filter f s') else str_filter f s'
  end.

Fixpoint str_forallb (f : ascii -> bool) (s : string) : bool :=
  match s with
  | EmptyString => true
  | String x s' => f x && str_forallb f s'
  end.

(** Character tables of Python 3 on U+0000..U+00FF. *)

Definition is_ascii_digit (c : ascii) : bool := in_range 48 57 c.

(** [\d] *)
Definition uni_isdecimal (c : ascii) : bool := is_ascii_digit c.

(** [\s] and [str.isspace] *)
Definition uni_isspace (c : ascii) : bool :=
  in_range 9 13 c || in_range 28 32 c || is_code 133 c || is_code 160 c.

(** [str.isalpha] on one character *)
Definition uni_isalpha (c : ascii) : bool :=
  in_range 65 90 c || in_range 97 122 c || is_code 170 c || is_code 181 c
  || is_code 186 c || in_range 192 214 c || in_range 216 246 c
  || in_range 248 255 c.

(** [str.isdigit] on one character *)
Definition uni_isdigit (c : ascii) : bool :=
  in_range 48 57 c || in_range 178 179 c || is_code 185 c.

(** [\w] *)
Definition uni_isword (c : ascii) : bool :=
  in_range 48 57 c || in_range 65 90 c || is_code 95 c || in_range 97 122 c
  || is_code 170 c || in_range 178 179 c || is_code 181 c
  || in_range 185 186 c || in_range 188 190 c || in_range 192 214 c
  || in_range 216 246 c || in_range 248 255 c.

Definition sre_lower (c : ascii) : ascii :=
  if in_range 65 90 c || (in_range 192 222 c && negb (is_code 215 c))
  then ascii_of_nat (code c + 32) else c.

Definition sre_upper (c : ascii) : ascii :=
  if in_range 97 122 c || (in_range 224 254 c && negb (is_code 247 c))
  then ascii_of_nat (code c - 32) else c.

(** [s.isalpha()]: non-empty and every character alphabetic *)
Definition isalpha (s : string) : bool :=
  negb (String.length s =? 0) && str_forallb uni_isalpha s.

(** [s.split()]: the maximal runs of non-whitespace characters *)
Fixpoint split_ws_aux (s : string) (cur : string) : list string :=
  match s with
  | EmptyString => if String.length cur =? 0 then [] else [cur]
  | String x s' =>
      if uni_isspace x
      then (if String.length cur =? 0 then split_ws_aux s' EmptyString
            else cur :: split_ws_aux s' EmptyString)
      else split_ws_aux s' (cur ++ String x EmptyString)
  end.

Definition split_ws (s : string) : list string := split_ws_aux s EmptyString.

(** [str(n)] for an integer *)
Definition str_of_Z (n : Z) : string := pretty n.

(** ** The pattern language of [re] *)

Inductive category : Type := Cat_digit | Cat_space | Cat_word.

Inductive anchor : Type :=
| At_beginning          (* ^  *)
| At_end                (* $  *)
| At_beginning_string   (* \A *)
| At_end_string         (* \Z *)
| At_boundary           (* \b *)
| At_non_boundary.      (* \B *)

Inductive set_item : Type :=
| SLit (c : ascii)
| SRange (lo hi : ascii)
| SCat (neg : bool) (k : category).

Inductive regex : Type :=
| Lit (c : ascii)
| AnyChar
| Category (neg : bool) (k : category)
| CharSet (neg : bool) (items : list set_item)
| At (a : anchor)
| Empty
| Seq (r1 r2 : regex)
| Alt (r1 r2 : regex)
| Repeat (lo : nat) (hi : option nat) (r : regex).

(** *** Parsing ([re._parser]) *)

Inductive item_kind : Type := K_atom | K_at | K_repeat | K_group.

Inductive escape_code : Type :=
| E_lit (c : ascii)
| E_cat (neg : bool) (k : category)
| E_at (a : anchor).

Definition is_ascii_letter (c : ascii) : bool :=
  in_range 65 90 c || in_range 97 122 c.

Definition bad_escape (c : ascii) : exn :=
  re_error ("bad escape \" ++ String c EmptyString).

(** The escapes shared by both positions: [ESCAPES] without [\b], and the
    [IN] categories of [CATEGORIES]. *)
Definition common_escape (c : ascii) : option escape_code :=
  match c with
  | "a"%char => Some (E_lit (ascii_of_nat 7))
  | "f"%char => Some (E_lit (ascii_of_nat 12))
  | "n"%char => Some (E_lit (ascii_of_nat 10))
  | "r"%char => Some (E_lit (ascii_of_nat 13))
  | "t"%char => Some (E_lit (ascii_of_nat 9))
  | "v"%char => Some (E_lit (ascii_of_nat 11))
  | "\"%char => Some (E_lit "\"%char)
  | "d"%char => Some (E_cat false Cat_digit)
  | "D"%char => Some (E_cat true Cat_digit)
  | "s"%char => Some (E_cat false Cat_space)
  | "S"%char => Some (E_cat true Cat_space)
  | "w"%char => Some (E_cat false Cat_word)
  | "W"%char => Some (E_cat true Cat_word)
  | _ => None
  end.

Definition numeric_escape (c : ascii) : bool :=
  is_ascii_digit c || Ascii.eqb c "x" || Ascii.eqb c "u" || Ascii.eqb c "U"
  || Ascii.eqb c "N".

Definition other_escape (c : ascii) : outcome escape_code :=
  if numeric_escape c then Raise (OutsideModel "numeric, named or group escape")
  else if is_ascii_letter c then Raise (bad_escape c)
  else Ok (E_lit c).

(** [_escape]: an escape outside a character set *)
Definition parse_escape (c : ascii) : outcome escape_code :=
  match c with
  | "A"%char => Ok (E_at At_beginning_string)
  | "b"%char => Ok (E_at At_boundary)
  | "B"%char => Ok (E_at At_non_boundary)
  | "Z"%char => Ok (E_at At_end_string)
  | _ => match common_escape c with
         | Some e => Ok e
         | None => other_escape c
         end
  end.

(** [_class_escape]: an escape inside a character set *)
Definition parse_class_escape (c : ascii) : outcome escape_code :=
  match c with
  | "b"%char => Ok (E_lit (ascii_of_nat 8))
  | _ => match common_escape c with
         | Some e => Ok e
         | None => other_escape c
         end
  end.

Definition set_item_of (e : escape_code) : set_item :=
  match e with
  | E_lit c => SLit c
  | E_cat neg k => SCat neg k
  | E_at _ => SLit "000"%char
  end.

(** The source text of a member of a character set: an escape counts
    with its backslash. *)
Definition member_text (c : ascii) (s : list ascii) : string :=
  if Ascii.eqb c "\" then
    match s with
    | e :: _ => String c (String e EmptyString)
    | [] => String c EmptyString
    end
  else String c EmptyString.

Definition bad_range (this that : string) : exn :=
  re_error ("bad character range " ++ this ++ "-" ++ that).
Definition unterminated_set : exn := re_error "unterminated character set".

(** One member of a character set: [(code, rest)]. *)
Definition parse_set_atom (c : ascii) (s : list ascii)
  : outcome (escape_code * list ascii) :=
  if Ascii.eqb c "\" then
    match s with
    | [] => Raise (re_error "bad escape (end of pattern)")
    | e :: s' => code1 ← parse_class_escape e; Ok (code1, s')
    end
  else Ok (E_lit c, s).

(** The members of a character set up to its closing bracket; [acc] holds
    the members read so far, in order. *)
Fixpoint parse_set (fuel : nat) (s : list ascii) (acc : list set_item)
  : outcome (list set_item * list ascii) :=
  match fuel with
  | 0 => Raise unterminated_set
  | S fuel' =>
      match s with
      | [] => Raise unterminated_set
      | this :: s1 =>
          if Ascii.eqb this "]" && negb (length acc =? 0) then Ok (acc, s1)
          else
            '(code1, s2) ← parse_set_atom this s1;
            match s2 with
            | "-"%char :: s3 =>
                match s3 with
                | [] => Raise unterminated_set
                | that :: s4 =>
                    if Ascii.eqb that "]"
                    then Ok ((acc ++ [set_item_of code1; SLit "-"])%list, s4)
                    else
                      '(code2, s5) ← parse_set_atom that s4;
                      match code1, code2 with
                      | E_lit lo, E_lit hi =>
                          if code hi <? code lo
                          then Raise (bad_range (member_text this s1)
                                        (member_text that s4))
                          else parse_set fuel' s5 (acc ++ [SRange lo hi])%list
                      | _, _ =>
                          Raise (bad_range (member_text this s1)
                                   (member_text that s4))
                      end
                end
            | _ => parse_set fuel' s2 (acc ++ [set_item_of code1])%list
            end
      end
  end.

Definition MAXREPEAT : N := 4294967295%N.

Fixpoint take_digits (s : list ascii) : list ascii * list ascii :=
  match s with
  | c :: s' =>
      if is_ascii_digit c
      then let '(ds, rest) := take_digits s' in (c :: ds, rest)
      else ([], s)
  | [] => ([], [])
  end.

Definition int_of_digits (ds : list ascii) : N :=
  fold_left (fun n c => (10 * n + N.of_nat (code c - 48))%N) ds 0%N.

(** The text after an opening brace, read as a counted repetition
    [{m}], [{m,}], [{,n}] or [{m,n}]: [None] when it is not one. *)
Definition parse_braces (s : list ascii)
  : option (list ascii * list ascii * list ascii) :=
  let '(lo, s1) := take_digits s in
  match s1 with
  | ","%char :: s2 =>
      let '(hi, s3) := take_digits s2 in
      match s3 with
      | "}"%char :: s4 => Some (lo, hi, s4)
      | _ => None
      end
  | "}"%char :: s2 => Some (lo, lo, s2)
  | _ => None
  end.

Definition braces_bounds (lo hi : list ascii) : outcome (nat * option nat) :=
  let mn := int_of_digits lo in
  if (MAXREPEAT <=? mn)%N then Raise OverflowError
  else if length hi =? 0 then Ok (N.to_nat mn, None)
  else
    let mx := int_of_digits hi in
    if (MAXREPEAT <=? mx)%N then Raise OverflowError
    else if (mx <? mn)%N then Raise (re_error "min repeat greater than max repeat")
    else Ok (N.to_nat mn, Some (N.to_nat mx)).

(** The items of a branch are kept last-first. *)
Fixpoint seq_of (items : list (regex * item_kind)) (tail : regex) : regex :=
  match items with
  | [] => tail
  | (r, _) :: rest => seq_of rest (match tail with Empty => r | _ => Seq r tail end)
  end.

Fixpoint alt_of (branches : list regex) (last : regex) : regex :=
  match branches with
  | [] => last
  | b :: bs => Alt b (alt_of bs last)
  end.

(** Replace the last item by its repetition. A following [?] or [+] would
    make the repetition lazy or possessive. *)
Definition repeat_last (lo : nat) (hi : option nat)
    (items : list (regex * item_kind)) (rest : list ascii)
  : outcome (list (regex * item_kind)) :=
  match items with
  | [] => Raise (re_error "nothing to repeat")
  | (_, K_at) :: _ => Raise (re_error "nothing to repeat")
  | (_, K_repeat) :: _ => Raise (re_error "multiple repeat")
  | (r, _) :: before =>
      match rest with
      | "?"%char :: _ => Raise (OutsideModel "lazy repetition")
      | "+"%char :: _ => Raise (OutsideModel "possessive repetition")
      | _ => Ok ((Repeat lo hi r, K_repeat) :: before)
      end
  end.

Definition item_of_escape (e : escape_code) : regex * item_kind :=
  match e with
  | E_lit c => (Lit c, K_atom)
  | E_cat neg k => (Category neg k, K_atom)
  | E_at a => (At a, K_at)
  end.

(** [_parse_sub] and [_parse]: an alternation of branches, up to the end of
    the pattern or an unmatched closing parenthesis, which is left in the
    rest.  Interpreted syntax: literals, [.], [^], [$], the escapes of
    [parse_escape], character sets with ranges and negation, groups
    [( )] and [(?: )], alternation, and the greedy repetitions [*], [+],
    [?], [{m}], [{m,}], [{,n}], [{m,n}]. *)
Fixpoint parse_sub (fuel : nat) (s : list ascii) (branches : list regex)
    (items : list (regex * item_kind)) : outcome (regex * list ascii) :=
  match fuel with
  | 0 => Raise (OutsideModel "pattern too long")
  | S fuel' =>
      match s with
      | [] => Ok (alt_of branches (seq_of items Empty), [])
      | this :: s1 =>
          if Ascii.eqb this ")" then
            Ok (alt_of branches (seq_of items Empty), s)
          else if Ascii.eqb this "|" then
            parse_sub fuel' s1 (branches ++ [seq_of items Empty])%list []
          else if Ascii.eqb this "\" then
            match s1 with
            | [] => Raise (re_error "bad escape (end of pattern)")
            | e :: s2 =>
                code1 ← parse_escape e;
                parse_sub fuel' s2 branches (item_of_escape code1 :: items)
            end
          else if Ascii.eqb this "[" then
            let '(negate, s2) :=
              match s1 with
              | "^"%char :: s2 => (true, s2)
              | _ => (false, s1)
              end in
            '(set, s3) ← parse_set (S (length s2)) s2 [];
            parse_sub fuel' s3 branches ((CharSet negate set, K_atom) :: items)
          else if Ascii.eqb this "?" then
            items' ← repeat_last 0 (Some 1) items s1;
            parse_sub fuel' s1 branches items'
          else if Ascii.eqb this "*" then
            items' ← repeat_last 0 None items s1;
            parse_sub fuel' s1 branches items'
          else if Ascii.eqb this "+" then
            items' ← repeat_last 1 None items s1;
            parse_sub fuel' s1 branches items'
          else if Ascii.eqb this "{" then
            match s1 with
            | "}"%char :: _ =>
                parse_sub fuel' s1 branches ((Lit this, K_atom) :: items)
            | _ =>
                match parse_braces s1 with
                | None =>
                    parse_sub fuel' s1 branches ((Lit this, K_atom) :: items)
                | Some (lo, hi, s2) =>
                    '(mn, mx) ← braces_bounds lo hi;
                    items' ← repeat_last mn mx items s2;
                    parse_sub fuel' s2 branches items'
                end
            end
          else if Ascii.eqb this "(" then
            match s1 with
            | "?"%char :: ":"%char :: s2 =>
                '(p, s3) ← parse_sub fuel' s2 [] [];
                match s3 with
                | ")"%char :: s4 =>
                    parse_sub fuel' s4 branches ((p, K_group) :: items)
                | _ => Raise (re_error "missing ), unterminated subpattern")
                end
            | "?"%char :: _ => Raise (OutsideModel "group extension")
            | _ =>
                '(p, s3) ← parse_sub fuel' s1 [] [];
                match s3 with
                | ")"%char :: s4 =>
                    parse_sub fuel' s4 branches ((p, K_group) :: items)
                | _ => Raise (re_error "missing ), unterminated subpattern")
                end
            end
          else if Ascii.eqb this "." then
            parse_sub fuel' s1 branches ((AnyChar, K_atom) :: items)
          else if Ascii.eqb this "^" then
            parse_sub fuel' s1 branches ((At At_beginning, K_at) :: items)
          else if Ascii.eqb this "$" then
            parse_sub fuel' s1 branches ((At At_end, K_at) :: items)
          else
            parse_sub fuel' s1 branches ((Lit this, K_atom) :: items)
      end
  end.

(** [re._parser.parse] *)
Definition re_parse (pattern : string) : outcome regex :=
  let s := list_ascii_of_string pattern in
  '(p, rest) ← parse_sub (S (length s)) s [] [];
  match rest with
  | [] => Ok p
  | _ => Raise (re_error "unbalanced parenthesis")
  end.

(** A compiled pattern object: the parsed expression and its flags.  The
    only flag the program passes is [re.IGNORECASE]. *)
Record Pattern : Type := mkPattern {
  pat_regex : regex;
  pat_ignorecase : bool
}.

(** [re.compile(pattern, flags)].  The answer [OutsideModel] is no
    answer: it marks a pattern that uses syntax which [re_parse] does not
    interpret (lazy and possessive repetition, the group extensions
    [(?...)] other than [(?:...)], numeric and named escapes,
    backreferences), and says nothing of what [re.compile] does with it. *)
Definition re_compile (pattern : string) (ignorecase : bool) : outcome Pattern :=
  p ← re_parse pattern; Ok (mkPattern p ignorecase).

(** The pattern is written in the interpreted syntax: [re_parse] gives an
    expression or an error of [re]. *)
Definition interpreted (pattern : string) : bool :=
  match re_parse pattern with
  | Raise (OutsideModel _) => false
  | _ => true
  end.

(** *** Matching ([_sre]) *)

Definition category_matches (k : category) (c : ascii) : bool :=
  match k with
  | Cat_digit => uni_isdecimal c
  | Cat_space => uni_isspace c
  | Cat_word => uni_isword c
  end.

Definition item_matches (it : set_item) (c : ascii) : bool :=
  match it with
  | SLit x => Ascii.eqb x c
  | SRange lo hi => (code lo <=? code c) && (code c <=? code hi)
  | SCat neg k => xorb neg (category_matches k c)
  end.

Definition set_matches (items : list set_item) (c : ascii) : bool :=
  existsb (fun it => item_matches it c) items.

Definition below (count : nat) (hi : option nat) : bool :=
  match hi with
  | None => true
  | Some h => count <? h
  end.

Section Matcher.
Variable ignorecase : bool.
Variable text : string.

Definition char_at (i : nat) : option ascii := String.get i text.

(** A literal: the same character, or under IGNORECASE one with the same
    lower case. *)
Definition lit_matches (x c : ascii) : bool :=
  Ascii.eqb x c || (ignorecase && Ascii.eqb (sre_lower x) (sre_lower c)).

(** A character set: under IGNORECASE a character is a member when one
    of its case variants is. *)
Definition charset_matches (neg : bool) (items : list set_item) (c : ascii)
  : bool :=
  xorb neg
    (set_matches items c
     || (ignorecase
         && (set_matches items (sre_lower c)
             || set_matches items (sre_upper c)))).

Definition is_word_at (i : nat) : bool :=
  match char_at i with
  | Some c => uni_isword c
  | None => false
  end.

Definition word_before (i : nat) : bool :=
  match i with
  | 0 => false
  | S j => is_word_at j
  end.

Definition at_matches (a : anchor) (i : nat) : bool :=
  let len := String.length text in
  match a with
  | At_beginning | At_beginning_string => i =? 0
  | At_end_string => i =? len
  | At_end =>
      (i =? len)
      || ((S i =? len)
          && match char_at i with Some c => is_code 10 c | None => false end)
  | At_boundary =>
      negb (len =? 0) && xorb (word_before i) (is_word_at i)
  | At_non_boundary =>
      negb (len =? 0) && negb (xorb (word_before i) (is_word_at i))
  end.

Definition char_step (p : ascii -> bool) (i : nat) (k : nat -> option nat)
  : option nat :=
  match char_at i with
  | Some c => if p c then k (S i) else None
  | None => None
  end.

Definition same_pos (last : option nat) (i : nat) : bool :=
  match last with
  | Some l => l =? i
  | None => false
  end.

(** A greedy repetition of a body matcher [mb], after [MAX_UNTIL]:
    below the minimum count the body must match again; from the minimum
    on, another iteration is tried first, unless the maximum is reached or
    the previous iteration started at this same offset (zero-width
    protection), and the tail [k] is tried when that fails.  Each
    iteration past the minimum starts at a larger offset than the one
    before, so [lo] plus the length of the text bounds the number of
    iterations, which is what [fuel] is set to. *)
Fixpoint until (mb : nat -> (nat -> option nat) -> option nat)
    (lo : nat) (hi : option nat) (k : nat -> option nat)
    (fuel count : nat) (last : option nat) (i : nat) {struct fuel}
  : option nat :=
  if count <? lo then
    match fuel with
    | 0 => None
    | S fuel' => mb i (fun j => until mb lo hi k fuel' (S count) last j)
    end
  else if below count hi && negb (same_pos last i) then
    match fuel with
    | 0 => k i
    | S fuel' =>
        match mb i (fun j => until mb lo hi k fuel' (S count) (Some i) j) with
        | Some e => Some e
        | None => k i
        end
    end
  else k i.

(** The backtracking matcher, in continuation-passing style: [re_match r
    i k] matches [r] at offset [i] and hands every candidate end offset to
    [k], in the engine's order of preference, until [k] accepts one. *)
Fixpoint re_match (r : regex) (i : nat) (k : nat -> option nat) {struct r}
  : option nat :=
  match r with
  | Lit x => char_step (lit_matches x) i k
  | AnyChar => char_step (fun c => negb (is_code 10 c)) i k
  | Category neg kd => char_step (fun c => xorb neg (category_matches kd c)) i k
  | CharSet neg items => char_step (charset_matches neg items) i k
  | At a => if at_matches a i then k i else None
  | Empty => k i
  | Seq r1 r2 => re_match r1 i (fun j => re_match r2 j k)
  | Alt r1 r2 =>
      match re_match r1 i k with
      | Some e => Some e
      | None => re_match r2 i k
      end
  | Repeat lo hi body =>
      until (re_match body) lo hi k (lo + S (String.length text)) 0 None i
  end.

(** One attempt at offset [i]; with [must_advance] an empty match is
    refused and the matcher backtracks. *)
Definition match_at (r : regex) (i : nat) (must_advance : bool) : option nat :=
  re_match r i (fun j => if must_advance && (j =? i) then None else Some j).

(** [search]: the first offset from [s] on, among [n + 1] offsets, where
    an attempt succeeds; [must_advance] only constrains the first. *)
Fixpoint search_from (r : regex) (n s : nat) (must_advance : bool)
  : option (nat * nat) :=
  match match_at r s must_advance with
  | Some e => Some (s, e)
  | None =>
      match n with
      | 0 => None
      | S n' => search_from r n' (S s) false
      end
  end.

Definition search (r : regex) (pos : nat) (must_advance : bool)
  : option (nat * nat) :=
  if String.length text <? pos then None
  else search_from r (String.length text - pos) pos must_advance.

(** The scanner behind [finditer]: each search starts where the previous
    match ended, and must advance when that match was empty. *)
Fixpoint scan (r : regex) (fuel pos : nat) (must_advance : bool)
  : list (nat * nat) :=
  match fuel with
  | 0 => []
  | S fuel' =>
      match search r pos must_advance with
      | None => []
      | Some (s, e) => (s, e) :: scan r fuel' e (e =? s)
      end
  end.
End Matcher.

(** [pattern.finditer(text)], as the list of [(match.start(), match.end())] *)
Definition finditer (p : Pattern) (text : string) : list (nat * nat) :=
  scan (pat_ignorecase p) text (pat_regex p) (2 * String.length text + 2) 0 false.

(** ** [detectors.py] *)

Inductive PIIType : Type :=
| EMAIL | PHONE | SSN | CREDIT_CARD | IP_ADDRESS | DATE | ADDRESS | PASSPORT
| DRIVER_LICENSE | BANK_ACCOUNT | NAME | CUSTOM.

#[global] Instance PIIType_eq_dec : EqDecision PIIType.
Proof. solve_decision. Defined.

Definition PIIType_value (t : PIIType) : string :=
  match t with
  | EMAIL => "email"
  | PHONE => "phone"
  | SSN => "ssn"
  | CREDIT_CARD => "credit_card"
  | IP_ADDRESS => "ip_address"
  | DATE => "date"
  | ADDRESS => "address"
  | PASSPORT => "passport"
  | DRIVER_LICENSE => "driver_license"
  | BANK_ACCOUNT => "bank_account"
  | NAME => "name"
  | CUSTOM => "custom"
  end.

(** [PIIMatch]; the field [end] is spelled [end_]. *)
Record PIIMatch : Type := mkMatch {
  pii_type : PIIType;
  value : string;
  start : nat;
  end_ : nat;
  confidence : Q
}.

Definition span_of (m : PIIMatch) : nat * nat := (start m, end_ m).

(** Python dictionaries keep their keys in insertion order; assigning to
    a present key keeps its place. *)
Fixpoint dict_set {V : Type} (k : PIIType) (v : V) (d : list (PIIType * V))
  : list (PIIType * V) :=
  match d with
  | [] => [(k, v)]
  | (k', v') :: d' =>
      if decide (k = k') then (k, v) :: d' else (k', v') :: dict_set k v d'
  end.

Fixpoint dict_get {V : Type} (k : PIIType) (d : list (PIIType * V)) : option V :=
  match d with
  | [] => None
  | (k', v') :: d' => if decide (k = k') then Some v' else dict_get k d'
  end.

(** [RegexDetector.PATTERNS] *)
Definition PATTERNS : list (PIIType * list (string * Q)) :=
  [ (EMAIL,
      [ ("\b[A-Za-z0-9._%+-]+@[A-Za-z0-9.-]+\.[A-Z|a-z]{2,}\b", 99 # 100) ]);
    (PHONE,
      [ ("\b\+?1?[-.\s]?\(?[0-9]{3}\)?[-.\s]?[0-9]{3}[-.\s]?[0-9]{4}\b", 95 # 100);
        ("\b\+[1-9]\d{1,14}\b", 90 # 100);
        ("\b0[2-9]\d{7,8}\b", 90 # 100);
        ("\b\+972[-.\s]?[0-9]{1,2}[-.\s]?[0-9]{3}[-.\s]?[0-9]{4}\b", 95 # 100) ]);
    (SSN,
      [ ("\b\d{3}[-\s]?\d{2}[-\s]?\d{4}\b", 95 # 100) ]);
    (CREDIT_CARD,
      [ ("\b4[0-9]{3}[-\s]?[0-9]{4}[-\s]?[0-9]{4}[-\s]?[0-9]{4}\b", 98 # 100);
        ("\b5[1-5][0-9]{2}[-\s]?[0-9]{4}[-\s]?[0-9]{4}[-\s]?[0-9]{4}\b", 98 # 100);
        ("\b3[47][0-9]{2}[-\s]?[0-9]{6}[-\s]?[0-9]{5}\b", 98 # 100);
        ("\b[0-9]{4}[-\s]?[0-9]{4}[-\s]?[0-9]{4}[-\s]?[0-9]{4}\b", 85 # 100) ]);
    (IP_ADDRESS,
      [ ("\b(?:(?:25[0-5]|2[0-4][0-9]|[01]?[0-9][0-9]?)\.){3}(?:25[0-5]|2[0-4][0-9]|[01]?[0-9][0-9]?)\b", 99 # 100);
        ("\b(?:[0-9a-fA-F]{1,4}:){7}[0-9a-fA-F]{1,4}\b", 99 # 100) ]);
    (DATE,
      [ ("\b\d{4}[-/]\d{2}[-/]\d{2}\b", 90 # 100);
        ("\b\d{1,2}[-/]\d{1,2}[-/]\d{2,4}\b", 85 # 100);
        ("\b(?:Jan|Feb|Mar|Apr|May|Jun|Jul|Aug|Sep|Oct|Nov|Dec)[a-z]*\.?\s+\d{1,2},?\s+\d{4}\b", 90 # 100) ]);
    (PASSPORT,
      [ ("\b[A-Z]{1,2}[0-9]{6,9}\b", 70 # 100) ]);
    (DRIVER_LICENSE,
      [ ("\b[A-Z]{1,2}[0-9]{5,8}\b", 60 # 100) ]);
    (BANK_ACCOUNT,
      [ ("\b[A-Z]{2}[0-9]{2}[A-Z0-9]{4}[0-9]{7}([A-Z0-9]?){0,16}\b", 95 # 100);
        ("\b[0-9]{8,17}\b", 50 # 100) ]) ]%Q.

Record RegexDetector : Type := mkDetector {
  enabled_types : list PIIType;
  _compiled_patterns : list (PIIType * list (Pattern * Q))
}.

(** [[(re.compile(pattern, re.IGNORECASE), confidence) for ...]] *)
Fixpoint compile_rules (rules : list (string * Q)) : outcome (list (Pattern * Q)) :=
  match rules with
  | [] => Ok []
  | (pattern, conf) :: rest =>
      p ← re_compile pattern true;
      ps ← compile_rules rest;
      Ok ((p, conf) :: ps)
  end.

(** [RegexDetector._compile_patterns], as a loop over [enabled_types] *)
Fixpoint _compile_patterns (types : list PIIType)
    (compiled : list (PIIType * list (Pattern * Q)))
  : outcome (list (PIIType * list (Pattern * Q))) :=
  match types with
  | [] => Ok compiled
  | pii_type :: rest =>
      match dict_get pii_type PATTERNS with
      | Some rules =>
          ps ← compile_rules rules;
          _compile_patterns rest (dict_set pii_type ps compiled)
      | None => _compile_patterns rest compiled
      end
  end.

(** [enabled_types or list(self.PATTERNS.keys())]: [None] and the empty
    list are both falsy. *)
Definition enabled_or_all (enabled : option (list PIIType)) : list PIIType :=
  match enabled with
  | Some (t :: ts) => t :: ts
  | Some [] | None => map fst PATTERNS
  end.

(** [RegexDetector.__init__] *)
Definition RegexDetector_init (enabled : option (list PIIType))
  : outcome RegexDetector :=
  let types := enabled_or_all enabled in
  compiled ← _compile_patterns types [];
  Ok (mkDetector types compiled).

(** [RegexDetector._spans_overlap] *)
Definition _spans_overlap (span1 span2 : nat * nat) : bool :=
  negb ((snd span1 <=? fst span2) || (snd span2 <=? fst span1)).

(** [list.sort(key=...)] is stable: equal keys keep their order. *)
Fixpoint insert_asc {A : Type} (key : A -> nat) (x : A) (l : list A) : list A :=
  match l with
  | [] => [x]
  | y :: l' => if key x <=? key y then x :: y :: l' else y :: insert_asc key x l'
  end.

Fixpoint sort_asc {A : Type} (key : A -> nat) (l : list A) : list A :=
  match l with
  | [] => []
  | x :: l' => insert_asc key x (sort_asc key l')
  end.

(** [list.sort(key=..., reverse=True)]: descending, still stable. *)
Fixpoint insert_desc {A : Type} (key : A -> nat) (x : A) (l : list A) : list A :=
  match l with
  | [] => [x]
  | y :: l' => if key y <=? key x then x :: y :: l' else y :: insert_desc key x l'
  end.

Fixpoint sort_desc {A : Type} (key : A -> nat) (l : list A) : list A :=
  match l with
  | [] => []
  | x :: l' => insert_desc key x (sort_desc key l')
  end.

(** The state of the loops of [detect]: the matches appended so far and
    the spans seen.  [seen_spans] is a set that is only ever queried with
    [any]; it is kept as the list of its members. *)
Definition detect_state : Type := list PIIMatch * list (nat * nat).

(** The body of the innermost loop, for one [match] of [finditer]. *)
Definition detect_hit (text : string) (pii_type : PIIType) (conf : Q)
    (st : detect_state) (span : nat * nat) : detect_state :=
  let '(matches, seen_spans) := st in
  if negb (existsb (fun seen => _spans_overlap span seen) seen_spans)
  then ((matches ++ [mkMatch pii_type (str_slice (fst span) (snd span) text)
                       (fst span) (snd span) conf])%list,
        span :: seen_spans)
  else st.

(** [for pattern, confidence in patterns: for match in pattern.finditer(text)] *)
Definition detect_rule (text : string) (pii_type : PIIType)
    (st : detect_state) (rule : Pattern * Q) : detect_state :=
  fold_left (detect_hit text pii_type (snd rule)) (finditer (fst rule) text) st.

Definition detect_type (text : string) (st : detect_state)
    (entry : PIIType * list (Pattern * Q)) : detect_state :=
  fold_left (detect_rule text (fst entry)) (snd entry) st.

(** [RegexDetector.detect] *)
Definition detect (d : RegexDetector) (text : string) : list PIIMatch :=
  let '(matches, _) :=
    fold_left (detect_type text) (_compiled_patterns d) ([], []) in
  sort_asc start matches.

(** [RegexDetector.add_custom_pattern], for any behaviour [compile] of
    the call [re.compile(pattern)]: the [custom] entry is created before
    the pattern is compiled, so it is there even when [re.compile]
    raises. *)
Definition add_custom_pattern_with (compile : string -> outcome Pattern)
    (d : RegexDetector) (name pattern : string) (conf : Q)
  : RegexDetector * outcome unit :=
  let compiled :=
    match dict_get CUSTOM (_compiled_patterns d) with
    | Some _ => _compiled_patterns d
    | None => dict_set CUSTOM [] (_compiled_patterns d)
    end in
  match compile pattern with
  | Raise e => (mkDetector (enabled_types d) compiled, Raise e)
  | Ok p =>
      let rules := default [] (dict_get CUSTOM compiled) in
      (mkDetector (enabled_types d)
         (dict_set CUSTOM (rules ++ [(p, conf)])%list compiled), Ok tt)
  end.

(** [RegexDetector.add_custom_pattern], with [re.compile] as embedded:
    no flags are passed. *)
Definition add_custom_pattern (d : RegexDetector) (name pattern : string)
    (conf : Q) : RegexDetector * outcome unit :=
  add_custom_pattern_with (fun pattern => re_compile pattern false)
    d name pattern conf.

(** ** [generators.py] *)

(** [datetime.date] *)
Record date : Type := mkDate { year : nat; month : nat; day : nat }.

Definition pad2 (n : nat) : string :=
  if n <? 10 then "0" ++ pretty n else pretty n.

Definition month_name (m : nat) : string :=
  nth (m - 1)
    ["January"; "February"; "March"; "April"; "May"; "June"; "July";
     "August"; "September"; "October"; "November"; "December"] "".

(** [date.strftime(fmt)] for the directives the program uses: [%m], [%d],
    [%Y] and [%B]. *)
Fixpoint strftime (d : date) (fmt : string) : string :=
  match fmt with
  | String "%" (String "m" rest) => pad2 (month d) ++ strftime d rest
  | String "%" (String "d" rest) => pad2 (day d) ++ strftime d rest
  | String "%" (String "Y" rest) => pretty (year d) ++ strftime d rest
  | String "%" (String "B" rest) => month_name (month d) ++ strftime d rest
  | String c rest => String c (strftime d rest)
  | EmptyString => EmptyString
  end.

(** A Python number: [10 ** k] is an [int] for [k >= 0] and a [float]
    otherwise. *)
Inductive pynum : Type :=
| PyInt (n : Z)
| PyFloat (q : Q).

Definition py_pow10 (k : Z) : pynum :=
  if (0 <=? k)%Z then PyInt (10 ^ k) else PyFloat (1 # Pos.pow 10 (Z.to_pos (- k))).

Definition py_pred (x : pynum) : pynum :=
  match x with
  | PyInt n => PyInt (n - 1)
  | PyFloat q => PyFloat (q - 1)
  end.

(** The [Faker] library: a provider of random draws over its random
    state.  [Faker(locale)] raises for a locale the library does not
    know; for one it knows the draws are those of that locale.  Nothing
    is assumed of the draws, so what is proved for every provider holds
    for every locale. *)
Class Faker : Type := {
  rng : Type;
  (** whether [Faker(locale)] accepts the locale; it raises for the
      others *)
  known_locale : string -> bool;
  (** the random state that [Faker(locale)] returns *)
  faker_new : rng;
  (** [Faker.seed(seed)] *)
  faker_seed : Z -> rng -> rng;
  (** [faker.seed_instance(seed)] *)
  seed_instance : Z -> rng -> rng;
  (** a draw of [random.randrange(lo, hi + 1)] for integers [lo <= hi] *)
  randrange_draw : Z -> Z -> rng -> Z * rng;
  random_digit : rng -> Z * rng;
  email : rng -> string * rng;
  phone_number : rng -> string * rng;
  ssn : rng -> string * rng;
  credit_card_number : rng -> string * rng;
  ipv4 : rng -> string * rng;
  ipv6 : rng -> string * rng;
  date_object : rng -> date * rng;
  address : rng -> string * rng;
  iban : rng -> string * rng;
  first_name : rng -> string * rng;
  last_name : rng -> string * rng;
  name : rng -> string * rng
}.

Section Generators.
Context {F : Faker}.
(** [int(hashlib.md5(original.encode()).hexdigest()[:8], 16)] *)
Variable md5_seed : string -> Z.

(** A computation over the random state that can raise. *)
Definition gen (A : Type) : Type := rng -> outcome A * rng.

Definition gen_ret {A : Type} (a : A) : gen A := fun s => (Ok a, s).

Definition gen_bind {A B : Type} (c : gen A) (k : A -> gen B) : gen B :=
  fun s =>
    match c s with
    | (Ok a, s') => k a s'
    | (Raise e, s') => (Raise e, s')
    end.

Definition draw {A : Type} (f : rng -> A * rng) : gen A :=
  fun s => let '(a, s') := f s in (Ok a, s').

Notation "x <~ c ;; k" := (gen_bind c (fun x => k))
  (at level 100, c at next level, right associativity).

(** [faker.random_int(min, max)] is [random.randrange(min, max + 1)],
    which raises on a bound that is not an integer and on an empty
    range. *)
Definition random_int (lo hi : pynum) : gen Z :=
  match lo, hi with
  | PyInt a, PyInt b =>
      if (a <=? b)%Z then draw (randrange_draw a b)
      else fun s => (Raise RandrangeError, s)
  | _, _ => fun s => (Raise RandrangeError, s)
  end.

Definition random_int' (lo hi : Z) : gen Z := random_int (PyInt lo) (PyInt hi).

Definition _generate_email (original : string) : gen string := draw email.

Definition _generate_phone (original : string) : gen string :=
  if startswith "+972" original then
    a <~ random_int' 50 59 ;;
    b <~ random_int' 100 999 ;;
    c <~ random_int' 1000 9999 ;;
    gen_ret ("+972-" ++ str_of_Z a ++ "-" ++ str_of_Z b ++ "-" ++ str_of_Z c)
  else if startswith "+1" original || startswith "1" original then
    draw phone_number
  else if str_contains "(" original then
    area <~ random_int' 200 999 ;;
    b <~ random_int' 100 999 ;;
    c <~ random_int' 1000 9999 ;;
    gen_ret ("(" ++ str_of_Z area ++ ") " ++ str_of_Z b ++ "-" ++ str_of_Z c)
  else draw phone_number.

Definition _generate_ssn (original : string) : gen string :=
  s <~ draw ssn ;;
  gen_ret (if negb (str_contains "-" original) then str_replace "-" "" s else s).

(** [[cc[i:i+4] for i in range(0, 16, 4)]] *)
Definition groups_of_4 (cc : string) : list string :=
  map (fun i => str_slice i (i + 4) cc) [0; 4; 8; 12].

Definition _generate_credit_card (original : string) : gen string :=
  cc <~ draw credit_card_number ;;
  gen_ret (if str_contains "-" original then str_join "-" (groups_of_4 cc)
           else if str_contains " " original then str_join " " (groups_of_4 cc)
           else cc).

Definition _generate_ip (original : string) : gen string :=
  if str_contains ":" original then draw ipv6 else draw ipv4.

Definition _generate_date (original : string) : gen string :=
  fake_date <~ draw date_object ;;
  gen_ret
    (if str_contains "/" original then
       if match str_index "/" original with Some i => i <? 3 | None => false end
       then strftime fake_date "%m/%d/%Y"
       else strftime fake_date "%Y/%m/%d"
     else if str_contains "-" original then strftime fake_date "%Y-%m-%d"
     else strftime fake_date "%B %d, %Y").

Definition _generate_address (original : string) : gen string :=
  a <~ draw address ;;
  gen_ret (str_replace (ascii_of_nat 10) ", " a).

Definition _generate_passport (original : string) : gen string :=
  let prefix := str_filter uni_isalpha original in
  let num_digits := Z.of_nat (String.length (str_filter uni_isdigit original)) in
  n <~ random_int (py_pow10 (num_digits - 1)) (py_pred (py_pow10 num_digits)) ;;
  gen_ret (prefix ++ str_of_Z n).

Definition _generate_driver_license (original : string) : gen string :=
  _generate_passport original.

(** [''.join(str(self.faker.random_digit()) for _ in range(n))] *)
Fixpoint random_digits (n : nat) : gen string :=
  match n with
  | 0 => gen_ret ""
  | S n' =>
      d <~ draw random_digit ;;
      rest <~ random_digits n' ;;
      gen_ret (str_of_Z d ++ rest)
  end.

Definition _generate_bank_account (original : string) : gen string :=
  if isalpha (str_take 2 original) then draw iban
  else random_digits (String.length original).

Definition _generate_name (original : string) : gen string :=
  let parts := split_ws original in
  if length parts =? 1 then draw first_name
  else if length parts =? 2 then draw name
  else
    f <~ draw first_name ;;
    l <~ draw last_name ;;
    gen_ret (f ++ " " ++ l).

Definition _generate_generic (original : string) : gen string :=
  n <~ random_int' 1000 9999 ;;
  gen_ret ("[REDACTED-" ++ str_of_Z n ++ "]").

(** [FakeDataGenerator._generate_by_type]: [CUSTOM] has no entry in the
    table and falls to the generic generator. *)
Definition _generate_by_type (pii_type : PIIType) (original : string)
  : gen string :=
  match pii_type with
  | EMAIL => _generate_email original
  | PHONE => _generate_phone original
  | SSN => _generate_ssn original
  | CREDIT_CARD => _generate_credit_card original
  | IP_ADDRESS => _generate_ip original
  | DATE => _generate_date original
  | ADDRESS => _generate_address original
  | PASSPORT => _generate_passport original
  | DRIVER_LICENSE => _generate_driver_license original
  | BANK_ACCOUNT => _generate_bank_account original
  | NAME => _generate_name original
  | CUSTOM => _generate_generic original
  end.

Record FakeDataGenerator : Type := mkGenerator {
  faker : rng;
  consistent : bool;
  _cache : gmap string string
}.

(** [FakeDataGenerator.__init__] once [Faker(locale)] has returned;
    [if seed:] skips [None] and [0]. *)
Definition FakeDataGenerator_init (consistent : bool) (seed : option Z)
  : FakeDataGenerator :=
  let st :=
    match seed with
    | Some s => if (s =? 0)%Z then faker_new else faker_seed s faker_new
    | None => faker_new
    end in
  mkGenerator st consistent ∅.

(** [FakeDataGenerator.__init__]: [Faker(locale)] comes first and raises
    for a locale the library does not know. *)
Definition FakeDataGenerator_new (locale : string) (consistent : bool)
    (seed : option Z) : outcome FakeDataGenerator :=
  if known_locale locale then Ok (FakeDataGenerator_init consistent seed)
  else Raise (LocaleError locale).

(** [FakeDataGenerator.generate] *)
Definition generate (g : FakeDataGenerator) (pii_type : PIIType)
    (original : string) : outcome string * FakeDataGenerator :=
  match (if consistent g then _cache g !! original else None) with
  | Some cached => (Ok cached, g)
  | None =>
      let st :=
        if consistent g then seed_instance (md5_seed original) (faker g)
        else faker g in
      match _generate_by_type pii_type original st with
      | (Ok fake_value, st') =>
          (Ok fake_value,
           mkGenerator st' (consistent g)
             (if consistent g then <[original := fake_value]> (_cache g)
              else _cache g))
      | (Raise e, st') => (Raise e, mkGenerator st' (consistent g) (_cache g))
      end
  end.

(** [FakeDataGenerator.clear_cache] *)
Definition clear_cache (g : FakeDataGenerator) : FakeDataGenerator :=
  mkGenerator (faker g) (consistent g) ∅.

(** ** [protector.py] *)

(** Modelled from the spec: the module [guards] ([LLMGuard],
    [get_guard]) is not among the sources.  An external backend is one
    operation [detect(text) -> list of Match] that may fail. *)
Definition LLMGuard : Type := string -> outcome (list PIIMatch).

(** The keyword arguments for the backend factory.  This program only
    passes them on; their values are kept as text. *)
Definition kwargs : Type := list (string * string).

(** [ProtectorConfig], without the two output options, which no method
    reads. *)
Record ProtectorConfig : Type := mkConfig {
  cfg_enabled_types : option (list PIIType);
  use_llm_guard : bool;
  guard_provider : string;
  guard_kwargs : kwargs;
  locale : string;
  consistent_replacements : bool;
  seed : option Z
}.

Record PrivacyProtector : Type := mkProtector {
  config : ProtectorConfig;
  regex_detector : RegexDetector;
  generator : FakeDataGenerator;
  llm_guard : option LLMGuard
}.

(** [get_guard(provider, **kwargs)] *)
Variable get_guard : string -> kwargs -> outcome LLMGuard.

(** [PrivacyProtector.__init__] with a configuration object: the
    detector, then the generator, then the backend. *)
Definition PrivacyProtector_init (cfg : ProtectorConfig)
  : outcome PrivacyProtector :=
  d ← RegexDetector_init (cfg_enabled_types cfg);
  g ← FakeDataGenerator_new (locale cfg) (consistent_replacements cfg)
        (seed cfg);
  if use_llm_guard cfg then
    guard ← get_guard (guard_provider cfg) (guard_kwargs cfg);
    Ok (mkProtector cfg d g (Some guard))
  else Ok (mkProtector cfg d g None).

(** [PrivacyProtector.add_custom_pattern] *)
Definition protector_add_custom_pattern (p : PrivacyProtector)
    (name pattern : string) (conf : Q) : PrivacyProtector * outcome unit :=
  let '(d, r) := add_custom_pattern (regex_detector p) name pattern conf in
  (mkProtector (config p) d (generator p) (llm_guard p), r).

(** The merge loop of [_detect_all]: [existing_spans] is computed once,
    before the loop. *)
Definition merge_guard (matches guard_matches : list PIIMatch) : list PIIMatch :=
  let existing_spans := map span_of matches in
  fold_left
    (fun ms gm =>
       if existsb (fun sp => (fst sp =? start gm) && (snd sp =? end_ gm))
            existing_spans
       then ms else (ms ++ [gm])%list)
    guard_matches matches.

(** [PrivacyProtector._detect_all] *)
Definition _detect_all (p : PrivacyProtector) (text : string)
  : outcome (list PIIMatch) :=
  let matches := detect (regex_detector p) text in
  match llm_guard p with
  | Some guard =>
      guard_matches ← guard text;
      Ok (merge_guard matches guard_matches)
  | None => Ok matches
  end.

Record ReportEntry : Type := mkEntry {
  entry_type : string;
  entry_original : string;
  entry_replacement : string;
  entry_position : nat;
  entry_confidence : Q
}.

(** [AnonymizationResult]; the wall-clock [processing_time_ms] is left
    out. *)
Record AnonymizationResult : Type := mkResult {
  original_text : string;
  anonymized_text : string;
  replacements : list ReportEntry;
  pii_found : nat
}.

(** [result_text[:match.start] + fake_value + result_text[match.end:]] *)
Definition splice (result_text : string) (m : PIIMatch) (fake_value : string)
  : string :=
  str_take (start m) result_text ++ fake_value ++ str_drop (end_ m) result_text.

(** The replacement loop of [anonymize_with_report]. *)
Fixpoint replace_loop (matches : list PIIMatch) (g : FakeDataGenerator)
    (result_text : string) (replacements : list ReportEntry)
  : outcome (string * list ReportEntry) * FakeDataGenerator :=
  match matches with
  | [] => (Ok (result_text, replacements), g)
  | m :: rest =>
      match generate g (pii_type m) (value m) with
      | (Ok fake_value, g') =>
          replace_loop rest g' (splice result_text m fake_value)
            (replacements
             ++ [mkEntry (PIIType_value (pii_type m)) (value m) fake_value
                   (start m) (confidence m)])%list
      | (Raise e, g') => (Raise e, g')
      end
  end.

(** [PrivacyProtector.anonymize_with_report] *)
Definition anonymize_with_report (p : PrivacyProtector) (text : string)
  : outcome AnonymizationResult * PrivacyProtector :=
  match _detect_all p text with
  | Raise e => (Raise e, p)
  | Ok matches =>
      let matches := sort_desc start matches in
      match replace_loop matches (generator p) text [] with
      | (Ok (result_text, replacements), g') =>
          (Ok (mkResult text result_text (rev replacements) (length matches)),
           mkProtector (config p) (regex_detector p) g' (llm_guard p))
      | (Raise e, g') =>
          (Raise e, mkProtector (config p) (regex_detector p) g' (llm_guard p))
      end
  end.

(** [PrivacyProtector.anonymize] *)
Definition anonymize (p : PrivacyProtector) (text : string)
  : outcome string * PrivacyProtector :=
  match anonymize_with_report p text with
  | (Ok result, p') => (Ok (anonymized_text result), p')
  | (Raise e, p') => (Raise e, p')
  end.
End Generators.

(** ** The raw hits of a detection run

    [detect] visits the categories in dictionary order, the rules of a
    category in list order and the matches of a rule in text order.
    [all_hits] is that sequence. *)

Definition hit : Type := PIIType * Q * (nat * nat).

Definition rule_hits (text : string) (pii_type : PIIType) (rule : Pattern * Q)
  : list hit :=
  map (fun span => (pii_type, snd rule, span)) (finditer (fst rule) text).

Definition type_hits (text : string) (entry : PIIType * list (Pattern * Q))
  : list hit :=
  flat_map (rule_hits text (fst entry)) (snd entry).

Definition all_hits (text : string) (d : RegexDetector) : list hit :=
  flat_map (type_hits text) (_compiled_patterns d).

Definition hit_step (text : string) (st : detect_state) (h : hit) : detect_state :=
  detect_hit text (fst (fst h)) (snd (fst h)) st (snd h).

Definition match_of_hit (text : string) (h : hit) : PIIMatch :=
  mkMatch (fst (fst h)) (str_slice (fst (snd h)) (snd (snd h)) text)
    (fst (snd h)) (snd (snd h)) (snd (fst h)).

(** Two spans are disjoint as half-open intervals; touching is allowed. *)
Definition disjoint_spans (a b : nat * nat) : Prop :=
  snd a <= fst b \/ snd b <= fst a.

Definition disjoint_matches (m1 m2 : PIIMatch) : Prop :=
  end_ m1 <= start m2 \/ end_ m2 <= start m1.

Inductive pairwise {A : Type} (R : A -> A -> Prop) : list A -> Prop :=
| pairwise_nil : pairwise R []
| pairwise_cons x l : Forall (R x) l -> pairwise R l -> pairwise R (x :: l).

(** The detectors the interface builds from patterns in the interpreted
    syntax: the constructor, followed by any number of
    [add_custom_pattern] calls with such patterns, failed ones included. *)
Inductive reachable : RegexDetector -> Prop :=
| reachable_init enabled d :
    RegexDetector_init enabled = Ok d -> reachable d
| reachable_add d name pattern conf :
    interpreted pattern = true ->
    reachable d -> reachable (fst (add_custom_pattern d name pattern conf)).

(** The compiled rules of a built-in category. *)
Definition builtin_rules (t : PIIType) : list (Pattern * Q) :=
  match dict_get t PATTERNS with
  | Some rules =>
      match compile_rules rules with
      | Ok ps => ps
      | Raise _ => []
      end
  | None => []
  end.

(** The detector with every built-in category enabled. *)
Definition default_detector : RegexDetector :=
  mkDetector (map fst PATTERNS) (map (fun e => (fst e, builtin_rules (fst e))) PATTERNS).

(** ** What a pattern matches

    [matches r i j]: the expression [r] matches the text from offset [i]
    to offset [j].  This is the declarative reading of the pattern
    language; the matcher is shown to return only such matches. *)

Fixpoint iter (R : nat -> nat -> Prop) (n : nat) (i j : nat) : Prop :=
  match n with
  | 0 => j = i
  | S n' => exists m, R i m /\ iter R n' m j
  end.

(** The number of iterations a repetition may make. *)
Definition within (n lo : nat) (hi : option nat) : Prop :=
  lo <= n /\ (n <= lo \/ match hi with None => True | Some h => n <= h end).

(** The test a one-character expression makes. *)
Definition char_test (ignorecase : bool) (r : regex) : option (ascii -> bool) :=
  match r with
  | Lit x => Some (lit_matches ignorecase x)
  | AnyChar => Some (fun c => negb (is_code 10 c))
  | Category neg kd => Some (fun c => xorb neg (category_matches kd c))
  | CharSet neg items => Some (charset_matches ignorecase neg items)
  | _ => None
  end.

Section Semantics.
Variable ignorecase : bool.
Variable text : string.

Definition char_matches (p : ascii -> bool) (i j : nat) : Prop :=
  exists c, char_at text i = Some c /\ p c = true /\ j = S i.

Fixpoint matches (r : regex) (i j : nat) : Prop :=
  match r with
  | Lit x => char_matches (lit_matches ignorecase x) i j
  | AnyChar => char_matches (fun c => negb (is_code 10 c)) i j
  | Category neg kd =>
      char_matches (fun c => xorb neg (category_matches kd c)) i j
  | CharSet neg items => char_matches (charset_matches ignorecase neg items) i j
  | At a => at_matches text a i = true /\ j = i
  | Empty => j = i
  | Seq r1 r2 => exists m, matches r1 i m /\ matches r2 m j
  | Alt r1 r2 => matches r1 i j \/ matches r2 i j
  | Repeat lo hi body => exists n, within n lo hi /\ iter (matches body) n i j
  end.
End Semantics.

(** The characters of [text[i:j]] that satisfy [p]. *)
Fixpoint count_str (p : ascii -> bool) (s : string) : nat :=
  match s with
  | EmptyString => 0
  | String c s' => (if p c then 1 else 0) + count_str p s'
  end.

Definition count_between (p : ascii -> bool) (text : string) (i j : nat) : nat :=
  count_str p (str_slice i j text).

Definition all_chars : list ascii := map ascii_of_nat (seq 0 256).

(** Some character passes both tests. *)
Definition can_both (p q : ascii -> bool) : bool :=
  existsb (fun c => q c && p c) all_chars.

(** Every character that passes [q] passes [p]. *)
Definition must_pass (p q : ascii -> bool) : bool :=
  forallb (fun c => implb (q c) (p c)) all_chars.

(** A lower bound on the number of characters satisfying [p] in any match
    of [r]. *)
Fixpoint mincount (ignorecase : bool) (p : ascii -> bool) (r : regex) : nat :=
  match r with
  | At _ | Empty => 0
  | Seq r1 r2 => mincount ignorecase p r1 + mincount ignorecase p r2
  | Alt r1 r2 => Nat.min (mincount ignorecase p r1) (mincount ignorecase p r2)
  | Repeat lo _ body => lo * mincount ignorecase p body
  | _ =>
      match char_test ignorecase r with
      | Some q => if must_pass p q then 1 else 0
      | None => 0
      end
  end.

(** An upper bound on that number; [None] when there is none. *)
Fixpoint maxcount (ignorecase : bool) (p : ascii -> bool) (r : regex)
  : option nat :=
  match r with
  | At _ | Empty => Some 0
  | Seq r1 r2 =>
      match maxcount ignorecase p r1, maxcount ignorecase p r2 with
      | Some a, Some b => Some (a + b)
      | _, _ => None
      end
  | Alt r1 r2 =>
      match maxcount ignorecase p r1, maxcount ignorecase p r2 with
      | Some a, Some b => Some (Nat.max a b)
      | _, _ => None
      end
  | Repeat lo hi body =>
      match maxcount ignorecase p body with
      | Some 0 => Some 0
      | Some m =>
          match hi with
          | Some h => Some (Nat.max lo h * m)
          | None => None
          end
      | None => None
      end
  | _ =>
      match char_test ignorecase r with
      | Some q => if can_both p q then Some 1 else Some 0
      | None => Some 0
      end
  end.

(** The least length of a match. *)
Definition minlen (r : regex) : nat := mincount false (fun _ => true) r.


(** A detector with one custom rule that matches the empty string at
    every word boundary, and one that adds a literal rule after it. *)
Definition boundary_detector : RegexDetector :=
  fst (add_custom_pattern default_detector "boundary" "\b" (4 # 5)).

Definition boundary_cd_detector : RegexDetector :=
  fst (add_custom_pattern boundary_detector "cd" "cd" (4 # 5)).

(** A detector whose one custom rule is the literal pattern [abc]. *)
Definition abc_detector : RegexDetector :=
  fst (add_custom_pattern default_detector "abc" "abc" (4 # 5)).

(** Every entry of the detector other than [CUSTOM] holds the compiled
    built-in rules of its category. *)
Definition builtin_entries (d : RegexDetector) : Prop :=
  forall t rules, In (t, rules) (_compiled_patterns d) ->
                  t = CUSTOM \/ rules = builtin_rules t.

Definition rules_nonempty (rules : list (Pattern * Q)) : bool :=
  forallb (fun rule => 1 <=? minlen (pat_regex (fst rule))) rules.


(** ** Runs of the generator *)

Section Runs.
Context {F : Faker}.
Variable md5_seed : string -> Z.

(** The results of a sequence of [generate] calls on one generator. *)
Fixpoint run_calls (g : FakeDataGenerator) (calls : list (PIIType * string))
  : list (outcome string) :=
  match calls with
  | [] => []
  | (pii_type, original) :: rest =>
      let '(r, g') := generate md5_seed g pii_type original in
      r :: run_calls g' rest
  end.

(** The text put together from the original, left to right: the text
    between the matches is kept and every matched span gives way to its
    replacement.  [parts] lists the matches by ascending position. *)
Fixpoint rebuild (text : string) (cursor : nat)
    (parts : list (PIIMatch * string)) : string :=
  match parts with
  | [] => str_drop cursor text
  | (m, fake) :: rest =>
      str_slice cursor (start m) text ++ fake ++ rebuild text (end_ m) rest
  end.
End Runs.

(** A deterministic provider over a counter, to evaluate the generator
    on examples: every draw takes the least value allowed and a fixed
    datum, and advances the counter. *)
#[local] Instance counter_faker : Faker := {|
  rng := Z;
  known_locale := fun locale => String.eqb locale "en_US";
  faker_new := 0%Z;
  faker_seed := fun s _ => s;
  seed_instance := fun s _ => s;
  randrange_draw := fun lo hi st => (lo, (st + 1)%Z);
  random_digit := fun st => (7%Z, (st + 1)%Z);
  email := fun st => ("user@example.org", (st + 1)%Z);
  phone_number := fun st => ("555-0100", (st + 1)%Z);
  ssn := fun st => ("000-00-0000", (st + 1)%Z);
  credit_card_number := fun st => ("4000000000000002", (st + 1)%Z);
  ipv4 := fun st => ("10.0.0.1", (st + 1)%Z);
  ipv6 := fun st => ("::1", (st + 1)%Z);
  date_object := fun st => (mkDate 1990 5 17, (st + 1)%Z);
  address := fun st => ("1 Main St", (st + 1)%Z);
  iban := fun st => ("GB00TEST00000000000000", (st + 1)%Z);
  first_name := fun st => ("Ann", (st + 1)%Z);
  last_name := fun st => ("Lee", (st + 1)%Z);
  name := fun st => ("Ann Lee", (st + 1)%Z)
|}.

(** A stand-in for the hash of [generate], for the same examples. *)
Definition length_seed (original : string) : Z := Z.of_nat (String.length original).

Definition example_generator : FakeDataGenerator :=
  FakeDataGenerator_init true None.

(** The number before the first slash of a date. *)
Definition first_numeric_group (original : string) : N :=
  match str_index "/" original with
  | Some i => int_of_digits (list_ascii_of_string (str_take i original))
  | None => 0%N
  end.

(** A protector without backend over a given detector. *)
Definition protector_of (d : RegexDetector) : PrivacyProtector :=
  mkProtector (mkConfig None false "regex" [] "en_US" true None) d
    example_generator None.


(** A computation over the random state that returns from every state. *)
Definition total {F : Faker} {A : Type} (c : gen A) : Prop :=
  forall st, exists a st', c st = (Ok a, st').


(** [rebuild], stopping at offset [stop] instead of the end of the text. *)
Fixpoint rebuild_to (text : string) (cursor : nat)
    (parts : list (PIIMatch * string)) (stop : nat) : string :=
  match parts with
  | [] => str_slice cursor stop text
  | (m, fake) :: rest =>
      str_slice cursor (start m) text ++ fake ++ rebuild_to text (end_ m) rest stop
  end.

Definition call_of (m : PIIMatch) : PIIType * string := (pii_type m, value m).

Definition needs_digit (t : PIIType) : bool :=
  match t with
  | PASSPORT | DRIVER_LICENSE => true
  | _ => false
  end.

Definition rules_hold_digit (rules : list (Pattern * Q)) : bool :=
  forallb
    (fun rule =>
       1 <=? mincount (pat_ignorecase (fst rule)) uni_isdigit (pat_regex (fst rule)))
    rules.


(** ** A Visa-shaped number in a text *)

Definition digit_at (text : string) (i : nat) : bool :=
  match char_at text i with
  | Some c => is_ascii_digit c
  | None => false
  end.

(** At offset [a] starts a bare run of 16 digits, the first of them [4],
    with a word boundary before and after it. *)
Definition visa_run_at (text : string) (a : nat) : bool :=
  match char_at text a with Some c => Ascii.eqb c "4" | None => false end
  && forallb (fun t => digit_at text (a + t)) (seq 0 16)
  && at_matches text At_boundary a
  && at_matches text At_boundary (a + 16).

(** The first rule of the payment-card category. *)
Definition visa_pattern : Pattern :=
  match re_compile "\b4[0-9]{3}[-\s]?[0-9]{4}[-\s]?[0-9]{4}[-\s]?[0-9]{4}\b" true with
  | Ok p => p
  | Raise _ => mkPattern Empty true
  end.

Definition digits (n : nat) : regex :=
  Repeat n (Some n) (CharSet false [SRange "0" "9"]).

Definition optional_separator : regex :=
  Repeat 0 (Some 1) (CharSet false [SLit "-"; SCat false Cat_space]).

(** The expression starts with [\b]. *)
Definition starts_bounded (r : regex) : bool :=
  match r with
  | Seq (At At_boundary) _ => true
  | _ => false
  end.

(** The expression ends with [\b]. *)
Fixpoint ends_bounded (r : regex) : bool :=
  match r with
  | At At_boundary => true
  | Seq _ r2 => ends_bounded r2
  | _ => false
  end.

Definition rule_bounded (rule : Pattern * Q) : bool :=
  starts_bounded (pat_regex (fst rule)) && ends_bounded (pat_regex (fst rule)).

(** No match of the rule holds 16 digits. *)
Definition rule_short (rule : Pattern * Q) : bool :=
  match maxcount (pat_ignorecase (fst rule)) is_ascii_digit (pat_regex (fst rule)) with
  | Some c => c <? 16
  | None => false
  end.

(** The test the first character of every match passes, where the shape
    of the expression tells. *)
Fixpoint first_test (ignorecase : bool) (r : regex) : option (ascii -> bool) :=
  match r with
  | Seq (At _) r2 => first_test ignorecase r2
  | Seq r1 _ => first_test ignorecase r1
  | Repeat (S _) _ body => first_test ignorecase body
  | _ => char_test ignorecase r
  end.

(** The same for the last character. *)
Fixpoint last_test (ignorecase : bool) (r : regex) : option (ascii -> bool) :=
  match r with
  | Seq r1 (At _) => last_test ignorecase r1
  | Seq _ r2 => last_test ignorecase r2
  | Repeat (S _) _ body => last_test ignorecase body
  | _ => char_test ignorecase r
  end.


(** The payment-card match of the run at offset [a]. *)
Definition visa_match (text : string) (a : nat) : PIIMatch :=
  mkMatch CREDIT_CARD (str_slice a (a + 16) text) a (a + 16) (98 # 100).

(** A body matcher only looks at its continuation on offsets from [i] on
    and within the text. *)
Definition local_matcher (text : string)
    (mb : nat -> (nat -> option nat) -> option nat) : Prop :=
  forall i k k',
    (forall j, i <= j -> j <= Nat.max i (String.length text) -> k j = k' j) ->
    mb i k = mb i k'.

(** ** The place of the [custom] entry

    [add_custom_pattern] is the only writer of the key [CUSTOM], and the
    constructor writes built-in keys only: the [custom] entry, when there
    is one, is the last of the dictionary. *)
Definition custom_last (compiled : list (PIIType * list (Pattern * Q))) : Prop :=
  exists builtin tail,
    compiled = (builtin ++ tail)%list
    /\ Forall (fun e => fst e <> CUSTOM) builtin
    /\ (tail = [] \/ exists rules, tail = [(CUSTOM, rules)]).

(** The categories that [PATTERNS] has no rule for. *)
Definition without_rules : list PIIType := [ADDRESS; NAME; CUSTOM].

(** ** Letter case

    Two texts that differ by letter case only: they have the same length
    and, at every offset, characters with the same lower case. *)
Fixpoint same_letters (a b : string) : bool :=
  match a, b with
  | EmptyString, EmptyString => true
  | String x a', String y b' =>
      Ascii.eqb (sre_lower x) (sre_lower y) && same_letters a' b'
  | _, _ => false
  end.

(** What a match tells besides the characters matched. *)
Definition match_shape (m : PIIMatch) : PIIType * nat * nat * Q :=
  (pii_type m, start m, end_ m, confidence m).

(** A test on characters that does not tell the two cases of a letter
    apart. *)
Definition case_blind (p : ascii -> bool) : Prop :=
  forall c1 c2, sre_lower c1 = sre_lower c2 -> p c1 = p c2.

(** ** What a generator returns

    [yields c P]: from every random state the computation [c] returns,
    and its result satisfies [P]. *)
Definition yields {F : Faker} {A : Type} (c : gen A) (P : A -> Prop) : Prop :=
  forall st, exists a st', c st = (Ok a, st') /\ P a.

(** What the library documents of its draws: [random.randrange] stays
    within its bounds, [random_digit] is a digit, and [seed_instance]
    replaces the random state by one that the seed determines. *)
Definition draws_in_range {F : Faker} : Prop :=
  forall lo hi st,
    (lo <= hi)%Z ->
    (lo <= fst (randrange_draw lo hi st))%Z
    /\ (fst (randrange_draw lo hi st) <= hi)%Z.

Definition digit_draws {F : Faker} : Prop :=
  forall st, (0 <= fst (random_digit st))%Z /\ (fst (random_digit st) <= 9)%Z.

Definition seed_replaces_state {F : Faker} : Prop :=
  forall s st st', seed_instance s st = seed_instance s st'.

(** A string of decimal digits. *)
Definition digit_string (s : string) : bool := str_forallb is_ascii_digit s.

(** ** More of [protector.py] *)

Section Batch.
Context {F : Faker}.
Variable md5_seed : string -> Z.
Variable get_guard : string -> kwargs -> outcome LLMGuard.

(** The configuration [PrivacyProtector.__init__] works with:
    [config or ProtectorConfig(...)], where a backend is asked for when
    the provider is not ["regex"]. *)
Definition effective_config (config : option ProtectorConfig)
    (guard_provider locale : string) (consistent : bool)
    (guard_kwargs : kwargs) : ProtectorConfig :=
  match config with
  | Some cfg => cfg
  | None =>
      mkConfig None (negb (String.eqb guard_provider "regex")) guard_provider
        guard_kwargs locale consistent None
  end.

(** [PrivacyProtector.__init__] *)
Definition PrivacyProtector_new (config : option ProtectorConfig)
    (guard_provider locale : string) (consistent : bool)
    (guard_kwargs : kwargs) : outcome PrivacyProtector :=
  PrivacyProtector_init get_guard
    (effective_config config guard_provider locale consistent guard_kwargs).

(** [PrivacyProtector.detect] *)
Definition protector_detect (p : PrivacyProtector) (text : string)
  : outcome (list PIIMatch) :=
  _detect_all p text.

(** [PrivacyProtector.process_batch]: the comprehension calls
    [anonymize_with_report] on each text in turn, on the one protector; an
    exception ends it and no list is returned. *)
Fixpoint process_batch (p : PrivacyProtector) (texts : list string)
  : outcome (list AnonymizationResult) * PrivacyProtector :=
  match texts with
  | [] => (Ok [], p)
  | text :: rest =>
      match anonymize_with_report md5_seed p text with
      | (Ok result, p') =>
          match process_batch p' rest with
          | (Ok results, p'') => (Ok (result :: results), p'')
          | (Raise e, p'') => (Raise e, p'')
          end
      | (Raise e, p') => (Raise e, p')
      end
  end.
End Batch.

(** What a report entry takes from its match, and the same of a match. *)
Definition report_key (e : ReportEntry) : string * string * nat * Q :=
  (entry_type e, entry_original e, entry_position e, entry_confidence e).

Definition match_key (m : PIIMatch) : string * string * nat * Q :=
  (PIIType_value (pii_type m), value m, start m, confidence m).

(** A match with the span of [gm] is among [ms]. *)
Definition known_span (ms : list PIIMatch) (gm : PIIMatch) : bool :=
  existsb (fun m => (start m =? start gm) && (end_ m =? end_ gm)) ms.

(** The characters one of which every built-in rule asks for: a decimal
    digit, [@] or [:]. *)
Definition trigger (c : ascii) : bool :=
  is_ascii_digit c || is_code 64 c || is_code 58 c.

Definition rules_hold_trigger (rules : list (Pattern * Q)) : bool :=
  forallb
    (fun rule =>
       1 <=? mincount (pat_ignorecase (fst rule)) trigger (pat_regex (fst rule)))
    rules.

(** A text that holds one address twice, its report and a batch under the
    example provider; a backend that reports a name and the span of the
    e-mail address; a backend factory that fails. *)
Definition example_text : string := "a@b.cd, 10.0.0.1, a@b.cd".

Definition example_report : AnonymizationResult :=
  mkResult example_text "user@example.org, 10.0.0.1, user@example.org"
    [ mkEntry "email" "a@b.cd" "user@example.org" 0 (99 # 100);
      mkEntry "ip_address" "10.0.0.1" "10.0.0.1" 8 (99 # 100);
      mkEntry "email" "a@b.cd" "user@example.org" 18 (99 # 100) ]
    3.

Definition example_batch : list AnonymizationResult :=
  [ mkResult "to a@b.cd" "to user@example.org"
      [ mkEntry "email" "a@b.cd" "user@example.org" 3 (99 # 100) ] 1;
    mkResult "a@b.cd!" "user@example.org!"
      [ mkEntry "email" "a@b.cd" "user@example.org" 0 (99 # 100) ] 1 ].

Definition example_guard : LLMGuard :=
  fun _ => Ok [ mkMatch NAME "Ann" 0 3 (9 # 10);
                mkMatch EMAIL "a@b.cd" 8 14 1%Q ].

Definition guarded_protector : PrivacyProtector :=
  mkProtector (mkConfig None true "presidio" [] "en_US" true None)
    default_detector example_generator (Some example_guard).

Definition failing_get_guard : string -> kwargs -> outcome LLMGuard :=
  fun provider _ => Raise (GuardError provider).

(** ** The keys the constructor compiles

    The categories of [types] that [PATTERNS] has rules for, each at its
    first occurrence; [seen] lists the keys already there. *)
Definition has_rules (t : PIIType) : bool :=
  match dict_get t PATTERNS with
  | Some _ => true
  | None => false
  end.

Definition is_key (t : PIIType) (keys : list PIIType) : bool :=
  existsb (fun k => bool_decide (k = t)) keys.

Fixpoint compiled_keys (types seen : list PIIType) : list PIIType :=
  match types with
  | [] => []
  | t :: rest =>
      if has_rules t && negb (is_key t seen)
      then t :: compiled_keys rest (seen ++ [t])
      else compiled_keys rest seen
  end.

(** A numeral of [n] decimal digits. *)
Definition numeral_of (n : nat) (s : string) : Prop :=
  String.length s = n /\ digit_string s = true.

(** Where a rule held by a detector comes from: a built-in rule is a
    pattern of [PATTERNS], with its confidence, that [re.compile] accepted
    with [re.IGNORECASE]; a custom rule is a pattern that [re.compile]
    accepted without flags. *)
Definition rule_origin (t : PIIType) (rule : Pattern * Q) : Prop :=
  if decide (t = CUSTOM)
  then exists pattern, re_compile pattern false = Ok (fst rule)
  else exists pattern rules,
         dict_get t PATTERNS = Some rules
         /\ In (pattern, snd rule) rules
         /\ re_compile pattern true = Ok (fst rule).

(** Every rule of the detector was compiled when it was registered. *)
Definition compiled_at_registration (d : RegexDetector) : Prop :=
  forall t rules rule,
    In (t, rules) (_compiled_patterns d) -> In rule rules -> rule_origin t rule.

(** * Properties *)

(** ** Lists, sorting and strings *)

Lemma pairwise_app_one {A : Type} (R : A -> A -> Prop) l x :
  pairwise R l -> Forall (fun y => R y x) l -> pairwise R (l ++ [x]).
Proof.
  induction 1 as [|y l Hy Hl IH]; intros Hx; simpl.
  - repeat constructor.
  - inversion Hx; subst. constructor; auto.
    apply Forall_app; split; auto.
Qed.

Lemma pairwise_perm {A : Type} (R : A -> A -> Prop) l l' :
  (forall x y, R x y -> R y x) ->
  Permutation l l' -> pairwise R l -> pairwise R l'.
Proof.
  intros Hsym Hp. induction Hp; intros Hl.
  - constructor.
  - inversion Hl; subst. constructor; auto.
    eapply Permutation_Forall; eauto.
  - inversion Hl as [|? ? Hy Hl']; subst.
    inversion Hl' as [|? ? Hx Hl'']; subst.
    inversion Hy; subst.
    constructor; [constructor; auto|constructor; auto].
  - auto.
Qed.

Lemma pairwise_nth {A : Type} (R : A -> A -> Prop) l :
  (forall x y, R x y -> R y x) ->
  pairwise R l ->
  forall i j x y, i <> j -> nth_error l i = Some x -> nth_error l j = Some y ->
                  R x y.
Proof.
  intros Hsym Hl.
  assert (Hlt : forall i j x y, i < j -> nth_error l i = Some x ->
                                nth_error l j = Some y -> R x y).
  { induction Hl as [|z l Hz Hl IH]; intros i j x y Hij Hi Hj.
    - destruct i; discriminate.
    - destruct j as [|j]; [lia|]. destruct i as [|i]; simpl in *.
      + injection Hi as <-. rewrite List.Forall_forall in Hz.
        apply Hz. exact (List.nth_error_In _ _ Hj).
      + apply (IH i j x y); [lia|assumption|assumption]. }
  intros i j x y Hij Hi Hj.
  destruct (Nat.lt_ge_cases i j) as [H|H].
  - apply (Hlt i j x y); assumption.
  - apply Hsym. apply (Hlt j i y x); [lia|assumption|assumption].
Qed.

Lemma insert_asc_perm {A : Type} (key : A -> nat) x l :
  Permutation (insert_asc key x l) (x :: l).
Proof.
  induction l as [|y l IH]; simpl; auto.
  destruct (key x <=? key y); auto.
  rewrite IH. apply perm_swap.
Qed.

Lemma sort_asc_perm {A : Type} (key : A -> nat) l :
  Permutation (sort_asc key l) l.
Proof.
  induction l as [|x l IH]; simpl; auto.
  rewrite insert_asc_perm. auto.
Qed.

Lemma insert_desc_perm {A : Type} (key : A -> nat) x l :
  Permutation (insert_desc key x l) (x :: l).
Proof.
  induction l as [|y l IH]; simpl; auto.
  destruct (key y <=? key x); auto.
  rewrite IH. apply perm_swap.
Qed.

Lemma sort_desc_perm {A : Type} (key : A -> nat) l :
  Permutation (sort_desc key l) l.
Proof.
  induction l as [|x l IH]; simpl; auto.
  rewrite insert_desc_perm. auto.
Qed.

(** ** The detection loop *)

Lemma spans_overlap_false a b :
  _spans_overlap a b = false <-> disjoint_spans a b.
Proof.
  unfold _spans_overlap, disjoint_spans.
  rewrite negb_false_iff, orb_true_iff, !Nat.leb_le. tauto.
Qed.

Lemma disjoint_matches_sym m1 m2 :
  disjoint_matches m1 m2 -> disjoint_matches m2 m1.
Proof. unfold disjoint_matches. tauto. Qed.

Lemma detect_fold text d :
  fold_left (detect_type text) (_compiled_patterns d) ([], [])
  = fold_left (hit_step text) (all_hits text d) ([], []).
Proof.
  unfold all_hits. generalize (([], []) : detect_state).
  induction (_compiled_patterns d) as [|[ty rules] cps IH]; intros st; simpl; auto.
  rewrite fold_left_app, IH. f_equal.
  unfold detect_type, type_hits; simpl. clear IH. revert st.
  induction rules as [|[p conf] rules IH]; intros st; simpl; auto.
  rewrite fold_left_app, IH. f_equal.
  unfold detect_rule, rule_hits; simpl. clear IH. revert st.
  induction (finditer p text) as [|sp sps IH]; intros st; simpl; auto.
Qed.

Lemma detect_unfold text d :
  detect d text
  = sort_asc start (fst (fold_left (hit_step text) (all_hits text d) ([], []))).
Proof.
  unfold detect. rewrite detect_fold.
  destruct (fold_left _ _ _); reflexivity.
Qed.

(** What the loop maintains: the spans seen are those of the matches kept,
    and the matches kept are pairwise disjoint. *)
Definition detect_inv (st : detect_state) : Prop :=
  (forall sp, In sp (snd st) <-> In sp (map span_of (fst st)))
  /\ pairwise disjoint_matches (fst st).

Lemma hit_step_inv text st h : detect_inv st -> detect_inv (hit_step text st h).
Proof.
  destruct st as [ms seen], h as [[ty conf] sp]. intros [Hseen Hpw].
  unfold hit_step, detect_hit; simpl in *.
  destruct (existsb _ seen) eqn:Hex; simpl; [split; auto|].
  split; simpl.
  - intros sp'. rewrite map_app, in_app_iff; simpl.
    rewrite Hseen. unfold span_of at 2; simpl.
    destruct sp; simpl. tauto.
  - apply pairwise_app_one; auto.
    rewrite List.Forall_forall. intros m Hm.
    assert (Hin : In (span_of m) seen) by (apply Hseen, in_map, Hm).
    destruct (_spans_overlap sp (span_of m)) eqn:Hov.
    + assert (existsb (fun seen0 => _spans_overlap sp seen0) seen = true).
      { apply existsb_exists. eauto. }
      congruence.
    + apply spans_overlap_false in Hov.
      unfold disjoint_spans, disjoint_matches, span_of in *; simpl in *. lia.
Qed.

Lemma fold_hits_inv text hs st :
  detect_inv st -> detect_inv (fold_left (hit_step text) hs st).
Proof.
  revert st. induction hs as [|h hs IH]; intros st Hst; simpl; auto.
  apply IH, hit_step_inv, Hst.
Qed.

Lemma detect_pairwise d text : pairwise disjoint_matches (detect d text).
Proof.
  rewrite detect_unfold.
  eapply pairwise_perm.
  - apply disjoint_matches_sym.
  - symmetry. apply sort_asc_perm.
  - apply fold_hits_inv. split; simpl; [tauto|constructor].
Qed.

(** C1. For every detector state and every text, no two entries of the
    list returned by [detect] overlap as half-open intervals
    [[start, end)]: of any two entries at different positions of the list,
    one ends at or before the start of the other. *)
Theorem detect_disjoint (d : RegexDetector) (text : string) :
  forall i j m1 m2,
    i <> j ->
    nth_error (detect d text) i = Some m1 ->
    nth_error (detect d text) j = Some m2 ->
    end_ m1 <= start m2 \/ end_ m2 <= start m1.
Proof.
  intros i j m1 m2 Hij H1 H2.
  exact (pairwise_nth disjoint_matches _ disjoint_matches_sym
           (detect_pairwise d text) i j m1 m2 Hij H1 H2).
Qed.

(** ** Strings *)

Lemma str_app_assoc (a b c : string) : (a ++ b) ++ c = a ++ (b ++ c).
Proof. induction a as [|x a IH]; simpl; [reflexivity|]. now rewrite IH. Qed.

Lemma str_app_nil_r (a : string) : a ++ "" = a.
Proof. induction a as [|x a IH]; simpl; [reflexivity|]. now rewrite IH. Qed.

Lemma str_length_app (a b : string) :
  String.length (a ++ b) = String.length a + String.length b.
Proof. induction a as [|x a IH]; simpl; [reflexivity|]. now rewrite IH. Qed.

Lemma str_take_drop n s : str_take n s ++ str_drop n s = s.
Proof.
  revert s. induction n as [|n IH]; intros [|c s]; simpl; try reflexivity.
  now rewrite IH.
Qed.

Lemma str_take_length n s : String.length (str_take n s) = Nat.min n (String.length s).
Proof.
  revert s. induction n as [|n IH]; intros [|c s]; simpl; try reflexivity.
  now rewrite IH.
Qed.

Lemma str_drop_length n s : String.length (str_drop n s) = String.length s - n.
Proof.
  revert s. induction n as [|n IH]; intros [|c s]; simpl; try reflexivity.
  now rewrite IH.
Qed.

Lemma str_take_all n s : String.length s <= n -> str_take n s = s.
Proof.
  revert s. induction n as [|n IH]; intros s H.
  - destruct s; simpl in *; [reflexivity|lia].
  - destruct s as [|c s]; simpl in *; [reflexivity|]. rewrite IH; [reflexivity|lia].
Qed.

Lemma str_take_app n a b :
  n <= String.length a -> str_take n (a ++ b) = str_take n a.
Proof.
  revert a. induction n as [|n IH]; intros a H.
  - reflexivity.
  - destruct a as [|c a]; simpl in *; [lia|]. rewrite IH; [reflexivity|lia].
Qed.

Lemma str_drop_app n a b :
  n <= String.length a -> str_drop n (a ++ b) = str_drop n a ++ b.
Proof.
  revert a. induction n as [|n IH]; intros a H.
  - reflexivity.
  - destruct a as [|c a]; simpl in *; [lia|]. apply IH. lia.
Qed.

Lemma str_drop_app_length a b : str_drop (String.length a) (a ++ b) = b.
Proof. induction a as [|c a IH]; simpl; [reflexivity|exact IH]. Qed.

Lemma str_take_app_length a b : str_take (String.length a) (a ++ b) = a.
Proof.
  induction a as [|c a IH]; simpl; [destruct b; reflexivity|now rewrite IH].
Qed.

Lemma str_drop_drop n m s : str_drop n (str_drop m s) = str_drop (m + n) s.
Proof.
  revert s. induction m as [|m IH]; intros s; simpl; [reflexivity|].
  destruct s as [|c s]; [destruct n; reflexivity|]. apply IH.
Qed.

Lemma str_take_take_drop n m s :
  str_take (n + m) s = str_take n s ++ str_take m (str_drop n s).
Proof.
  revert s. induction n as [|n IH]; intros s; simpl.
  - reflexivity.
  - destruct s as [|c s]; simpl; [destruct m; reflexivity|]. now rewrite IH.
Qed.

Lemma str_slice_split i m j s :
  i <= m -> m <= j -> str_slice i j s = str_slice i m s ++ str_slice m j s.
Proof.
  intros H1 H2. unfold str_slice.
  replace (j - i) with ((m - i) + (j - m)) by lia.
  rewrite str_take_take_drop, str_drop_drop.
  replace (i + (m - i)) with m by lia. reflexivity.
Qed.

Lemma str_slice_nil i s : str_slice i i s = "".
Proof. unfold str_slice. rewrite Nat.sub_diag. destruct (str_drop i s); reflexivity. Qed.

Lemma get_drop i s : String.get i s = String.get 0 (str_drop i s).
Proof.
  revert s. induction i as [|i IH]; intros [|c s]; simpl; try reflexivity.
  apply IH.
Qed.

Lemma get_some_lt i s c : String.get i s = Some c -> i < String.length s.
Proof.
  revert s. induction i as [|i IH]; intros [|x s] H; simpl in *; try discriminate.
  - lia.
  - apply IH in H. lia.
Qed.

Lemma get_lt_some i s : i < String.length s -> exists c, String.get i s = Some c.
Proof.
  revert s. induction i as [|i IH]; intros [|x s] H; simpl in *; try lia.
  - eauto.
  - apply IH. lia.
Qed.

Lemma str_slice_one i s c :
  String.get i s = Some c -> str_slice i (S i) s = String c "".
Proof.
  intros H. unfold str_slice. replace (S i - i) with 1 by lia.
  rewrite get_drop in H. destruct (str_drop i s) as [|x s']; simpl in *.
  - discriminate.
  - injection H as ->. destruct s'; reflexivity.
Qed.

Lemma str_slice_length i j s :
  i <= j -> j <= String.length s -> String.length (str_slice i j s) = j - i.
Proof.
  intros H1 H2. unfold str_slice.
  rewrite str_take_length, str_drop_length. lia.
Qed.

Lemma count_str_app p a b : count_str p (a ++ b) = count_str p a + count_str p b.
Proof. induction a as [|c a IH]; simpl; [reflexivity|]. rewrite IH. lia. Qed.

Lemma count_between_split p text i m j :
  i <= m -> m <= j ->
  count_between p text i j = count_between p text i m + count_between p text m j.
Proof.
  intros H1 H2. unfold count_between.
  rewrite (str_slice_split i m j) by assumption. apply count_str_app.
Qed.

Lemma count_between_nil p text i : count_between p text i i = 0.
Proof. unfold count_between. now rewrite str_slice_nil. Qed.

Lemma count_between_one p text i c :
  char_at text i = Some c ->
  count_between p text i (S i) = if p c then 1 else 0.
Proof.
  intros H. unfold count_between. rewrite (str_slice_one i text c H); simpl. lia.
Qed.

Lemma count_between_mono p text s a b e :
  s <= a -> a <= b -> b <= e ->
  count_between p text a b <= count_between p text s e.
Proof.
  intros H1 H2 H3.
  rewrite (count_between_split p text s a e) by lia.
  rewrite (count_between_split p text a b e) by lia. lia.
Qed.

(** ** The matcher returns matches *)

Section Soundness.
Variable ignorecase : bool.
Variable text : string.

#[local] Abbreviation matches := (matches ignorecase text).
#[local] Abbreviation re_match := (re_match ignorecase text).

Lemma char_step_sound p i k e :
  char_step text p i k = Some e ->
  exists j, char_matches text p i j /\ k j = Some e.
Proof.
  unfold char_step, char_matches. intros H.
  destruct (char_at text i) as [c|] eqn:Hc; [|discriminate].
  destruct (p c) eqn:Hp; [|discriminate].
  exists (S i). split; [exists c|]; auto.
Qed.

Lemma until_sound mb (R : nat -> nat -> Prop) lo hi k :
  (forall i k' e, mb i k' = Some e -> exists j, R i j /\ k' j = Some e) ->
  forall fuel count last i e,
    (count <= lo \/ match hi with None => True | Some h => count <= h end) ->
    until mb lo hi k fuel count last i = Some e ->
    exists n j, iter R n i j /\ k j = Some e /\ within (count + n) lo hi.
Proof.
  intros Hmb. induction fuel as [|fuel IH]; intros count last i e Hc H.
  - simpl in H. destruct (count <? lo) eqn:Hlo; [discriminate|].
    apply Nat.ltb_ge in Hlo.
    assert (k i = Some e) by (destruct (_ && _); exact H).
    exists 0, i. simpl. rewrite Nat.add_0_r. unfold within.
    split; [reflexivity|]. split; [assumption|]. split; [assumption|].
    destruct Hc; [left; lia|right; assumption].
  - simpl in H. destruct (count <? lo) eqn:Hlo.
    + apply Nat.ltb_lt in Hlo.
      apply Hmb in H. destruct H as (m & Hm & H).
      apply IH in H; [|left; lia].
      destruct H as (n & j & Hit & Hk & Hw).
      exists (S n), j. simpl. split; [exists m; auto|].
      split; [assumption|]. now replace (count + S n) with (S count + n) by lia.
    + apply Nat.ltb_ge in Hlo.
      assert (Hstop : k i = Some e ->
                      exists n j, iter R n i j /\ k j = Some e
                                  /\ within (count + n) lo hi).
      { intros Hk. exists 0, i. simpl. rewrite Nat.add_0_r. unfold within.
        split; [reflexivity|]. split; [assumption|]. split; [assumption|].
        destruct Hc; [left; lia|right; assumption]. }
      destruct (below count hi && negb (same_pos last i)) eqn:Hb; [|auto].
      apply andb_true_iff in Hb. destruct Hb as [Hb _].
      destruct (mb i _) as [e'|] eqn:Hbody; [|auto].
      injection H as ->.
      apply Hmb in Hbody. destruct Hbody as (m & Hm & H).
      apply IH in H.
      * destruct H as (n & j & Hit & Hk & Hw).
        exists (S n), j. simpl. split; [exists m; auto|].
        split; [assumption|].
        now replace (count + S n) with (S count + n) by lia.
      * right. unfold below in Hb. destruct hi as [h|]; [|exact I].
        apply Nat.ltb_lt in Hb. lia.
Qed.

Theorem re_match_sound r :
  forall i k e, re_match r i k = Some e ->
                exists j, matches r i j /\ k j = Some e.
Proof.
  induction r as [x| |neg kd|neg items|a| |r1 IH1 r2 IH2|r1 IH1 r2 IH2|lo hi body IH];
    intros i k e H; simpl in *.
  - apply char_step_sound, H.
  - apply char_step_sound, H.
  - apply char_step_sound, H.
  - apply char_step_sound, H.
  - destruct (at_matches text a i) eqn:Ha; [|discriminate]. eauto.
  - eauto.
  - apply IH1 in H. destruct H as (m & Hm & H).
    apply IH2 in H. destruct H as (j & Hj & H). eauto.
  - destruct (re_match r1 i k) as [e'|] eqn:H1.
    + injection H as ->. apply IH1 in H1. destruct H1 as (j & Hj & H1). eauto.
    + apply IH2 in H. destruct H as (j & Hj & H). eauto.
  - eapply until_sound in H; [|exact IH|left; lia].
    destruct H as (n & j & Hit & Hk & Hw). exists j. split; [|assumption].
    exists n. auto.
Qed.

Lemma char_at_lt i c : char_at text i = Some c -> i < String.length text.
Proof. apply get_some_lt. Qed.

Lemma iter_le (R : nat -> nat -> Prop) :
  (forall i j, R i j -> i <= j /\ (i <= String.length text -> j <= String.length text)) ->
  forall n i j, iter R n i j ->
                i <= j /\ (i <= String.length text -> j <= String.length text).
Proof.
  intros HR. induction n as [|n IH]; intros i j H; simpl in H.
  - subst. auto.
  - destruct H as (m & Hm & H). apply HR in Hm. apply IH in H. lia.
Qed.

(** A match lies within the text and runs forward. *)
Lemma matches_bounds r :
  forall i j, matches r i j ->
              i <= j /\ (i <= String.length text -> j <= String.length text).
Proof.
  assert (Hc : forall p i j, char_matches text p i j ->
             i <= j /\ (i <= String.length text -> j <= String.length text)).
  { intros p i j (c & Hc & _ & ->). apply char_at_lt in Hc. lia. }
  induction r as [x| |neg kd|neg items|a| |r1 IH1 r2 IH2|r1 IH1 r2 IH2|lo hi body IH];
    intros i j H; simpl in H; eauto.
  - destruct H as [_ ->]. auto.
  - subst. auto.
  - destruct H as (m & H1 & H2). apply IH1 in H1. apply IH2 in H2. lia.
  - destruct H as [H|H]; auto.
  - destruct H as (n & _ & H). eapply iter_le; eauto.
Qed.

Lemma must_pass_spec p q c : must_pass p q = true -> q c = true -> p c = true.
Proof.
  unfold must_pass. rewrite forallb_forall. intros H Hq.
  specialize (H c). rewrite Hq in H. apply H.
  unfold all_chars. rewrite <- (ascii_nat_embedding c).
  apply in_map, in_seq. pose proof (nat_ascii_bounded c). lia.
Qed.

Lemma can_both_spec p q c : q c = true -> p c = true -> can_both p q = true.
Proof.
  intros Hq Hp. unfold can_both. apply existsb_exists. exists c.
  split; [|now rewrite Hq, Hp].
  unfold all_chars. rewrite <- (ascii_nat_embedding c).
  apply in_map, in_seq. pose proof (nat_ascii_bounded c). lia.
Qed.

Lemma iter_count_min p (R : nat -> nat -> Prop) c :
  (forall i j, R i j -> i <= j /\ (i <= String.length text -> j <= String.length text)) ->
  (forall i j, R i j -> c <= count_between p text i j) ->
  forall n i j, iter R n i j -> n * c <= count_between p text i j.
Proof.
  intros Hb HR. induction n as [|n IH]; intros i j H; simpl in H.
  - subst. simpl. lia.
  - destruct H as (m & Hm & H).
    pose proof (iter_le R Hb n m j H). pose proof (Hb _ _ Hm).
    apply HR in Hm. apply IH in H.
    rewrite (count_between_split p text i m j) by lia. simpl. lia.
Qed.

Lemma iter_count_max p (R : nat -> nat -> Prop) c :
  (forall i j, R i j -> i <= j /\ (i <= String.length text -> j <= String.length text)) ->
  (forall i j, R i j -> count_between p text i j <= c) ->
  forall n i j, iter R n i j -> count_between p text i j <= n * c.
Proof.
  intros Hb HR. induction n as [|n IH]; intros i j H; simpl in H.
  - subst. rewrite count_between_nil. lia.
  - destruct H as (m & Hm & H).
    pose proof (iter_le R Hb n m j H). pose proof (Hb _ _ Hm).
    apply HR in Hm. apply IH in H.
    rewrite (count_between_split p text i m j) by lia. simpl. lia.
Qed.

Lemma char_matches_count p q i j :
  char_matches text q i j ->
  (must_pass p q = true -> count_between p text i j = 1)
  /\ (can_both p q = false -> count_between p text i j = 0)
  /\ count_between p text i j <= 1.
Proof.
  intros (c & Hc & Hq & ->). rewrite (count_between_one p text i c Hc).
  repeat split.
  - intros Hm. now rewrite (must_pass_spec p q c Hm Hq).
  - intros Hn. destruct (p c) eqn:Hp; [|reflexivity].
    now rewrite (can_both_spec p q c Hq Hp) in Hn.
  - destruct (p c); lia.
Qed.

(** Every match of [r] holds at least [mincount p r] characters that
    satisfy [p]. *)
Lemma matches_mincount p r :
  forall i j, matches r i j -> mincount ignorecase p r <= count_between p text i j.
Proof.
  induction r as [x| |neg kd|neg items|a| |r1 IH1 r2 IH2|r1 IH1 r2 IH2|lo hi body IH];
    intros i j H; simpl in *;
    try (destruct (must_pass p _) eqn:Hm; [|lia];
         apply (char_matches_count p) in H; destruct H as (H & _); rewrite H by assumption; lia).
  - lia.
  - lia.
  - destruct H as (m & H1 & H2).
    pose proof (matches_bounds _ _ _ H1). pose proof (matches_bounds _ _ _ H2).
    apply IH1 in H1. apply IH2 in H2.
    rewrite (count_between_split p text i m j) by lia. lia.
  - destruct H as [H|H]; [apply IH1 in H|apply IH2 in H]; lia.
  - destruct H as (n & [Hlo _] & H).
    pose proof (iter_count_min p _ (mincount ignorecase p body)
                  (matches_bounds body) IH n i j H) as Hn.
    nia.
Qed.

(** And at most [maxcount p r] of them. *)
Lemma matches_maxcount p r :
  forall i j c, matches r i j -> maxcount ignorecase p r = Some c ->
                count_between p text i j <= c.
Proof.
  induction r as [x| |neg kd|neg items|a| |r1 IH1 r2 IH2|r1 IH1 r2 IH2|lo hi body IH];
    intros i j c H Hc; simpl in *;
    try (apply (char_matches_count p) in H; destruct H as (_ & H0 & H1);
         destruct (can_both p _) eqn:Hb; injection Hc as <-;
         [exact H1|rewrite H0; auto]).
  - destruct H as [_ ->]. rewrite count_between_nil. lia.
  - subst. rewrite count_between_nil. lia.
  - destruct H as (m & H1 & H2).
    destruct (maxcount ignorecase p r1) as [a|]; [|discriminate].
    destruct (maxcount ignorecase p r2) as [b|]; [|discriminate].
    injection Hc as <-.
    pose proof (matches_bounds _ _ _ H1). pose proof (matches_bounds _ _ _ H2).
    specialize (IH1 _ _ _ H1 eq_refl). specialize (IH2 _ _ _ H2 eq_refl).
    rewrite (count_between_split p text i m j) by lia. lia.
  - destruct (maxcount ignorecase p r1) as [a|]; [|discriminate].
    destruct (maxcount ignorecase p r2) as [b|]; [|discriminate].
    injection Hc as <-.
    destruct H as [H|H];
      [specialize (IH1 _ _ _ H eq_refl)|specialize (IH2 _ _ _ H eq_refl)]; lia.
  - destruct H as (n & [_ Hhi] & H).
    destruct (maxcount ignorecase p body) as [m|]; [|discriminate].
    pose proof (iter_count_max p _ m (matches_bounds body)
                  (fun i j H => IH i j m H eq_refl) n i j H) as Hn.
    destruct m as [|m].
    + injection Hc as <-. lia.
    + destruct hi as [h|]; [|discriminate]. injection Hc as <-.
      assert (n <= Nat.max lo h) by lia. nia.
Qed.
End Soundness.

(** ** [finditer] returns matches *)

Section Scanner.
Variable ignorecase : bool.
Variable text : string.

#[local] Abbreviation matches := (matches ignorecase text).

Lemma match_at_sound r i ma e :
  match_at ignorecase text r i ma = Some e ->
  matches r i e /\ (ma = true -> e <> i).
Proof.
  unfold match_at. intros H. apply re_match_sound in H.
  destruct H as (j & Hj & H).
  destruct (ma && (j =? i)) eqn:Hma; [discriminate|].
  injection H as <-. split; [assumption|].
  intros ->. simpl in Hma. apply Nat.eqb_neq in Hma. assumption.
Qed.

Lemma search_from_sound r n :
  forall s ma s' e,
    search_from ignorecase text r n s ma = Some (s', e) ->
    s <= s' /\ s' <= s + n /\ matches r s' e
    /\ (s' = s -> ma = true -> e <> s').
Proof.
  induction n as [|n IH]; intros s ma s' e H; simpl in H.
  - destruct (match_at _ _ _ _ _) as [e'|] eqn:Hm; [|discriminate].
    injection H as <- <-. apply match_at_sound in Hm. intuition lia.
  - destruct (match_at _ _ _ _ _) as [e'|] eqn:Hm.
    + injection H as <- <-. apply match_at_sound in Hm. intuition lia.
    + apply IH in H. intuition lia.
Qed.

Lemma search_sound r pos ma s e :
  search ignorecase text r pos ma = Some (s, e) ->
  pos <= s /\ s <= String.length text /\ matches r s e
  /\ (s = pos -> ma = true -> e <> s).
Proof.
  unfold search. destruct (String.length text <? pos) eqn:Hp; [discriminate|].
  apply Nat.ltb_ge in Hp. intros H. apply search_from_sound in H.
  intuition lia.
Qed.

Lemma scan_sound r fuel :
  forall pos ma s e,
    In (s, e) (scan ignorecase text r fuel pos ma) ->
    pos <= s /\ s <= String.length text /\ matches r s e.
Proof.
  induction fuel as [|fuel IH]; intros pos ma s e H; simpl in H; [contradiction|].
  destruct (search _ _ _ _ _) as [[s0 e0]|] eqn:Hs; [|contradiction].
  apply search_sound in Hs. destruct Hs as (H1 & H2 & H3 & _).
  destruct H as [H|H].
  - injection H as <- <-. auto.
  - apply IH in H. pose proof (matches_bounds _ _ _ _ _ H3). intuition lia.
Qed.
End Scanner.

Lemma finditer_sound p text s e :
  In (s, e) (finditer p text) ->
  s <= e /\ e <= String.length text
  /\ matches (pat_ignorecase p) text (pat_regex p) s e.
Proof.
  unfold finditer. intros H. apply scan_sound in H.
  destruct H as (_ & Hs & Hm).
  pose proof (matches_bounds _ _ _ _ _ Hm). intuition lia.
Qed.

Lemma count_str_true s : count_str (fun _ => true) s = String.length s.
Proof. induction s as [|c s IH]; simpl; [reflexivity|]. now rewrite IH. Qed.

Lemma must_pass_true q : must_pass (fun _ => true) q = true.
Proof.
  unfold must_pass. apply forallb_forall. intros c _. now destruct (q c).
Qed.

Lemma mincount_true ic r : mincount ic (fun _ => true) r = minlen r.
Proof.
  unfold minlen.
  induction r as [x| |neg kd|neg items|a| |r1 IH1 r2 IH2|r1 IH1 r2 IH2|lo hi body IH];
    simpl; rewrite ?must_pass_true; auto.
Qed.

(** A match is at least [minlen] characters long. *)
Lemma matches_minlen ic text r i j :
  matches ic text r i j -> i + minlen r <= j.
Proof.
  intros H. pose proof (matches_bounds _ _ _ _ _ H) as [Hij _].
  apply (matches_mincount ic text (fun _ => true)) in H.
  rewrite mincount_true in H. unfold count_between in H.
  rewrite count_str_true in H. unfold str_slice in H.
  rewrite str_take_length in H. lia.
Qed.

(** ** Where the entries of a detection result come from *)

Lemma in_all_hits text d t conf sp :
  In (t, conf, sp) (all_hits text d) <->
  exists rules p, In (t, rules) (_compiled_patterns d) /\ In (p, conf) rules
                  /\ In sp (finditer p text).
Proof.
  unfold all_hits, type_hits, rule_hits. rewrite in_flat_map. split.
  - intros ([t' rules] & Hin & H). rewrite in_flat_map in H.
    destruct H as ([p conf'] & Hp & H). rewrite in_map_iff in H.
    destruct H as (sp' & Heq & Hsp). simpl in *. injection Heq as <- <- <-.
    eauto.
  - intros (rules & p & Hin & Hp & Hsp). exists (t, rules). split; [assumption|].
    rewrite in_flat_map. exists (p, conf). split; [assumption|].
    rewrite in_map_iff. exists sp. auto.
Qed.

Lemma hit_step_from text st h m :
  In m (fst (hit_step text st h)) -> In m (fst st) \/ m = match_of_hit text h.
Proof.
  destruct st as [ms seen], h as [[t conf] sp].
  unfold hit_step, detect_hit; simpl.
  destruct (negb _); simpl; [|auto].
  rewrite in_app_iff; simpl. unfold match_of_hit; simpl. intuition.
Qed.

Lemma fold_hits_from text hs :
  forall st m, In m (fst (fold_left (hit_step text) hs st)) ->
               In m (fst st) \/ exists h, In h hs /\ m = match_of_hit text h.
Proof.
  induction hs as [|h hs IH]; intros st m H; simpl in *; [auto|].
  apply IH in H. destruct H as [H|(h' & Hh & ->)].
  - apply hit_step_from in H. destruct H as [H| ->]; eauto.
  - eauto.
Qed.

(** Every entry of the result is the match of a raw hit. *)
Lemma detect_from_hit d text m :
  In m (detect d text) -> exists h, In h (all_hits text d) /\ m = match_of_hit text h.
Proof.
  rewrite detect_unfold. intros H.
  apply (Permutation_in _ (sort_asc_perm start _)) in H.
  apply fold_hits_from in H. destruct H as [[]|H]. exact H.
Qed.

(** ** The detectors the interface builds *)

Lemma in_dict_set {V : Type} k (v : V) d t x :
  In (t, x) (dict_set k v d) -> (t = k /\ x = v) \/ In (t, x) d.
Proof.
  induction d as [|[k' v'] d IH]; simpl.
  - intros [H|[]]. injection H as <- <-. auto.
  - destruct (decide (k = k')); simpl; intros [H|H].
    + injection H as <- <-. auto.
    + auto.
    + auto.
    + apply IH in H. tauto.
Qed.

Lemma dict_get_in {V : Type} k (d : list (PIIType * V)) v :
  dict_get k d = Some v -> In (k, v) d.
Proof.
  induction d as [|[k' v'] d IH]; simpl; [discriminate|].
  destruct (decide (k = k')) as [->|]; intros H.
  - injection H as ->. auto.
  - auto.
Qed.

Lemma compile_patterns_builtin types :
  forall acc res,
    _compile_patterns types acc = Ok res ->
    (forall t rules, In (t, rules) acc -> t = CUSTOM \/ rules = builtin_rules t) ->
    forall t rules, In (t, rules) res -> t = CUSTOM \/ rules = builtin_rules t.
Proof.
  induction types as [|ty types IH]; intros acc res H Hacc.
  - injection H as <-. exact Hacc.
  - change (_compile_patterns (ty :: types) acc)
      with (match dict_get ty PATTERNS with
            | Some rules =>
                ps ← compile_rules rules;
                _compile_patterns types (dict_set ty ps acc)
            | None => _compile_patterns types acc
            end) in H.
    destruct (dict_get ty PATTERNS) as [rs|] eqn:Hget; [|eauto].
    destruct (compile_rules rs) as [ps|e] eqn:Hc;
      unfold mbind, outcome_bind in H; [|discriminate].
    eapply IH; [exact H|].
    intros t rules Hin. apply in_dict_set in Hin. destruct Hin as [[-> ->]|Hin].
    + right. unfold builtin_rules. now rewrite Hget, Hc.
    + auto.
Qed.

Lemma init_builtin enabled d :
  RegexDetector_init enabled = Ok d -> builtin_entries d.
Proof.
  unfold RegexDetector_init. intros H.
  destruct (_compile_patterns (enabled_or_all enabled) []) as [res|e] eqn:Hc;
    simpl in H; [|discriminate].
  injection H as <-. unfold builtin_entries; simpl.
  eapply compile_patterns_builtin; [exact Hc|]. intros t rules [].
Qed.

Lemma add_custom_builtin d name pattern conf :
  builtin_entries d ->
  builtin_entries (fst (add_custom_pattern d name pattern conf)).
Proof.
  unfold builtin_entries, add_custom_pattern, add_custom_pattern_with. intros Hd t rules.
  assert (Hc : forall t rules,
             In (t, rules)
               match dict_get CUSTOM (_compiled_patterns d) with
               | Some _ => _compiled_patterns d
               | None => dict_set CUSTOM [] (_compiled_patterns d)
               end -> t = CUSTOM \/ rules = builtin_rules t).
  { intros t' rules'. destruct (dict_get CUSTOM _); [apply Hd|].
    intros H. apply in_dict_set in H. destruct H as [[-> _]|H]; auto. }
  destruct (re_compile pattern false); simpl.
  - intros H. apply in_dict_set in H. destruct H as [[-> _]|H]; auto.
  - apply Hc.
Qed.

Lemma reachable_builtin d : reachable d -> builtin_entries d.
Proof.
  induction 1 as [enabled d H|d name pattern conf _ _ IH].
  - eapply init_builtin; eauto.
  - apply add_custom_builtin, IH.
Qed.

Lemma init_default : RegexDetector_init None = Ok default_detector.
Proof. vm_compute. reflexivity. Qed.

Lemma builtin_rules_nonempty t : rules_nonempty (builtin_rules t) = true.
Proof. destruct t; vm_compute; reflexivity. Qed.

(** The matches of the built-in rules are not empty. *)
Lemma detect_positive_builtin d text m :
  reachable d -> In m (detect d text) -> pii_type m <> CUSTOM ->
  start m < end_ m.
Proof.
  intros Hd Hm. apply detect_from_hit in Hm.
  destruct Hm as ([[t conf] [s e]] & Hh & ->). simpl.
  apply in_all_hits in Hh. destruct Hh as (rules & p & Hin & Hp & Hsp).
  apply finditer_sound in Hsp. destruct Hsp as (_ & _ & Hmatch).
  intros Ht. apply reachable_builtin in Hd.
  destruct (Hd _ _ Hin) as [->| ->]; [contradiction|].
  pose proof (builtin_rules_nonempty t) as Hne.
  unfold rules_nonempty in Hne. rewrite forallb_forall in Hne.
  specialize (Hne _ Hp). cbv beta in Hne. apply Nat.leb_le in Hne.
  apply matches_minlen in Hmatch. simpl in Hne. lia.
Qed.

(** C2, as amended. For every detector the interface builds (the
    constructor with any enabled types, then any [add_custom_pattern]
    calls whose patterns are written in the interpreted syntax) and every
    text, every entry of the list returned by [detect] satisfies
    [0 <= start <= end <= len(text)] and [value == text[start:end]], and
    [start < end] holds for every entry whose category is not [CUSTOM]. *)
Theorem detect_match_invariant (d : RegexDetector) (text : string) (m : PIIMatch) :
  reachable d ->
  In m (detect d text) ->
  0 <= start m /\ start m <= end_ m /\ end_ m <= String.length text
  /\ value m = str_slice (start m) (end_ m) text
  /\ (pii_type m <> CUSTOM -> start m < end_ m).
Proof.
  intros Hd Hm.
  pose proof (detect_positive_builtin d text m Hd Hm) as Hpos.
  apply detect_from_hit in Hm.
  destruct Hm as ([[t conf] [s e]] & Hh & ->). simpl in *.
  apply in_all_hits in Hh. destruct Hh as (rules & p & Hin & Hp & Hsp).
  apply finditer_sound in Hsp. destruct Hsp as (Hse & He & _).
  repeat split; try lia. exact Hpos.
Qed.

(** The invariant at the e-mail address of a short text. *)
Lemma detect_match_invariant_witness :
  0 <= 3 /\ 3 <= 9 /\ 9 <= String.length "to a@b.cd!"
  /\ "a@b.cd" = str_slice 3 9 "to a@b.cd!" /\ (EMAIL <> CUSTOM -> 3 < 9).
Proof.
  apply (detect_match_invariant default_detector "to a@b.cd!"
           (mkMatch EMAIL "a@b.cd" 3 9 (99 # 100))).
  - apply (reachable_init None). vm_compute. reflexivity.
  - vm_compute. left. reflexivity.
Defined.

(** C2, as stated, fails: after [add_custom_pattern("boundary", r"\b")]
    the text ["ab cd"] yields entries of zero length, so [start < end]
    does not hold for every entry. *)
Lemma detect_zero_length_match :
  reachable boundary_detector
  /\ ~ (forall m, In m (detect boundary_detector "ab cd") ->
                  0 <= start m /\ start m < end_ m
                  /\ end_ m <= String.length "ab cd"
                  /\ value m = str_slice (start m) (end_ m) "ab cd").
Proof.
  split.
  - apply reachable_add; [vm_compute; reflexivity|].
    apply (reachable_init None). vm_compute. reflexivity.
  - intros H.
    assert (Hin : In (mkMatch CUSTOM "" 0 0 (4 # 5))
                    (detect boundary_detector "ab cd"))
      by (vm_compute; left; reflexivity).
    apply H in Hin. cbn [start end_] in Hin. lia.
Qed.

(** ** The bounds of the matcher's loops are never what stops them *)

Section Fuel.
Variable ignorecase : bool.
Variable text : string.

#[local] Abbreviation len := (String.length text).

Lemma until_ext mb lo hi :
  local_matcher text mb ->
  forall fuel count last i k k',
    (forall j, i <= j -> j <= Nat.max i len -> k j = k' j) ->
    until mb lo hi k fuel count last i = until mb lo hi k' fuel count last i.
Proof.
  intros Hmb. induction fuel as [|fuel IH]; intros count last i k k' Hk.
  - simpl. rewrite (Hk i) by lia. reflexivity.
  - simpl. rewrite (Hk i) by lia.
    assert (Hcont : forall last',
               mb i (fun j => until mb lo hi k fuel (S count) last' j)
               = mb i (fun j => until mb lo hi k' fuel (S count) last' j)).
    { intros last'. apply Hmb. intros j H1 H2. apply IH.
      intros j' H1' H2'. apply Hk; lia. }
    now rewrite !Hcont.
Qed.

Lemma re_match_local r : local_matcher text (re_match ignorecase text r).
Proof.
  induction r as [x| |neg kd|neg items|a| |r1 IH1 r2 IH2|r1 IH1 r2 IH2|lo hi body IH];
    intros i k k' Hk; cbn [re_match];
    try (unfold char_step; destruct (char_at text i) as [c|] eqn:Hc; [|reflexivity];
         apply get_some_lt in Hc; rewrite (Hk (S i)) by lia; reflexivity).
  - rewrite (Hk i) by lia. reflexivity.
  - apply Hk; lia.
  - apply IH1. intros j H1 H2. apply IH2. intros j' H1' H2'. apply Hk; lia.
  - rewrite (IH1 i k k' Hk), (IH2 i k k' Hk). reflexivity.
  - apply until_ext; assumption.
Qed.

(** Once [fuel] covers the iterations still due and the text still
    ahead, more fuel changes nothing. *)
Lemma until_fuel_stable mb lo hi k :
  local_matcher text mb ->
  forall fuel count last i,
    (lo - count) + (len - i) + 1 <= fuel ->
    until mb lo hi k fuel count last i = until mb lo hi k (S fuel) count last i.
Proof.
  intros Hmb. induction fuel as [|fuel IH]; intros count last i Hf; [lia|].
  change (until mb lo hi k (S (S fuel)) count last i)
    with (if count <? lo
          then mb i (fun j => until mb lo hi k (S fuel) (S count) last j)
          else if below count hi && negb (same_pos last i)
               then match mb i (fun j => until mb lo hi k (S fuel) (S count) (Some i) j) with
                    | Some e => Some e
                    | None => k i
                    end
               else k i).
  change (until mb lo hi k (S fuel) count last i)
    with (if count <? lo
          then mb i (fun j => until mb lo hi k fuel (S count) last j)
          else if below count hi && negb (same_pos last i)
               then match mb i (fun j => until mb lo hi k fuel (S count) (Some i) j) with
                    | Some e => Some e
                    | None => k i
                    end
               else k i).
  destruct (count <? lo) eqn:Hlo.
  - apply Nat.ltb_lt in Hlo. apply Hmb. intros j H1 H2. apply IH. lia.
  - apply Nat.ltb_ge in Hlo.
    destruct (below count hi && negb (same_pos last i)); [|reflexivity].
    assert (Hcont : mb i (fun j => until mb lo hi k fuel (S count) (Some i) j)
                    = mb i (fun j => until mb lo hi k (S fuel) (S count) (Some i) j)).
    { apply Hmb. intros j H1 H2.
      destruct (Nat.eq_dec j i) as [->|Hne].
      - assert (Hc : (S count <? lo) = false) by (apply Nat.ltb_ge; lia).
        destruct fuel; simpl; rewrite Hc, Nat.eqb_refl, andb_false_r; reflexivity.
      - apply IH. lia. }
    now rewrite Hcont.
Qed.

Lemma until_enough_fuel lo hi body k i fuel :
  lo + S len <= fuel ->
  until (re_match ignorecase text body) lo hi k fuel 0 None i
  = re_match ignorecase text (Repeat lo hi body) i k.
Proof.
  intros Hf. cbn [re_match].
  induction Hf as [|fuel Hf IH]; [reflexivity|].
  rewrite <- IH. symmetry. apply until_fuel_stable; [apply re_match_local|lia].
Qed.

Lemma scan_fuel_stable r :
  forall fuel pos (ma : bool),
    2 * (len - pos) + (if ma then 0 else 1) < fuel ->
    scan ignorecase text r fuel pos ma = scan ignorecase text r (S fuel) pos ma.
Proof.
  induction fuel as [|fuel IH]; intros pos ma Hf; [lia|].
  change (scan ignorecase text r (S (S fuel)) pos ma)
    with (match search ignorecase text r pos ma with
          | None => @nil (nat * nat)
          | Some (s, e) => (s, e) :: scan ignorecase text r (S fuel) e (e =? s)
          end).
  change (scan ignorecase text r (S fuel) pos ma)
    with (match search ignorecase text r pos ma with
          | None => @nil (nat * nat)
          | Some (s, e) => (s, e) :: scan ignorecase text r fuel e (e =? s)
          end).
  destruct (search ignorecase text r pos ma) as [[s e]|] eqn:Hs; [|reflexivity].
  apply search_sound in Hs. destruct Hs as (H1 & H2 & Hm & Hadv).
  pose proof (matches_bounds _ _ _ _ _ Hm) as [H3 H4].
  f_equal. apply IH.
  destruct (e =? s) eqn:He.
  - apply Nat.eqb_eq in He. subst e.
    destruct (Nat.eq_dec s pos) as [->|Hne]; [|lia].
    destruct ma; [|lia]. exfalso. apply Hadv; reflexivity.
  - apply Nat.eqb_neq in He. destruct ma; lia.
Qed.

Lemma scan_enough_fuel r fuel :
  2 * len + 2 <= fuel ->
  scan ignorecase text r fuel 0 false
  = scan ignorecase text r (2 * len + 2) 0 false.
Proof.
  intros Hf. induction Hf as [|fuel Hf IH]; [reflexivity|].
  rewrite <- IH. symmetry. apply scan_fuel_stable. lia.
Qed.
End Fuel.

(** ** Construction and registration *)

Lemma compile_builtin t rules :
  dict_get t PATTERNS = Some rules -> compile_rules rules = Ok (builtin_rules t).
Proof.
  destruct t; intros H; vm_compute in H; try discriminate;
    injection H as <-; vm_compute; reflexivity.
Qed.

Lemma compile_patterns_total types :
  forall acc, exists res, _compile_patterns types acc = Ok res.
Proof.
  induction types as [|ty types IH]; intros acc.
  - exists acc. reflexivity.
  - change (_compile_patterns (ty :: types) acc)
      with (match dict_get ty PATTERNS with
            | Some rules =>
                ps ← compile_rules rules;
                _compile_patterns types (dict_set ty ps acc)
            | None => _compile_patterns types acc
            end).
    destruct (dict_get ty PATTERNS) as [rs|] eqn:Hget; [|apply IH].
    rewrite (compile_builtin ty rs Hget). apply IH.
Qed.

(** The constructor never fails: every built-in pattern compiles. *)
Lemma init_total enabled : exists d, RegexDetector_init enabled = Ok d.
Proof.
  unfold RegexDetector_init.
  destruct (compile_patterns_total (enabled_or_all enabled) []) as [res ->].
  eexists. reflexivity.
Qed.

Lemma dict_set_absent {V : Type} k (v : V) d :
  dict_get k d = None -> dict_set k v d = (d ++ [(k, v)])%list.
Proof.
  induction d as [|[k' v'] d IH]; simpl; [reflexivity|].
  destruct (decide (k = k')); [discriminate|]. intros H. now rewrite IH.
Qed.

(** A registration that fails leaves the detection result as it was. *)
Lemma add_custom_failed_detect compile d name pattern conf e text :
  compile pattern = Raise e ->
  detect (fst (add_custom_pattern_with compile d name pattern conf)) text
  = detect d text.
Proof.
  intros H. unfold add_custom_pattern_with. rewrite H; simpl.
  rewrite !detect_unfold. unfold all_hits; simpl.
  destruct (dict_get CUSTOM (_compiled_patterns d)) eqn:Hget; [reflexivity|].
  rewrite (dict_set_absent _ _ _ Hget), flat_map_app; simpl.
  now rewrite app_nil_r.
Qed.

Lemma dict_get_set_other {V : Type} k t (v : V) d :
  t <> k -> dict_get t (dict_set k v d) = dict_get t d.
Proof.
  intros Hne. induction d as [|[k' v'] d IH]; simpl.
  - destruct (decide (t = k)); [contradiction|reflexivity].
  - destruct (decide (k = k')) as [<-|Hk]; simpl.
    + destruct (decide (t = k)); [contradiction|reflexivity].
    + destruct (decide (t = k')); [reflexivity|exact IH].
Qed.

Lemma dict_get_set_same {V : Type} k (v : V) d :
  dict_get k (dict_set k v d) = Some v.
Proof.
  induction d as [|[k' v'] d IH]; simpl.
  - destruct (decide (k = k)); [reflexivity|contradiction].
  - destruct (decide (k = k')) as [<-|Hk]; simpl.
    + destruct (decide (k = k)); [reflexivity|contradiction].
    + destruct (decide (k = k')); [contradiction|exact IH].
Qed.

(** A registration that fails leaves every rule as it was: at most the
    empty [custom] entry is new. *)
Lemma add_custom_failed_rules compile d name pattern conf e t :
  compile pattern = Raise e ->
  default [] (dict_get t
                (_compiled_patterns
                   (fst (add_custom_pattern_with compile d name pattern conf))))
  = default [] (dict_get t (_compiled_patterns d)).
Proof.
  intros H. unfold add_custom_pattern_with. rewrite H; simpl.
  destruct (dict_get CUSTOM (_compiled_patterns d)) eqn:Hget; [reflexivity|].
  destruct (decide (t = CUSTOM)) as [->|Hne].
  - rewrite dict_get_set_same, Hget. reflexivity.
  - rewrite dict_get_set_other by assumption. reflexivity.
Qed.

Lemma compile_rules_from rs :
  forall ps, compile_rules rs = Ok ps ->
    forall rule, In rule ps ->
      exists pattern,
        In (pattern, snd rule) rs /\ re_compile pattern true = Ok (fst rule).
Proof.
  induction rs as [|[pattern conf] rs IH]; intros ps H rule Hin.
  - injection H as <-. destruct Hin.
  - cbn [compile_rules] in H.
    destruct (re_compile pattern true) as [p|e] eqn:Hp;
      cbn [mbind outcome_bind] in H; [|discriminate].
    destruct (compile_rules rs) as [ps'|e] eqn:Hps;
      cbn [mbind outcome_bind] in H; [|discriminate].
    injection H as <-. destruct Hin as [<-|Hin].
    + exists pattern. split; [left; reflexivity|exact Hp].
    + destruct (IH ps' eq_refl rule Hin) as (pat & H1 & H2).
      exists pat. split; [right; exact H1|exact H2].
Qed.

Lemma compile_patterns_origin types :
  forall acc res,
    _compile_patterns types acc = Ok res ->
    (forall t rules rule, In (t, rules) acc -> In rule rules -> rule_origin t rule) ->
    forall t rules rule, In (t, rules) res -> In rule rules -> rule_origin t rule.
Proof.
  induction types as [|ty types IH]; intros acc res H Hacc.
  - injection H as <-. exact Hacc.
  - change (_compile_patterns (ty :: types) acc)
      with (match dict_get ty PATTERNS with
            | Some rules =>
                ps ← compile_rules rules;
                _compile_patterns types (dict_set ty ps acc)
            | None => _compile_patterns types acc
            end) in H.
    destruct (dict_get ty PATTERNS) as [rs|] eqn:Hget; [|eauto].
    destruct (compile_rules rs) as [ps|e] eqn:Hc;
      unfold mbind, outcome_bind in H; [|discriminate].
    eapply IH; [exact H|].
    intros t rules rule Hin Hrule. apply in_dict_set in Hin.
    destruct Hin as [[-> ->]|Hin]; [|eauto].
    unfold rule_origin.
    destruct (decide (ty = CUSTOM)) as [->|_];
      [vm_compute in Hget; discriminate|].
    destruct (compile_rules_from rs ps Hc rule Hrule) as (pat & H1 & H2).
    exists pat, rs. auto.
Qed.

Lemma init_origin enabled d :
  RegexDetector_init enabled = Ok d -> compiled_at_registration d.
Proof.
  unfold RegexDetector_init. intros H.
  destruct (_compile_patterns (enabled_or_all enabled) []) as [res|e] eqn:Hc;
    simpl in H; [|discriminate].
  injection H as <-. unfold compiled_at_registration; simpl.
  eapply compile_patterns_origin; [exact Hc|]. intros t rules rule [].
Qed.

Lemma add_custom_origin d name pattern conf :
  compiled_at_registration d ->
  compiled_at_registration (fst (add_custom_pattern d name pattern conf)).
Proof.
  unfold compiled_at_registration, add_custom_pattern, add_custom_pattern_with. intros Hd.
  set (compiled := match dict_get CUSTOM (_compiled_patterns d) with
                   | Some _ => _compiled_patterns d
                   | None => dict_set CUSTOM [] (_compiled_patterns d)
                   end).
  assert (Hc : forall t rules rule,
             In (t, rules) compiled -> In rule rules -> rule_origin t rule).
  { intros t rules rule. unfold compiled.
    destruct (dict_get CUSTOM _); [apply Hd|].
    intros H. apply in_dict_set in H. destruct H as [[-> ->]|H]; [intros []|].
    apply Hd; assumption. }
  destruct (re_compile pattern false) as [p|e] eqn:Hp; simpl; [|exact Hc].
  intros t rules rule H Hrule. apply in_dict_set in H.
  destruct H as [[-> ->]|H]; [|eauto].
  apply in_app_or in Hrule. destruct Hrule as [Hrule|[<-|[]]].
  - destruct (dict_get CUSTOM compiled) as [rs|] eqn:Hget; [|destruct Hrule].
    apply dict_get_in in Hget. simpl in Hrule. eauto.
  - unfold rule_origin. destruct (decide (CUSTOM = CUSTOM)); [|contradiction].
    exists pattern. exact Hp.
Qed.

Lemma reachable_origin d : reachable d -> compiled_at_registration d.
Proof.
  induction 1 as [enabled d H|d name pattern conf _ _ IH].
  - eapply init_origin; eauto.
  - apply add_custom_origin, IH.
Qed.

(** C8. Compilation happens at registration, and nowhere else.
    Whatever [re.compile] does with a pattern, syntax that [re_parse] does
    not interpret included: [add_custom_pattern] raises exactly when
    [re.compile] raises on the pattern, with the same exception, and then
    no rule is added or changed and [detect] returns what it returned
    before, on every text.  With [re.compile] as embedded this is so for
    the patterns [*a], [(], [[z-a]] and [a{2,1}], which it rejects with
    the messages of [re].  The constructor compiles the built-in patterns
    and succeeds for every choice of enabled types.  Every rule of a
    detector built through the interface is the result of a [re.compile]
    call that returned: a pattern that does not compile is never held.
    [detect] is a function of the detector and the text that compiles
    nothing and has no failing step; the scan of a text and the
    repetitions of the matcher end by themselves, their iteration bounds
    are never what stops them. *)
Theorem pattern_errors_at_registration :
  (forall (compile : string -> outcome Pattern) d name pattern conf e,
      snd (add_custom_pattern_with compile d name pattern conf) = Raise e
      <-> compile pattern = Raise e)
  /\ (forall (compile : string -> outcome Pattern) d name pattern conf e,
         compile pattern = Raise e ->
         (forall t,
             default [] (dict_get t
                           (_compiled_patterns
                              (fst (add_custom_pattern_with compile d name
                                      pattern conf))))
             = default [] (dict_get t (_compiled_patterns d)))
         /\ (forall text,
                detect (fst (add_custom_pattern_with compile d name pattern
                               conf)) text
                = detect d text))
  /\ (forall d name pattern conf,
         add_custom_pattern d name pattern conf
         = add_custom_pattern_with (fun pattern => re_compile pattern false)
             d name pattern conf)
  /\ (re_compile "*a" false = Raise (re_error "nothing to repeat")
      /\ re_compile "(" false
         = Raise (re_error "missing ), unterminated subpattern")
      /\ re_compile "[z-a]" false = Raise (re_error "bad character range z-a")
      /\ re_compile "a{2,1}" false
         = Raise (re_error "min repeat greater than max repeat"))
  /\ (forall enabled, exists d, RegexDetector_init enabled = Ok d)
  /\ (forall d, reachable d -> compiled_at_registration d)
  /\ (forall p text fuel,
         2 * String.length text + 2 <= fuel ->
         scan (pat_ignorecase p) text (pat_regex p) fuel 0 false
         = finditer p text)
  /\ (forall ignorecase text lo hi body k i fuel,
         lo + S (String.length text) <= fuel ->
         until (re_match ignorecase text body) lo hi k fuel 0 None i
         = re_match ignorecase text (Repeat lo hi body) i k).
Proof.
  split; [|split; [|split; [|split; [|split; [|split; [|split]]]]]].
  - intros compile d name pattern conf e. unfold add_custom_pattern_with.
    destruct (compile pattern); simpl; split; congruence.
  - intros compile d name pattern conf e H. split.
    + intros t. eapply add_custom_failed_rules; eauto.
    + intros text. eapply add_custom_failed_detect; eauto.
  - reflexivity.
  - repeat split; vm_compute; reflexivity.
  - apply init_total.
  - apply reachable_origin.
  - intros p text fuel Hf. unfold finditer. now apply scan_enough_fuel.
  - intros ignorecase text lo hi body k i fuel Hf. now apply until_enough_fuel.
Qed.

(** C8 at the pattern [*a], which does not compile: the registration
    raises, and detection goes on as before. *)
Lemma pattern_errors_at_registration_witness :
  snd (add_custom_pattern default_detector "bad" "*a" (4 # 5))
  = Raise (re_error "nothing to repeat")
  /\ (forall t,
         default [] (dict_get t
                       (_compiled_patterns
                          (fst (add_custom_pattern default_detector "bad" "*a"
                                  (4 # 5)))))
         = default [] (dict_get t (_compiled_patterns default_detector)))
  /\ (forall text,
         detect (fst (add_custom_pattern default_detector "bad" "*a" (4 # 5)))
           text
         = detect default_detector text).
Proof.
  split.
  - apply (proj2 (proj1 pattern_errors_at_registration
                    (fun pattern => re_compile pattern false)
                    default_detector "bad" "*a" (4 # 5)
                    (re_error "nothing to repeat"))).
    vm_compute. reflexivity.
  - apply (proj1 (proj2 pattern_errors_at_registration)
             (fun pattern => re_compile pattern false)
             default_detector "bad" "*a" (4 # 5)
             (re_error "nothing to repeat")).
    vm_compute. reflexivity.
Defined.

(** C10. A detector constructed with the empty list of enabled types is
    the detector constructed with [None], and that is the detector of
    every built-in category: both constructions return the same detector,
    whose enabled types and whose compiled entries are the nine keys of
    [PATTERNS] in their order, each entry holding the compiled rules of
    its category; so [detect] returns the same list for every text, and
    that list is not always empty. *)
Theorem empty_enabled_types_means_all :
  exists d0 d1,
    RegexDetector_init (Some []) = Ok d0
    /\ RegexDetector_init None = Ok d1
    /\ d0 = d1
    /\ (forall text, detect d0 text = detect d1 text)
    /\ enabled_types d1
       = [EMAIL; PHONE; SSN; CREDIT_CARD; IP_ADDRESS; DATE; PASSPORT;
          DRIVER_LICENSE; BANK_ACCOUNT]
    /\ map fst (_compiled_patterns d1) = enabled_types d1
    /\ map fst PATTERNS = enabled_types d1
    /\ (forall t rules,
           dict_get t PATTERNS = Some rules ->
           exists ps, compile_rules rules = Ok ps
                      /\ length ps = length rules
                      /\ dict_get t (_compiled_patterns d1) = Some ps)
    /\ detect d0 "a@b.cd" <> [].
Proof.
  exists default_detector, default_detector.
  split; [vm_compute; reflexivity|]. split; [vm_compute; reflexivity|].
  split; [reflexivity|]. split; [reflexivity|].
  split; [vm_compute; reflexivity|]. split; [vm_compute; reflexivity|].
  split; [vm_compute; reflexivity|]. split; [|vm_compute; discriminate].
  intros t rules H. exists (builtin_rules t).
  destruct t; vm_compute in H; try discriminate; injection H as <-;
    repeat split; vm_compute; reflexivity.
Qed.

(** C9 fails on the code. The custom rule [abc], registered through
    [add_custom_pattern], does not match the text ["ABC"], which differs
    from it in letter case only: [detect] returns no entry.  The built-in
    path compiles with [re.IGNORECASE], and the same pattern compiled that
    way does match. *)
Theorem custom_rule_is_case_sensitive :
  snd (add_custom_pattern default_detector "abc" "abc" (4 # 5)) = Ok tt
  /\ detect abc_detector "ABC" = []
  /\ detect abc_detector "abc" = [mkMatch CUSTOM "abc" 0 3 (4 # 5)]
  /\ (p ← re_compile "abc" true; Ok (finditer p "ABC")) = Ok [(0, 3)].
Proof.
  split; [vm_compute; reflexivity|]. split; [vm_compute; reflexivity|].
  split; vm_compute; reflexivity.
Qed.

(** The disjointness of C1 at the two entries of a short text. *)
Lemma detect_disjoint_witness : 24 <= 32 \/ 45 <= 8.
Proof.
  apply (detect_disjoint default_detector
           "Contact john@example.com or call 555-123-4567" 0 1
           (mkMatch EMAIL "john@example.com" 8 24 (99 # 100))
           (mkMatch PHONE " 555-123-4567" 32 45 (95 # 100))).
  - lia.
  - vm_compute. reflexivity.
  - vm_compute. reflexivity.
Defined.

(** ** The substitution cache *)

Section Generator_properties.
Context {F : Faker}.
Variable md5_seed : string -> Z.

Lemma generate_consistent_kept g t v :
  consistent (snd (generate md5_seed g t v)) = consistent g.
Proof.
  unfold generate.
  destruct (if consistent g then _cache g !! v else None); [reflexivity|].
  destruct (_generate_by_type t v _) as [[r|e] st]; reflexivity.
Qed.


(** A returned value is in the cache afterwards. *)
Lemma generate_stores g t v r :
  consistent g = true -> fst (generate md5_seed g t v) = Ok r ->
  _cache (snd (generate md5_seed g t v)) !! v = Some r.
Proof.
  intros Hc. unfold generate. rewrite Hc.
  destruct (_cache g !! v) as [r'|] eqn:Hv; simpl.
  - intros H. injection H as ->. assumption.
  - destruct (_generate_by_type t v _) as [[r'|e] st]; simpl.
    + intros H. injection H as ->. apply lookup_insert_eq.
    + discriminate.
Qed.

(** A call never changes a cache entry that is there. *)
Lemma generate_keeps g t v v' r :
  consistent g = true -> _cache g !! v = Some r ->
  _cache (snd (generate md5_seed g t v')) !! v = Some r.
Proof.
  intros Hc Hv. unfold generate. rewrite Hc.
  destruct (_cache g !! v') as [r'|] eqn:Hv'; simpl; [assumption|].
  destruct (_generate_by_type t v' _) as [[r'|e] st]; simpl; [|assumption].
  rewrite lookup_insert_ne; [assumption|]. intros ->. congruence.
Qed.


End Generator_properties.


(** ** Which substitutions return *)

Section Generator_totality.
Context {F : Faker}.
Variable md5_seed : string -> Z.

Lemma total_ret {A : Type} (a : A) : total (gen_ret a).
Proof. intros st. exists a, st. reflexivity. Qed.

Lemma total_draw {A : Type} (f : rng -> A * rng) : total (draw f).
Proof.
  intros st. unfold draw. destruct (f st) as [a st']. exists a, st'. reflexivity.
Qed.

Lemma total_bind {A B : Type} (c : gen A) (k : A -> gen B) :
  total c -> (forall a, total (k a)) -> total (gen_bind c k).
Proof.
  intros Hc Hk st. unfold gen_bind. destruct (Hc st) as (a & st' & ->).
  apply Hk.
Qed.

Lemma total_random_int lo hi : (lo <= hi)%Z -> total (random_int' lo hi).
Proof.
  intros H. unfold random_int', random_int.
  apply Z.leb_le in H. rewrite H. apply total_draw.
Qed.

Lemma total_random_digits n : total (random_digits n).
Proof.
  induction n as [|n IH]; simpl.
  - apply total_ret.
  - apply total_bind; [apply total_draw|]. intros d.
    apply total_bind; [exact IH|]. intros rest. apply total_ret.
Qed.

Lemma total_passport original :
  1 <= String.length (str_filter uni_isdigit original) ->
  total (_generate_passport original).
Proof.
  intros H. unfold _generate_passport.
  set (n := Z.of_nat (String.length (str_filter uni_isdigit original))).
  assert (Hn : (1 <= n)%Z) by (unfold n; lia).
  apply total_bind; [|intros; apply total_ret].
  unfold py_pow10.
  assert (H0 : (0 <=? n - 1)%Z = true) by (apply Z.leb_le; lia).
  assert (H1 : (0 <=? n)%Z = true) by (apply Z.leb_le; lia).
  rewrite H0, H1. simpl. apply total_random_int.
  replace n with (Z.succ (n - 1)) at 2 by lia.
  rewrite Z.pow_succ_r by lia.
  assert (0 < 10 ^ (n - 1))%Z by (apply Z.pow_pos_nonneg; lia). lia.
Qed.

(** Every category-specific generator returns, the passport and
    driver-license ones when the original holds a digit. *)
Lemma total_generate_by_type t original :
  (t = PASSPORT \/ t = DRIVER_LICENSE ->
   1 <= String.length (str_filter uni_isdigit original)) ->
  total (_generate_by_type t original).
Proof.
  intros Hd. destruct t; simpl.
  - apply total_draw.
  - unfold _generate_phone.
    destruct (startswith "+972" original).
    { repeat (apply total_bind; [apply total_random_int; lia|intros]).
      apply total_ret. }
    destruct (_ || _); [apply total_draw|].
    destruct (str_contains "(" original); [|apply total_draw].
    repeat (apply total_bind; [apply total_random_int; lia|intros]).
    apply total_ret.
  - apply total_bind; [apply total_draw|intros; apply total_ret].
  - apply total_bind; [apply total_draw|intros; apply total_ret].
  - unfold _generate_ip. destruct (str_contains ":" original); apply total_draw.
  - apply total_bind; [apply total_draw|intros; apply total_ret].
  - apply total_bind; [apply total_draw|intros; apply total_ret].
  - apply total_passport. auto.
  - apply total_passport. auto.
  - unfold _generate_bank_account. destruct (isalpha _).
    + apply total_draw.
    + apply total_random_digits.
  - unfold _generate_name. destruct (_ =? 1); [apply total_draw|].
    destruct (_ =? 2); [apply total_draw|].
    apply total_bind; [apply total_draw|intros].
    apply total_bind; [apply total_draw|intros]. apply total_ret.
  - apply total_bind; [apply total_random_int; lia|intros; apply total_ret].
Qed.

Lemma generate_returns g t original :
  (t = PASSPORT \/ t = DRIVER_LICENSE ->
   1 <= String.length (str_filter uni_isdigit original)) ->
  exists r g', generate md5_seed g t original = (Ok r, g').
Proof.
  intros Hd. unfold generate.
  destruct (if consistent g then _cache g !! original else None); [eauto|].
  destruct (total_generate_by_type t original Hd
              (if consistent g
               then seed_instance (md5_seed original) (faker g)
               else faker g)) as (r & st' & ->).
  eauto.
Qed.

(** C6 fails on the code. On a new generator, [generate] raises for the
    passport and the driver-license category at the original ["abc"],
    which holds no digit: [10 ** (0 - 1)] is a float and
    [random_int(0.1, 0)] raises. *)
Theorem generate_passport_raises (consistent : bool) (seed : option Z) :
  fst (generate md5_seed (FakeDataGenerator_init consistent seed) PASSPORT "abc")
  = Raise RandrangeError
  /\ fst (generate md5_seed (FakeDataGenerator_init consistent seed)
            DRIVER_LICENSE "abc")
     = Raise RandrangeError.
Proof.
  unfold generate, FakeDataGenerator_init; simpl.
  destruct consistent; simpl; rewrite ?lookup_empty; split; reflexivity.
Qed.

(** C7, as amended. For every original that holds a slash,
    [generate(DATE, original)] answers from the cache when consistency is
    on and the original is cached, whatever was cached; otherwise the
    replacement is a date drawn from the library (after reseeding, when
    consistency is on) and laid out month-first ([%m/%d/%Y]) when the
    first slash is at index 0, 1 or 2, and year-first ([%Y/%m/%d]) when
    it is at index 3 or later; the value of the first group plays no
    part. *)
Theorem date_layout_by_slash_index (g : FakeDataGenerator)
    (original : string) (i : nat) :
  str_index "/" original = Some i ->
  (forall cached,
      consistent g = true -> _cache g !! original = Some cached ->
      fst (generate md5_seed g DATE original) = Ok cached)
  /\ (consistent g = false \/ _cache g !! original = None ->
      (i < 3 ->
       fst (generate md5_seed g DATE original)
       = Ok (strftime
               (fst (date_object
                       (if consistent g
                        then seed_instance (md5_seed original) (faker g)
                        else faker g)))
               "%m/%d/%Y"))
      /\ (3 <= i ->
          fst (generate md5_seed g DATE original)
          = Ok (strftime
                  (fst (date_object
                          (if consistent g
                           then seed_instance (md5_seed original) (faker g)
                           else faker g)))
                  "%Y/%m/%d"))).
Proof.
  intros Hi.
  assert (Hc : str_contains "/" original = true).
  { clear g. revert i Hi. induction original as [|c s IH]; intros i; simpl.
    - discriminate.
    - destruct (Ascii.eqb c "/"); [reflexivity|].
      destruct (str_index "/" s); [|discriminate]. intros _. eapply IH; eauto. }
  split.
  - intros cached Hcons Hcached. unfold generate.
    rewrite Hcons, Hcached. reflexivity.
  - intros Hfresh. unfold generate.
    assert (Hlook : (if consistent g then _cache g !! original else None)
                    = None).
    { destruct Hfresh as [->|H]; [reflexivity|].
      rewrite H. destruct (consistent g); reflexivity. }
    rewrite Hlook.
    set (st := if consistent g
               then seed_instance (md5_seed original) (faker g)
               else faker g).
    cbn [_generate_by_type].
    unfold _generate_date, gen_bind, draw, gen_ret.
    destruct (date_object st) as [d st']. rewrite Hc, Hi. cbn [fst].
    split; intros H.
    + apply Nat.ltb_lt in H. now rewrite H.
    + apply Nat.ltb_ge in H. now rewrite H.
Qed.
End Generator_totality.

(** C7 as amended, at a year-first original on a new generator. *)
Lemma date_layout_by_slash_index_witness :
  (forall cached,
      consistent example_generator = true ->
      _cache example_generator !! "2020/01/15" = Some cached ->
      fst (generate length_seed example_generator DATE "2020/01/15")
      = Ok cached)
  /\ (consistent example_generator = false
      \/ _cache example_generator !! "2020/01/15" = None ->
      (4 < 3 ->
       fst (generate length_seed example_generator DATE "2020/01/15")
       = Ok (strftime
               (fst (date_object
                       (if consistent example_generator
                        then seed_instance (length_seed "2020/01/15")
                               (faker example_generator)
                        else faker example_generator)))
               "%m/%d/%Y"))
      /\ (3 <= 4 ->
          fst (generate length_seed example_generator DATE "2020/01/15")
          = Ok (strftime
                  (fst (date_object
                          (if consistent example_generator
                           then seed_instance (length_seed "2020/01/15")
                                  (faker example_generator)
                           else faker example_generator)))
                  "%Y/%m/%d"))).
Proof.
  apply (@date_layout_by_slash_index counter_faker length_seed
           example_generator "2020/01/15" 4).
  reflexivity.
Defined.

(** C7, as stated, fails.  The first group of ["25/12/2020"] is 25, which
    is greater than 12, and on a new generator the replacement is laid out
    month-first all the same.  And once [generate(EMAIL, "1/2/2020")] has
    cached its answer, [generate(DATE, "1/2/2020")] returns that e-mail
    address, in neither layout. *)
Lemma date_layout_ignores_first_group :
  first_numeric_group "25/12/2020" = 25%N
  /\ fst (generate length_seed example_generator DATE "25/12/2020")
     = Ok "05/17/1990"
  /\ strftime (mkDate 1990 5 17) "%m/%d/%Y" = "05/17/1990"
  /\ strftime (mkDate 1990 5 17) "%Y/%m/%d" = "1990/05/17"
  /\ ~ (fst (generate length_seed example_generator DATE "25/12/2020")
        = Ok (strftime (mkDate 1990 5 17) "%m/%d/%Y")
        <-> (first_numeric_group "25/12/2020" <= 12)%N)
  /\ first_numeric_group "1/2/2020" = 1%N
  /\ fst (generate length_seed
            (snd (generate length_seed example_generator EMAIL "1/2/2020"))
            DATE "1/2/2020")
     = Ok "user@example.org".
Proof.
  split; [vm_compute; reflexivity|]. split; [vm_compute; reflexivity|].
  split; [vm_compute; reflexivity|]. split; [vm_compute; reflexivity|].
  split; [|split; vm_compute; reflexivity].
  intros [H _].
  assert (Hle : (first_numeric_group "25/12/2020" <= 12)%N)
    by (apply H; vm_compute; reflexivity).
  vm_compute in Hle. apply Hle. reflexivity.
Qed.

(** ** Splicing *)

Lemma rebuild_to_end text parts :
  forall cursor, rebuild_to text cursor parts (String.length text)
                 = rebuild text cursor parts.
Proof.
  induction parts as [|[m fake] parts IH]; intros cursor; simpl.
  - unfold str_slice. apply str_take_all. rewrite str_drop_length. lia.
  - now rewrite IH.
Qed.

Lemma rebuild_to_snoc text parts m fake stop :
  forall cursor,
    rebuild_to text cursor (parts ++ [(m, fake)]) stop
    = rebuild_to text cursor parts (start m) ++ fake ++ str_slice (end_ m) stop text.
Proof.
  induction parts as [|[m' fake'] parts IH]; intros cursor; simpl.
  - reflexivity.
  - rewrite IH. now rewrite !str_app_assoc.
Qed.

Lemma str_take_take n m s : n <= m -> str_take n (str_take m s) = str_take n s.
Proof.
  revert m s. induction n as [|n IH]; intros m s H; [reflexivity|].
  destruct m as [|m]; [lia|]. destruct s as [|c s]; simpl; [reflexivity|].
  rewrite IH; [reflexivity|lia].
Qed.

Lemma str_drop_take n m s : str_drop n (str_take m s) = str_slice n m s.
Proof.
  unfold str_slice. revert m s. induction n as [|n IH]; intros m s.
  - now rewrite Nat.sub_0_r.
  - destruct m as [|m]; simpl.
    + destruct (str_drop (S n) s); reflexivity.
    + destruct s as [|c s]; simpl; [destruct (m - n); reflexivity|]. apply IH.
Qed.

(** One splice, on a text of which the first [c] characters are still
    those of the original. *)
Lemma splice_prefix text c suffix m fake :
  start m <= end_ m -> end_ m <= c -> c <= String.length text ->
  splice (str_take c text ++ suffix) m fake
  = str_take (start m) text ++ (fake ++ str_slice (end_ m) c text ++ suffix).
Proof.
  intros H1 H2 H3. unfold splice.
  assert (Hlen : String.length (str_take c text) = c)
    by (rewrite str_take_length; lia).
  rewrite str_take_app by lia. rewrite str_take_take by lia.
  rewrite str_drop_app by lia. rewrite str_drop_take.
  reflexivity.
Qed.

Section Splicing.
Context {F : Faker}.
Variable md5_seed : string -> Z.

(** The replacement loop over matches in processing order, each lying
    before all those processed earlier. *)
Lemma replace_loop_spec text ms :
  forall g c suffix entries res entries' g',
    pairwise (fun a b => end_ b <= start a) ms ->
    Forall (fun m => start m <= end_ m /\ end_ m <= c) ms ->
    c <= String.length text ->
    replace_loop md5_seed ms g (str_take c text ++ suffix) entries
    = (Ok (res, entries'), g') ->
    exists es,
      entries' = (entries ++ es)%list
      /\ map entry_position es = map start ms
      /\ map entry_original es = map value ms
      /\ run_calls md5_seed g (map call_of ms) = map Ok (map entry_replacement es)
      /\ res = rebuild_to text 0 (rev (combine ms (map entry_replacement es))) c
               ++ suffix.
Proof.
  induction ms as [|m ms IH]; intros g c suffix entries res entries' g' Hch Hb Hc H.
  - simpl in H. injection H as <- <- <-. exists []. rewrite app_nil_r. simpl.
    repeat split. unfold str_slice. now rewrite Nat.sub_0_r.
  - simpl in H. inversion Hch as [|? ? Hm Hch']; subst.
    inversion Hb as [|? ? [Hm1 Hm2] Hb']; subst.
    destruct (generate md5_seed g (pii_type m) (value m)) as [[fake|e] g1] eqn:Hg;
      [|discriminate].
    rewrite splice_prefix in H by assumption.
    apply IH in H; try assumption; [| |lia].
    + destruct H as (es & -> & Hp & Ho & Hr & ->).
      exists (mkEntry (PIIType_value (pii_type m)) (value m) fake (start m)
                (confidence m) :: es).
      split; [now rewrite <- app_assoc|]. simpl.
      split; [now rewrite Hp|]. split; [now rewrite Ho|].
      split.
      * change (run_calls md5_seed g (map call_of (m :: ms)))
          with (let '(r, g') := generate md5_seed g (pii_type m) (value m) in
                r :: run_calls md5_seed g' (map call_of ms)).
        rewrite Hg, Hr. reflexivity.
      * simpl. rewrite rebuild_to_snoc. now rewrite ?str_app_assoc.
    + rewrite List.Forall_forall in *. intros m' Hin.
      specialize (Hm _ Hin). specialize (Hb' _ Hin). lia.
Qed.

Lemma replace_loop_returns ms :
  forall g result_text entries,
    Forall (fun m => needs_digit (pii_type m) = true ->
                     1 <= String.length (str_filter uni_isdigit (value m))) ms ->
    exists res entries' g',
      replace_loop md5_seed ms g result_text entries = (Ok (res, entries'), g').
Proof.
  induction ms as [|m ms IH]; intros g result_text entries H; simpl.
  - eauto.
  - inversion H as [|? ? Hm Hms]; subst.
    destruct (generate_returns md5_seed g (pii_type m) (value m)) as (r & g1 & ->).
    + intros [Ht|Ht]; apply Hm; rewrite Ht; reflexivity.
    + apply IH, Hms.
Qed.
End Splicing.

Lemma insert_asc_sorted {A : Type} (key : A -> nat) x l :
  pairwise (fun a b => key a <= key b) l ->
  pairwise (fun a b => key a <= key b) (insert_asc key x l).
Proof.
  induction 1 as [|y l Hy Hl IH]; simpl.
  - repeat constructor.
  - destruct (key x <=? key y) eqn:Hxy.
    + apply Nat.leb_le in Hxy. constructor; [|constructor; assumption].
      constructor; [assumption|].
      rewrite List.Forall_forall in *. intros z Hz. specialize (Hy z Hz). lia.
    + apply Nat.leb_gt in Hxy. constructor; [|assumption].
      apply (Permutation_Forall (Permutation_sym (insert_asc_perm key x l))).
      constructor; [lia|assumption].
Qed.

Lemma sort_asc_sorted {A : Type} (key : A -> nat) l :
  pairwise (fun a b => key a <= key b) (sort_asc key l).
Proof.
  induction l as [|x l IH]; simpl; [constructor|].
  apply insert_asc_sorted, IH.
Qed.

Lemma pairwise_combine {A : Type} (R1 R2 R3 : A -> A -> Prop) (P : A -> Prop) l :
  (forall a b, P a -> P b -> R1 a b -> R2 a b -> R3 a b) ->
  Forall P l -> pairwise R1 l -> pairwise R2 l -> pairwise R3 l.
Proof.
  intros H HP H1. induction H1 as [|x l Hx Hl IH]; intros H2; [constructor|].
  inversion H2 as [|? ? Hx2 Hl2]; subst. inversion HP as [|? ? Px Pl]; subst.
  constructor; [|auto].
  rewrite List.Forall_forall in *. intros y Hy. apply H; auto.
Qed.

Lemma pairwise_rev {A : Type} (R : A -> A -> Prop) l :
  pairwise R l -> pairwise (fun a b => R b a) (rev l).
Proof.
  induction 1 as [|x l Hx Hl IH]; simpl; [constructor|].
  apply pairwise_app_one; [assumption|].
  apply (Permutation_Forall (Permutation_rev l)). assumption.
Qed.

Lemma insert_desc_last {A : Type} (key : A -> nat) x l :
  Forall (fun y => key x < key y) l -> insert_desc key x l = (l ++ [x])%list.
Proof.
  induction 1 as [|y l Hy Hl IH]; simpl; [reflexivity|].
  destruct (key y <=? key x) eqn:H; [apply Nat.leb_le in H; lia|].
  now rewrite IH.
Qed.

(** Sorting a strictly ascending list in descending order reverses it. *)
Lemma sort_desc_rev {A : Type} (key : A -> nat) l :
  pairwise (fun a b => key a < key b) l -> sort_desc key l = rev l.
Proof.
  induction 1 as [|x l Hx Hl IH]; simpl; [reflexivity|].
  rewrite IH. apply insert_desc_last.
  apply (Permutation_Forall (Permutation_rev l)). assumption.
Qed.

Lemma combine_app_same {A B : Type} (l1 l2 : list A) (k1 k2 : list B) :
  length l1 = length k1 ->
  combine (l1 ++ l2) (k1 ++ k2) = (combine l1 k1 ++ combine l2 k2)%list.
Proof.
  revert k1. induction l1 as [|a l1 IH]; intros [|b k1] H; simpl in *;
    try discriminate; [reflexivity|].
  rewrite IH by lia. reflexivity.
Qed.

Lemma rev_combine {A B : Type} (l1 : list A) (l2 : list B) :
  length l1 = length l2 ->
  rev (combine l1 l2) = combine (rev l1) (rev l2).
Proof.
  revert l2. induction l1 as [|a l1 IH]; intros [|b l2] H; simpl in *;
    try discriminate; [reflexivity|].
  rewrite IH by lia.
  rewrite combine_app_same by (rewrite !length_rev; lia). reflexivity.
Qed.

Lemma count_str_filter p s : count_str p s = String.length (str_filter p s).
Proof.
  induction s as [|c s IH]; simpl; [reflexivity|].
  destruct (p c); simpl; lia.
Qed.

Lemma builtin_rules_hold_digit t :
  needs_digit t = true -> rules_hold_digit (builtin_rules t) = true.
Proof.
  destruct t; intros H; try (cbv in H; discriminate); vm_compute; reflexivity.
Qed.

(** Passport and driver-license entries hold a digit. *)
Lemma detect_needs_digit d text m :
  reachable d -> In m (detect d text) -> needs_digit (pii_type m) = true ->
  1 <= String.length (str_filter uni_isdigit (value m)).
Proof.
  intros Hd Hm Ht. apply detect_from_hit in Hm.
  destruct Hm as ([[t conf] [s e]] & Hh & ->). simpl in *.
  apply in_all_hits in Hh. destruct Hh as (rules & p & Hin & Hp & Hsp).
  apply finditer_sound in Hsp. destruct Hsp as (_ & _ & Hmatch).
  apply reachable_builtin in Hd.
  destruct (Hd _ _ Hin) as [->| ->]; [discriminate|].
  pose proof (builtin_rules_hold_digit t Ht) as Hr.
  unfold rules_hold_digit in Hr. rewrite forallb_forall in Hr.
  specialize (Hr _ Hp). cbv beta in Hr. apply Nat.leb_le in Hr. simpl in Hr.
  apply (matches_mincount _ _ uni_isdigit) in Hmatch.
  unfold count_between in Hmatch. rewrite count_str_filter in Hmatch. lia.
Qed.

Lemma detect_in_bounds d text m :
  In m (detect d text) -> start m <= end_ m /\ end_ m <= String.length text.
Proof.
  intros Hm. apply detect_from_hit in Hm.
  destruct Hm as ([[t conf] [s e]] & Hh & ->). simpl.
  apply in_all_hits in Hh. destruct Hh as (rules & p & Hin & Hp & Hsp).
  apply finditer_sound in Hsp. lia.
Qed.

Lemma detect_sorted d text :
  pairwise (fun a b => start a <= start b) (detect d text).
Proof. rewrite detect_unfold. apply sort_asc_sorted. Qed.

Section Anonymize.
Context {F : Faker}.
Variable md5_seed : string -> Z.

(** Splicing without empty matches.  Without an external backend, for
    every detector the interface builds (the constructor, then
    [add_custom_pattern] calls whose patterns are written in the
    interpreted syntax) and every text whose custom-rule matches are all
    of positive length (those of the built-in rules always are),
    [anonymize_with_report] returns, and its [anonymized_text] is the
    original text with each matched span replaced by the value [generate]
    returned for it, the values being generated in descending start
    order, and with the text between the matches kept as it is and in
    order; the report lists the matches by ascending position. *)
Theorem anonymize_splices (p : PrivacyProtector) (text : string) :
  llm_guard p = None ->
  reachable (regex_detector p) ->
  (forall m, In m (detect (regex_detector p) text) ->
             pii_type m = CUSTOM -> start m < end_ m) ->
  exists r p',
    anonymize_with_report md5_seed p text = (Ok r, p')
    /\ map entry_position (replacements r)
       = map start (detect (regex_detector p) text)
    /\ map entry_original (replacements r)
       = map value (detect (regex_detector p) text)
    /\ run_calls md5_seed (generator p)
         (map call_of (rev (detect (regex_detector p) text)))
       = map Ok (rev (map entry_replacement (replacements r)))
    /\ anonymized_text r
       = rebuild text 0
           (combine (detect (regex_detector p) text)
              (map entry_replacement (replacements r))).
Proof.
  intros Hguard Hreach Hcustom.
  set (ms := detect (regex_detector p) text) in *.
  assert (Hpos : Forall (fun m => start m < end_ m) ms).
  { apply List.Forall_forall. intros m Hm.
    destruct (decide (pii_type m = CUSTOM)) as [Ht|Ht].
    - apply Hcustom; assumption.
    - apply (detect_positive_builtin (regex_detector p) text); assumption. }
  assert (Hchain : pairwise (fun a b => end_ a <= start b) ms).
  { apply (pairwise_combine (fun a b => start a <= start b) disjoint_matches
             _ (fun m => start m < end_ m)); auto.
    - unfold disjoint_matches. intros a b Ha Hb H1 H2. lia.
    - apply detect_sorted.
    - apply detect_pairwise. }
  assert (Hstrict : pairwise (fun a b => start a < start b) ms).
  { apply (pairwise_combine (fun a b => end_ a <= start b)
             (fun a b => end_ a <= start b) _ (fun m => start m < end_ m));
      auto.
    intros a b Ha Hb H1 H2. lia. }
  unfold anonymize_with_report, _detect_all. rewrite Hguard. fold ms.
  rewrite (sort_desc_rev start ms Hstrict).
  destruct (replace_loop_returns md5_seed (rev ms) (generator p) text [])
    as (res & entries' & g' & Hloop).
  { apply List.Forall_forall. intros m Hm Ht. apply in_rev in Hm.
    apply (detect_needs_digit (regex_detector p) text m); assumption. }
  rewrite Hloop.
  destruct (replace_loop_spec md5_seed text (rev ms) (generator p)
              (String.length text) "" [] res entries' g')
    as (es & -> & Hp & Ho & Hr & ->).
  { apply (pairwise_rev (fun a b => end_ a <= start b)). assumption. }
  { apply List.Forall_forall. intros m Hm. apply in_rev in Hm.
    pose proof (detect_in_bounds _ _ _ Hm). lia. }
  { lia. }
  { rewrite str_take_all by lia. rewrite str_app_nil_r. exact Hloop. }
  assert (Hlen : length (rev ms) = length (map entry_replacement es)).
  { rewrite length_map. rewrite <- (length_map entry_position es), Hp.
    now rewrite length_map. }
  eexists. eexists. split; [reflexivity|]. simpl.
  split; [now rewrite List.map_rev, Hp, List.map_rev, List.rev_involutive|].
  split; [now rewrite List.map_rev, Ho, List.map_rev, List.rev_involutive|].
  split; [now rewrite (List.map_rev entry_replacement), List.rev_involutive|].
  rewrite str_app_nil_r, rebuild_to_end, rev_combine by assumption.
  now rewrite List.rev_involutive, List.map_rev.
Qed.
End Anonymize.

(** The splicing of a text with a custom and a built-in match. *)
Lemma anonymize_splices_witness :
  exists r p',
    anonymize_with_report length_seed (protector_of abc_detector)
      "abc mails a@b.cd." = (Ok r, p')
    /\ map entry_position (replacements r)
       = map start (detect abc_detector "abc mails a@b.cd.")
    /\ map entry_original (replacements r)
       = map value (detect abc_detector "abc mails a@b.cd.")
    /\ run_calls length_seed example_generator
         (map call_of (rev (detect abc_detector "abc mails a@b.cd.")))
       = map Ok (rev (map entry_replacement (replacements r)))
    /\ anonymized_text r
       = rebuild "abc mails a@b.cd." 0
           (combine (detect abc_detector "abc mails a@b.cd.")
              (map entry_replacement (replacements r))).
Proof.
  apply (anonymize_splices length_seed (protector_of abc_detector)
           "abc mails a@b.cd.").
  - reflexivity.
  - apply reachable_add; [vm_compute; reflexivity|].
    apply (reachable_init None). vm_compute. reflexivity.
  - intros m Hm Ht. vm_compute in Hm.
    destruct Hm as [<-|[<-|[]]]; [vm_compute; lia|discriminate Ht].
Defined.

(** C3 fails on the code. On the protector that [PrivacyProtector()]
    followed by [add_custom_pattern("boundary", r"\b")] and
    [add_custom_pattern("cd", "cd")] builds, which has no external
    backend, the matches of ["ab cd"] are pairwise disjoint, two of them
    start at offset 3 (the empty one first), and the replacement of [cd]
    lands on the text that was inserted for the empty match: the output is
    not the text with each matched span replaced, it still holds the
    detected [cd], and one of the inserted markers is cut. *)
Theorem anonymize_zero_length_corrupts :
  (p ← PrivacyProtector_new failing_get_guard None "regex" "en_US" true [];
   Ok (fst (protector_add_custom_pattern
              (fst (protector_add_custom_pattern p "boundary" "\b" (4 # 5)))
              "cd" "cd" (4 # 5))))
  = Ok (protector_of boundary_cd_detector)
  /\ llm_guard (protector_of boundary_cd_detector) = None
  /\ pairwise disjoint_matches (detect boundary_cd_detector "ab cd")
  /\ map span_of (detect boundary_cd_detector "ab cd")
     = [(0, 0); (2, 2); (3, 3); (3, 5); (5, 5)]
  /\ match fst (anonymize_with_report length_seed
                  (protector_of boundary_cd_detector) "ab cd") with
     | Ok r =>
         anonymized_text r
         = "[REDACTED-1000]ab[REDACTED-1000] [REDACTED-1000]EDACTED-1000]cd[REDACTED-1000]"
         /\ map entry_original (replacements r) = [""; ""; "cd"; ""; ""]
         /\ anonymized_text r
            <> rebuild "ab cd" 0
                 (combine (detect boundary_cd_detector "ab cd")
                    (map entry_replacement (replacements r)))
     | Raise _ => False
     end.
Proof.
  split; [vm_compute; reflexivity|].
  split; [reflexivity|]. split; [apply detect_pairwise|].
  split; [vm_compute; reflexivity|].
  vm_compute. split; [reflexivity|]. split; [reflexivity|discriminate].
Qed.

(** ** Shape analyses of patterns *)

Section Shapes.
Variable ignorecase : bool.
Variable text : string.

#[local] Abbreviation matches := (matches ignorecase text).

Lemma starts_bounded_sound r s e :
  starts_bounded r = true -> matches r s e ->
  at_matches text At_boundary s = true.
Proof.
  destruct r as [x| |neg kd|neg items|a| |r1 r2|r1 r2|lo hi body];
    simpl; try discriminate.
  destruct r1 as [x| |neg kd|neg items|a| |r11 r12|r11 r12|lo hi body];
    simpl; try discriminate.
  destruct a; simpl; try discriminate.
  intros _ (m & [H _] & _). exact H.
Qed.

Lemma ends_bounded_sound r :
  ends_bounded r = true ->
  forall s e, matches r s e -> at_matches text At_boundary e = true.
Proof.
  induction r as [x| |neg kd|neg items|a| |r1 IH1 r2 IH2|r1 IH1 r2 IH2|lo hi body IH];
    simpl; try discriminate; intros Hb s e H.
  - destruct a; try discriminate. destruct H as [H ->]. exact H.
  - destruct H as (m & _ & H). eapply IH2; eauto.
Qed.

Lemma iter_snoc (R : nat -> nat -> Prop) n :
  forall i j, iter R (S n) i j -> exists m, iter R n i m /\ R m j.
Proof.
  induction n as [|n IH]; intros i j H.
  - destruct H as (m & Hm & ->). exists i. split; [reflexivity|assumption].
  - destruct H as (m & Hm & H). apply IH in H. destruct H as (m' & H & Hl).
    exists m'. split; [|assumption]. exists m. auto.
Qed.

Lemma char_test_sound r q s e :
  char_test ignorecase r = Some q -> matches r s e -> char_matches text q s e.
Proof.
  destruct r; simpl; try discriminate; intros H; injection H as <-; auto.
Qed.

Lemma first_test_sound r :
  forall q s e,
    first_test ignorecase r = Some q -> matches r s e ->
    exists c, char_at text s = Some c /\ q c = true.
Proof.
  assert (Hatom : forall r q s e,
             char_test ignorecase r = Some q -> matches r s e ->
             exists c, char_at text s = Some c /\ q c = true).
  { intros r0 q s e Hq H. destruct (char_test_sound r0 q s e Hq H) as (c & Hc & Hqc & _).
    eauto. }
  induction r as [x| |neg kd|neg items|a| |r1 IH1 r2 IH2|r1 IH1 r2 IH2|lo hi body IH];
    intros q s e Hq H;
    try (match type of H with matches ?r0 _ _ => exact (Hatom r0 q s e Hq H) end).
  - destruct H as (m & H1 & H2).
    destruct r1; try (eapply IH1; eassumption).
    destruct H1 as [_ ->]. eapply IH2; eassumption.
  - destruct lo as [|lo]; [discriminate|].
    destruct H as (n & [Hlo _] & H). destruct n as [|n]; [lia|].
    destruct H as (m & Hm & _). eapply IH; eassumption.
Qed.

Lemma last_test_sound r :
  forall q s e,
    last_test ignorecase r = Some q -> matches r s e ->
    exists e' c, e = S e' /\ char_at text e' = Some c /\ q c = true.
Proof.
  assert (Hatom : forall r q s e,
             char_test ignorecase r = Some q -> matches r s e ->
             exists e' c, e = S e' /\ char_at text e' = Some c /\ q c = true).
  { intros r0 q s e Hq H. destruct (char_test_sound r0 q s e Hq H) as (c & Hc & Hqc & ->).
    eauto. }
  induction r as [x| |neg kd|neg items|a| |r1 IH1 r2 IH2|r1 IH1 r2 IH2|lo hi body IH];
    intros q s e Hq H;
    try (match type of H with matches ?r0 _ _ => exact (Hatom r0 q s e Hq H) end).
  - destruct H as (m & H1 & H2).
    destruct r2; try (eapply IH2; eassumption).
    destruct H2 as [_ ->]. eapply IH1; eassumption.
  - destruct lo as [|lo]; [discriminate|].
    destruct H as (n & [Hlo _] & H). destruct n as [|n]; [lia|].
    apply iter_snoc in H. destruct H as (m & _ & Hm). eapply IH; eassumption.
Qed.

(** Where no character of a span may fail [p], every character passes. *)
Lemma count_zero_at p s e i c :
  count_between p text s e = 0 -> s <= i -> i < e ->
  char_at text i = Some c -> p c = false.
Proof.
  intros H0 Hs He Hc.
  pose proof (count_between_mono p text s i (S i) e Hs ltac:(lia) ltac:(lia)) as Hm.
  rewrite (count_between_one p text i c Hc) in Hm.
  destruct (p c); [lia|reflexivity].
Qed.

Lemma count_digits_run a n :
  (forall t, t < n -> digit_at text (a + t) = true) ->
  count_between is_ascii_digit text a (a + n) = n.
Proof.
  induction n as [|n IH]; intros H.
  - rewrite Nat.add_0_r. apply count_between_nil.
  - rewrite (count_between_split _ text a (a + n) (a + S n)) by lia.
    rewrite IH by (intros t Ht; apply H; lia).
    specialize (H n ltac:(lia)). unfold digit_at in H.
    destruct (char_at text (a + n)) as [c|] eqn:Hc; [|discriminate].
    replace (a + S n) with (S (a + n)) by lia.
    rewrite (count_between_one _ text (a + n) c Hc), H. lia.
Qed.
End Shapes.

(** ** A Visa-shaped run and the hits around it *)

Section Visa_run.
Variable text : string.
Variable a : nat.
Hypothesis Hrun : visa_run_at text a = true.

Lemma run_parts :
  char_at text a = Some "4"%char
  /\ (forall t, t < 16 -> digit_at text (a + t) = true)
  /\ at_matches text At_boundary a = true
  /\ at_matches text At_boundary (a + 16) = true.
Proof.
  unfold visa_run_at in Hrun. rewrite !andb_true_iff in Hrun.
  destruct Hrun as [[[H4 Hd] Ha] Hb]. repeat split; try assumption.
  - destruct (char_at text a) as [c|]; [|discriminate].
    apply Ascii.eqb_eq in H4. now subst.
  - intros t Ht. rewrite forallb_forall in Hd. apply Hd, in_seq. lia.
Qed.

Lemma run_word t : t < 16 -> is_word_at text (a + t) = true.
Proof.
  intros Ht. destruct run_parts as (_ & Hd & _). specialize (Hd t Ht).
  unfold digit_at in Hd. unfold is_word_at.
  destruct (char_at text (a + t)) as [c|]; [|discriminate].
  unfold uni_isword. unfold is_ascii_digit in Hd. now rewrite Hd.
Qed.

Lemma run_in_text : a + 16 <= String.length text.
Proof.
  destruct run_parts as (_ & Hd & _). specialize (Hd 15 ltac:(lia)).
  unfold digit_at in Hd. destruct (char_at text (a + 15)) as [c|] eqn:Hc;
    [|discriminate].
  apply get_some_lt in Hc. lia.
Qed.

Lemma run_inner_no_boundary i :
  a < i -> i < a + 16 -> at_matches text At_boundary i = false.
Proof.
  intros H1 H2. unfold at_matches. destruct i as [|j]; [lia|].
  unfold word_before.
  replace j with (a + (j - a)) by lia. rewrite run_word by lia.
  replace (S (a + (j - a))) with (a + (S j - a)) by lia.
  rewrite run_word by lia. simpl. apply andb_false_r.
Qed.

(** A span between two word boundaries that overlaps the run covers it. *)
Lemma run_covered s e :
  at_matches text At_boundary s = true ->
  at_matches text At_boundary e = true ->
  s < a + 16 -> a < e -> s <= a /\ a + 16 <= e.
Proof.
  intros Hs He H1 H2. split.
  - destruct (Nat.le_gt_cases s a) as [H|H]; [assumption|].
    rewrite run_inner_no_boundary in Hs by lia. discriminate.
  - destruct (Nat.le_gt_cases (a + 16) e) as [H|H]; [assumption|].
    rewrite run_inner_no_boundary in He by lia. discriminate.
Qed.

Lemma run_digit_count :
  count_between is_ascii_digit text a (a + 16) = 16.
Proof. apply count_digits_run. apply run_parts. Qed.

(** A hit of a rule between word boundaries that overlaps the run covers
    it. *)
Lemma bounded_hit_covers rule s e :
  rule_bounded rule = true ->
  In (s, e) (finditer (fst rule) text) ->
  s < a + 16 -> a < e ->
  s <= a /\ a + 16 <= e /\ e <= String.length text
  /\ matches (pat_ignorecase (fst rule)) text (pat_regex (fst rule)) s e.
Proof.
  intros Hb Hin H1 H2. apply finditer_sound in Hin.
  destruct Hin as (Hse & He & Hm).
  unfold rule_bounded in Hb. apply andb_true_iff in Hb. destruct Hb as [Hb1 Hb2].
  pose proof (starts_bounded_sound _ _ _ _ _ Hb1 Hm) as Hs.
  pose proof (ends_bounded_sound _ _ _ Hb2 _ _ Hm) as He'.
  destruct (run_covered s e Hs He' H1 H2). auto.
Qed.

(** A rule whose matches hold fewer than 16 digits has no hit that
    overlaps the run. *)
Lemma short_hit_misses rule s e :
  rule_bounded rule = true -> rule_short rule = true ->
  In (s, e) (finditer (fst rule) text) ->
  e <= a \/ a + 16 <= s.
Proof.
  intros Hb Hs Hin.
  destruct (Nat.le_gt_cases e a) as [|H2]; [auto|].
  destruct (Nat.le_gt_cases (a + 16) s) as [|H1]; [auto|]. exfalso.
  destruct (bounded_hit_covers rule s e Hb Hin H1 H2) as (Hsa & Hbe & He & Hm).
  unfold rule_short in Hs.
  destruct (maxcount _ _ _) as [c|] eqn:Hc; [|discriminate].
  apply Nat.ltb_lt in Hs.
  pose proof (matches_maxcount _ _ _ _ _ _ _ Hm Hc) as Hmax.
  pose proof (count_between_mono is_ascii_digit text s a (a + 16) e
                Hsa ltac:(lia) Hbe) as Hmono.
  rewrite run_digit_count in Hmono. lia.
Qed.

(** A hit of a rule whose matches hold at most 16 digits and begin and
    end with a digit is the run itself when it overlaps it. *)
Lemma digit_hit_exact rule q1 q2 s e :
  rule_bounded rule = true ->
  maxcount (pat_ignorecase (fst rule)) is_ascii_digit (pat_regex (fst rule)) = Some 16 ->
  first_test (pat_ignorecase (fst rule)) (pat_regex (fst rule)) = Some q1 ->
  last_test (pat_ignorecase (fst rule)) (pat_regex (fst rule)) = Some q2 ->
  must_pass is_ascii_digit q1 = true ->
  must_pass is_ascii_digit q2 = true ->
  In (s, e) (finditer (fst rule) text) ->
  s < a + 16 -> a < e -> s = a /\ e = a + 16.
Proof.
  intros Hb Hc Hq1 Hq2 Hd1 Hd2 Hin H1 H2.
  destruct (bounded_hit_covers rule s e Hb Hin H1 H2) as (Hsa & Hbe & He & Hm).
  pose proof (matches_maxcount _ _ _ _ _ _ _ Hm Hc) as Hmax.
  destruct (first_test_sound _ _ _ _ _ _ Hq1 Hm) as (c1 & Hc1 & Hp1).
  destruct (last_test_sound _ _ _ _ _ _ Hq2 Hm) as (e' & c2 & -> & Hc2 & Hp2).
  apply (must_pass_spec _ _ _ Hd1) in Hp1. apply (must_pass_spec _ _ _ Hd2) in Hp2.
  split.
  - destruct (Nat.eq_dec s a) as [|Hne]; [assumption|]. exfalso.
    rewrite (count_between_split _ text s (S s) (S e')) in Hmax by lia.
    rewrite (count_between_one _ text s c1 Hc1), Hp1 in Hmax.
    pose proof (count_between_mono is_ascii_digit text (S s) a (a + 16) (S e')
                  ltac:(lia) ltac:(lia) Hbe) as Hmono.
    rewrite run_digit_count in Hmono. lia.
  - destruct (Nat.eq_dec (S e') (a + 16)) as [|Hne]; [assumption|]. exfalso.
    rewrite (count_between_split _ text s e' (S e')) in Hmax by lia.
    rewrite (count_between_one _ text e' c2 Hc2), Hp2 in Hmax.
    pose proof (count_between_mono is_ascii_digit text s a (a + 16) e'
                  Hsa ltac:(lia) ltac:(lia)) as Hmono.
    rewrite run_digit_count in Hmono. lia.
Qed.
End Visa_run.

(** ** [finditer] does not skip a match *)

Section Scanner_completeness.
Variable ignorecase : bool.
Variable text : string.

Lemma search_from_finds r n :
  forall s0 ma a e,
    match_at ignorecase text r a false = Some e ->
    s0 <= a -> a <= s0 + n -> (a = s0 -> ma = false) ->
    exists s e', search_from ignorecase text r n s0 ma = Some (s, e') /\ s <= a.
Proof.
  induction n as [|n IH]; intros s0 ma a e Ha H1 H2 Hma; simpl.
  - assert (a = s0) by lia. subst. rewrite (Hma eq_refl), Ha. eauto.
  - destruct (match_at ignorecase text r s0 ma) as [e'|] eqn:Hm; [eauto|].
    destruct (Nat.eq_dec a s0) as [->|Hne].
    + rewrite (Hma eq_refl) in Hm. congruence.
    + apply (IH (S s0) false a e Ha); first [lia|intros; reflexivity].
Qed.

(** When an attempt at offset [a] succeeds and the expression matches no
    empty string, some hit of the scan covers offset [a]. *)
Lemma scan_covers r :
  1 <= minlen r ->
  forall fuel pos a e,
    match_at ignorecase text r a false = Some e ->
    pos <= a -> a <= String.length text -> String.length text - pos < fuel ->
    exists s e', In (s, e') (scan ignorecase text r fuel pos false)
                 /\ s <= a /\ a < e'.
Proof.
  intros Hmin. induction fuel as [|fuel IH]; intros pos a e Ha H1 H2 Hf; [lia|].
  simpl. unfold search at 1.
  destruct (String.length text <? pos) eqn:Hp; [apply Nat.ltb_lt in Hp; lia|].
  destruct (search_from_finds r (String.length text - pos) pos false a e Ha
              H1 ltac:(lia) (fun _ => eq_refl))
    as (s & e' & Hs & Hsa).
  rewrite Hs.
  pose proof (search_from_sound _ _ _ _ _ _ _ _ Hs) as (Hps & _ & Hm & _).
  pose proof (matches_minlen _ _ _ _ _ Hm) as Hlen.
  pose proof (matches_bounds _ _ _ _ _ Hm) as [_ Hb].
  destruct (Nat.lt_ge_cases a e') as [Hlt|Hge].
  - exists s, e'. split; [left; reflexivity|]. lia.
  - assert (Hne : (e' =? s) = false) by (apply Nat.eqb_neq; lia).
    rewrite Hne.
    destruct (IH e' a e Ha Hge H2) as (s1 & e1 & Hin & Hs1); [lia|].
    exists s1, e1. split; [right; assumption|assumption].
Qed.

(** *** Evaluating the matcher on digits *)

Lemma all_chars_forall (P : ascii -> bool) :
  forallb P all_chars = true -> forall c, P c = true.
Proof.
  intros H c. rewrite forallb_forall in H. apply H.
  unfold all_chars. rewrite <- (ascii_nat_embedding c).
  apply in_map, in_seq. pose proof (nat_ascii_bounded c). lia.
Qed.

Lemma digit_in_digit_set c :
  is_ascii_digit c = true ->
  charset_matches ignorecase false [SRange "0" "9"] c = true.
Proof.
  intros H.
  assert (Hall : forallb
            (fun c => implb (is_ascii_digit c)
                        (charset_matches ignorecase false [SRange "0" "9"] c))
            all_chars = true)
    by (destruct ignorecase; vm_compute; reflexivity).
  pose proof (all_chars_forall _ Hall c) as Hc. cbv beta in Hc.
  now rewrite H in Hc.
Qed.

Lemma digit_not_separator c :
  is_ascii_digit c = true ->
  charset_matches ignorecase false [SLit "-"; SCat false Cat_space] c = false.
Proof.
  intros H.
  assert (Hall : forallb
            (fun c => implb (is_ascii_digit c)
                        (negb (charset_matches ignorecase false
                                 [SLit "-"; SCat false Cat_space] c)))
            all_chars = true)
    by (destruct ignorecase; vm_compute; reflexivity).
  pose proof (all_chars_forall _ Hall c) as Hc. cbv beta in Hc.
  rewrite H in Hc. simpl in Hc. now apply negb_true_iff in Hc.
Qed.

Lemma re_match_seq r1 r2 i k :
  re_match ignorecase text (Seq r1 r2) i k
  = re_match ignorecase text r1 i (fun j => re_match ignorecase text r2 j k).
Proof. reflexivity. Qed.

Lemma re_match_boundary i k :
  at_matches text At_boundary i = true ->
  re_match ignorecase text (At At_boundary) i k = k i.
Proof. intros H. cbn [re_match]. now rewrite H. Qed.

Lemma re_match_four i k :
  char_at text i = Some "4"%char ->
  re_match ignorecase text (Lit "4") i k = k (S i).
Proof.
  intros H. cbn [re_match]. unfold char_step. rewrite H.
  unfold lit_matches. now rewrite Ascii.eqb_refl.
Qed.

Lemma until_digits n :
  forall fuel count last i k,
    (forall t, t < n -> digit_at text (i + t) = true) ->
    n <= fuel ->
    until (re_match ignorecase text (CharSet false [SRange "0" "9"]))
      (count + n) (Some (count + n)) k fuel count last i
    = k (i + n).
Proof.
  induction n as [|n IH]; intros fuel count last i k Hd Hf.
  - rewrite !Nat.add_0_r.
    destruct fuel; simpl; rewrite Nat.ltb_irrefl; simpl;
      rewrite ?Nat.ltb_irrefl; reflexivity.
  - destruct fuel as [|fuel]; [lia|]. simpl.
    assert (Hlt : (count <? count + S n) = true) by (apply Nat.ltb_lt; lia).
    rewrite Hlt. unfold char_step.
    pose proof (Hd 0 ltac:(lia)) as H0. rewrite Nat.add_0_r in H0.
    unfold digit_at in H0. destruct (char_at text i) as [c|]; [|discriminate].
    rewrite (digit_in_digit_set c H0).
    replace (count + S n) with (S count + n) by lia.
    rewrite IH.
    + f_equal. lia.
    + intros t Ht. replace (S i + t) with (i + S t) by lia. apply Hd. lia.
    + lia.
Qed.

Lemma re_match_digits n i j k :
  (forall t, t < n -> digit_at text (i + t) = true) ->
  j = i + n ->
  re_match ignorecase text (digits n) i k = k j.
Proof.
  intros Hd ->. unfold digits. cbn [re_match].
  apply (until_digits n (n + S (String.length text)) 0 None i k Hd). lia.
Qed.

Lemma re_match_optional_separator i k :
  digit_at text i = true ->
  re_match ignorecase text optional_separator i k = k i.
Proof.
  intros Hd. unfold optional_separator. cbn [re_match].
  cbn [Nat.add until Nat.ltb Nat.leb below same_pos negb andb].
  cbn [re_match]. unfold char_step. unfold digit_at in Hd.
  destruct (char_at text i) as [c|]; [|discriminate].
  now rewrite (digit_not_separator c Hd).
Qed.
End Scanner_completeness.

(** ** Which match takes a Visa-shaped run *)

Lemma visa_regex :
  visa_pattern
  = mkPattern
      (Seq (At At_boundary)
         (Seq (Lit "4")
            (Seq (digits 3)
               (Seq optional_separator
                  (Seq (digits 4)
                     (Seq optional_separator
                        (Seq (digits 4)
                           (Seq optional_separator
                              (Seq (digits 4) (At At_boundary))))))))))
      true.
Proof. vm_compute. reflexivity. Qed.

Lemma visa_first_rule :
  builtin_rules CREDIT_CARD
  = (visa_pattern, (98 # 100)%Q) :: tl (builtin_rules CREDIT_CARD).
Proof. vm_compute. reflexivity. Qed.

Lemma default_entries :
  _compiled_patterns default_detector
  = [ (EMAIL, builtin_rules EMAIL); (PHONE, builtin_rules PHONE);
      (SSN, builtin_rules SSN); (CREDIT_CARD, builtin_rules CREDIT_CARD);
      (IP_ADDRESS, builtin_rules IP_ADDRESS); (DATE, builtin_rules DATE);
      (PASSPORT, builtin_rules PASSPORT);
      (DRIVER_LICENSE, builtin_rules DRIVER_LICENSE);
      (BANK_ACCOUNT, builtin_rules BANK_ACCOUNT) ].
Proof. reflexivity. Qed.

Lemma builtin_rules_bounded t :
  forallb rule_bounded (builtin_rules t) = true.
Proof. destruct t; vm_compute; reflexivity. Qed.

Lemma phone_ssn_rules_short :
  forallb rule_short (builtin_rules PHONE) = true
  /\ forallb rule_short (builtin_rules SSN) = true.
Proof. split; vm_compute; reflexivity. Qed.

Lemma visa_rule_shape :
  rule_bounded (visa_pattern, (98 # 100)%Q) = true
  /\ maxcount true is_ascii_digit (pat_regex visa_pattern) = Some 16
  /\ 1 <= minlen (pat_regex visa_pattern)
  /\ exists q1 q2,
       first_test true (pat_regex visa_pattern) = Some q1
       /\ last_test true (pat_regex visa_pattern) = Some q2
       /\ must_pass is_ascii_digit q1 = true
       /\ must_pass is_ascii_digit q2 = true.
Proof.
  split; [vm_compute; reflexivity|]. split; [vm_compute; reflexivity|].
  split; [vm_compute; lia|].
  exists (lit_matches true "4"), (charset_matches true false [SRange "0" "9"]).
  repeat split; vm_compute; reflexivity.
Qed.

Lemma pairwise_in {A : Type} (R : A -> A -> Prop) l x y :
  pairwise R l -> In x l -> In y l -> x = y \/ R x y \/ R y x.
Proof.
  induction 1 as [|z l Hz Hl IH]; intros Hx Hy; [contradiction|].
  rewrite List.Forall_forall in Hz.
  destruct Hx as [->|Hx], Hy as [->|Hy]; auto.
Qed.

Lemma hit_step_keeps text st h m :
  In m (fst st) -> In m (fst (hit_step text st h)).
Proof.
  destruct st as [ms seen], h as [[t conf] sp].
  unfold hit_step, detect_hit; simpl.
  destruct (negb _); simpl; [|auto]. intros H. apply in_or_app. auto.
Qed.

Lemma fold_hits_keeps text hs :
  forall st m, In m (fst st) -> In m (fst (fold_left (hit_step text) hs st)).
Proof.
  induction hs as [|h hs IH]; intros st m H; simpl; [assumption|].
  apply IH, hit_step_keeps, H.
Qed.

Lemma span_of_hit text h : span_of (match_of_hit text h) = snd h.
Proof. destruct h as [[t conf] [s e]]. reflexivity. Qed.

(** First accepted wins: a raw hit is kept, unless it overlaps a match
    that was kept before it. *)
Lemma hit_step_kept_or_blocked text st h :
  detect_inv st ->
  In (match_of_hit text h) (fst (hit_step text st h))
  \/ exists m, In m (fst st) /\ _spans_overlap (snd h) (span_of m) = true.
Proof.
  destruct st as [ms seen], h as [[t conf] sp]. intros [Hseen _].
  unfold hit_step, detect_hit; simpl in *.
  destruct (existsb _ seen) eqn:Hex; simpl.
  - right. apply existsb_exists in Hex. destruct Hex as (sp' & Hin & Hov).
    apply Hseen in Hin. apply in_map_iff in Hin.
    destruct Hin as (m & <- & Hm). eauto.
  - left. apply in_or_app. right. left. destruct sp; reflexivity.
Qed.

Lemma kept_or_blocked text hs1 h hs2 :
  let out := fst (fold_left (hit_step text) (hs1 ++ h :: hs2) ([], [])) in
  In (match_of_hit text h) out
  \/ exists h', In h' hs1 /\ In (match_of_hit text h') out
                /\ _spans_overlap (snd h) (snd h') = true.
Proof.
  intros out. unfold out. rewrite fold_left_app. simpl.
  set (st1 := fold_left (hit_step text) hs1 ([], [])).
  assert (Hinv : detect_inv st1).
  { apply fold_hits_inv. split; simpl; [tauto|constructor]. }
  destruct (hit_step_kept_or_blocked text st1 h Hinv) as [H|(m & Hm & Hov)].
  - left. apply fold_hits_keeps, H.
  - right. pose proof Hm as Hfrom. apply fold_hits_from in Hfrom.
    destruct Hfrom as [[]|(h' & Hh' & ->)].
    exists h'. split; [assumption|]. rewrite span_of_hit in Hov.
    split; [|assumption]. apply fold_hits_keeps, hit_step_keeps, Hm.
Qed.

Lemma detect_in text d m :
  In m (detect d text)
  <-> In m (fst (fold_left (hit_step text) (all_hits text d) ([], []))).
Proof.
  rewrite detect_unfold. split; intros H.
  - apply (Permutation_in _ (sort_asc_perm start _)), H.
  - apply (Permutation_in _ (Permutation_sym (sort_asc_perm start _))), H.
Qed.

Section Visa_detection.
Variable text : string.
Variable a : nat.
Hypothesis Hrun : visa_run_at text a = true.

(** The first payment-card rule matches the run, and the run only. *)
Lemma visa_match_at_run :
  match_at true text (pat_regex visa_pattern) a false = Some (a + 16).
Proof.
  destruct (run_parts text a Hrun) as (H4 & Hd & Ha & Hb).
  rewrite visa_regex. unfold match_at, pat_regex.
  rewrite re_match_seq, re_match_boundary by assumption.
  rewrite re_match_seq, re_match_four by assumption.
  rewrite re_match_seq, (re_match_digits _ _ 3 (S a) (a + 4))
    by (try lia; intros t Ht; replace (S a + t) with (a + S t) by lia; apply Hd; lia).
  rewrite re_match_seq, re_match_optional_separator by (apply Hd; lia).
  rewrite re_match_seq, (re_match_digits _ _ 4 (a + 4) (a + 8))
    by (try lia; intros t Ht; replace (a + 4 + t) with (a + (4 + t)) by lia; apply Hd; lia).
  rewrite re_match_seq, re_match_optional_separator by (apply Hd; lia).
  rewrite re_match_seq, (re_match_digits _ _ 4 (a + 8) (a + 12))
    by (try lia; intros t Ht; replace (a + 8 + t) with (a + (8 + t)) by lia; apply Hd; lia).
  rewrite re_match_seq, re_match_optional_separator by (apply Hd; lia).
  rewrite re_match_seq, (re_match_digits _ _ 4 (a + 12) (a + 16))
    by (try lia; intros t Ht; replace (a + 12 + t) with (a + (12 + t)) by lia; apply Hd; lia).
  rewrite re_match_boundary by assumption. reflexivity.
Qed.

Lemma visa_hit_exact s e :
  In (s, e) (finditer visa_pattern text) ->
  s < a + 16 -> a < e -> s = a /\ e = a + 16.
Proof.
  destruct visa_rule_shape as (Hb & Hc & _ & q1 & q2 & Hq1 & Hq2 & Hd1 & Hd2).
  intros Hin. rewrite visa_regex in *.
  eapply (digit_hit_exact text a Hrun (_, (98 # 100)%Q)); eauto.
Qed.

Lemma visa_hit_found : In (a, a + 16) (finditer visa_pattern text).
Proof.
  destruct visa_rule_shape as (_ & _ & Hmin & _).
  pose proof (run_in_text text a Hrun) as Hlen.
  assert (Hpi : pat_ignorecase visa_pattern = true)
    by (rewrite visa_regex; reflexivity).
  unfold finditer. rewrite Hpi.
  destruct (scan_covers true text (pat_regex visa_pattern) Hmin
              (2 * String.length text + 2) 0 a (a + 16) visa_match_at_run)
    as (s & e & Hin & Hs & He); try lia.
  assert (Hin' : In (s, e) (finditer visa_pattern text))
    by (unfold finditer; rewrite Hpi; exact Hin).
  destruct (visa_hit_exact s e Hin') as [-> ->]; try lia. exact Hin.
Qed.

(** The run is taken by the payment-card match, unless a match of a
    category that is scanned earlier overlaps it; then that match is an
    e-mail match. *)
Lemma visa_kept_or_email :
  In (visa_match text a) (detect default_detector text)
  \/ exists m, In m (detect default_detector text) /\ pii_type m = EMAIL
               /\ _spans_overlap (a, a + 16) (span_of m) = true.
Proof.
  destruct (in_split _ _ visa_hit_found) as (l1 & l2 & Hsplit).
  set (mk := fun span : nat * nat => (CREDIT_CARD, (98 # 100)%Q, span) : hit).
  set (earlier := (type_hits text (EMAIL, builtin_rules EMAIL)
                   ++ type_hits text (PHONE, builtin_rules PHONE)
                   ++ type_hits text (SSN, builtin_rules SSN)
                   ++ map mk l1)%list).
  assert (Hall : exists later,
             all_hits text default_detector
             = (earlier ++ mk (a, a + 16) :: later)%list).
  { unfold all_hits. rewrite default_entries. cbn [flat_map].
    unfold type_hits at 4. cbn [fst snd]. rewrite visa_first_rule.
    cbn [flat_map]. unfold rule_hits at 1. cbn [fst snd]. rewrite Hsplit.
    rewrite map_app. cbn [map]. fold mk. unfold earlier.
    eexists. rewrite <- !app_assoc. cbn [app]. reflexivity. }
  destruct Hall as (later & Hall).
  pose proof (kept_or_blocked text earlier (mk (a, a + 16)) later) as Hk.
  rewrite <- Hall in Hk. cbv zeta in Hk.
  destruct Hk as [Hk|(h' & Hh' & Hout & Hov)].
  - left. apply detect_in. exact Hk.
  - apply detect_in in Hout. cbn [snd mk] in Hov.
    destruct h' as [[t conf] [s e]]. cbn [snd] in Hov.
    assert (Hse : s < a + 16 /\ a < e).
    { unfold _spans_overlap in Hov. cbn [fst snd] in Hov.
      apply negb_true_iff, orb_false_iff in Hov.
      destruct Hov as [H1 H2]. apply Nat.leb_gt in H1, H2. lia. }
    unfold earlier in Hh'. rewrite !in_app_iff in Hh'.
    assert (Hshort : forall t0,
               forallb rule_short (builtin_rules t0) = true ->
               In (t, conf, (s, e)) (type_hits text (t0, builtin_rules t0)) ->
               False).
    { intros t0 Hs Hin. unfold type_hits in Hin. cbn [fst snd] in Hin.
      apply in_flat_map in Hin. destruct Hin as (rule & Hrule & Hin).
      unfold rule_hits in Hin. apply in_map_iff in Hin.
      destruct Hin as (sp & Heq & Hsp). injection Heq as _ _ ->.
      pose proof (builtin_rules_bounded t0) as Hb.
      rewrite forallb_forall in Hb, Hs.
      destruct (short_hit_misses text a Hrun rule s e (Hb _ Hrule) (Hs _ Hrule) Hsp);
        lia. }
    destruct Hh' as [Hin|[Hin|[Hin|Hin]]].
    + right. exists (match_of_hit text (t, conf, (s, e))).
      split; [assumption|]. split.
      * unfold type_hits in Hin. cbn [fst snd] in Hin.
        apply in_flat_map in Hin. destruct Hin as (rule & _ & Hin).
        unfold rule_hits in Hin. apply in_map_iff in Hin.
        destruct Hin as (sp & Heq & _). injection Heq as <- _ _. reflexivity.
      * rewrite span_of_hit. exact Hov.
    + exfalso. apply (Hshort PHONE); [apply phone_ssn_rules_short|assumption].
    + exfalso. apply (Hshort SSN); [apply phone_ssn_rules_short|assumption].
    + left. apply in_map_iff in Hin. destruct Hin as (sp & Heq & Hsp).
      unfold mk in Heq. injection Heq as <- <- ->.
      assert (Hin : In (s, e) (finditer visa_pattern text)).
      { rewrite Hsplit. apply in_or_app. left. assumption. }
      destruct (visa_hit_exact s e Hin) as [-> ->]; try lia. exact Hout.
Qed.

(** Every match of the default detector that overlaps the run covers
    it. *)
Lemma overlapping_match_covers m :
  In m (detect default_detector text) ->
  start m < a + 16 -> a < end_ m ->
  start m <= a /\ a + 16 <= end_ m.
Proof.
  intros Hm H1 H2. apply detect_from_hit in Hm.
  destruct Hm as ([[t conf] [s e]] & Hh & ->). cbn in H1, H2 |- *.
  apply in_all_hits in Hh. destruct Hh as (rules & p & Hin & Hp & Hsp).
  assert (Hrules : rules = builtin_rules t).
  { rewrite default_entries in Hin. cbn [In] in Hin.
    repeat (destruct Hin as [Hin|Hin];
            [injection Hin as <- <-; reflexivity|]). contradiction. }
  subst rules. pose proof (builtin_rules_bounded t) as Hb.
  rewrite forallb_forall in Hb.
  destruct (bounded_hit_covers text a Hrun (p, conf) s e (Hb _ Hp) Hsp H1 H2)
    as (Hs & He & _). auto.
Qed.
End Visa_detection.

(** C5, as amended. For every text that holds a 16-digit Visa-shaped
    number (a bare run of 16 digits beginning with 4, between word
    boundaries), the detector with all built-in categories returns no
    bank-account match that overlaps the run, and it returns the
    payment-card match of exactly that span unless an e-mail match overlaps
    the run: e-mail is scanned before payment-card, and a candidate is
    dropped when it overlaps a span accepted before it. *)
Theorem visa_run_detection (text : string) (a : nat) :
  visa_run_at text a = true ->
  (forall m, In m (detect default_detector text) ->
             pii_type m = BANK_ACCOUNT ->
             end_ m <= a \/ a + 16 <= start m)
  /\ ((forall m, In m (detect default_detector text) ->
                 pii_type m = EMAIL ->
                 end_ m <= a \/ a + 16 <= start m) ->
      In (visa_match text a) (detect default_detector text)).
Proof.
  intros Hrun.
  assert (Hov : forall m, _spans_overlap (a, a + 16) (span_of m) = true ->
                          start m < a + 16 /\ a < end_ m).
  { intros m H. unfold _spans_overlap, span_of in H. cbn [fst snd] in H.
    apply negb_true_iff, orb_false_iff in H.
    destruct H as [H1 H2]. apply Nat.leb_gt in H1, H2. lia. }
  split.
  - intros m Hm Ht.
    destruct (Nat.le_gt_cases (end_ m) a) as [|H2]; [auto|].
    destruct (Nat.le_gt_cases (a + 16) (start m)) as [|H1]; [auto|]. exfalso.
    destruct (overlapping_match_covers text a Hrun m Hm H1 H2) as [Hs He].
    pose proof (detect_pairwise default_detector text) as Hpw.
    destruct (visa_kept_or_email text a Hrun) as [Hv|(m' & Hm' & Ht' & Ho)].
    + destruct (pairwise_in _ _ _ _ Hpw Hm Hv) as [Heq|[Hd|Hd]].
      * rewrite Heq in Ht. discriminate.
      * unfold disjoint_matches, visa_match in Hd. cbn in Hd. lia.
      * unfold disjoint_matches, visa_match in Hd. cbn in Hd. lia.
    + destruct (Hov m' Ho) as [H1' H2'].
      destruct (overlapping_match_covers text a Hrun m' Hm' H1' H2') as [Hs' He'].
      destruct (pairwise_in _ _ _ _ Hpw Hm Hm') as [Heq|[Hd|Hd]].
      * rewrite Heq in Ht. congruence.
      * unfold disjoint_matches in Hd. lia.
      * unfold disjoint_matches in Hd. lia.
  - intros Hmail.
    destruct (visa_kept_or_email text a Hrun) as [Hv|(m' & Hm' & Ht' & Ho)];
      [assumption|].
    destruct (Hov m' Ho) as [H1 H2]. specialize (Hmail m' Hm' Ht'). lia.
Qed.

(** C5 as amended, at a text with one card number. *)
Lemma visa_run_detection_witness :
  (forall m, In m (detect default_detector "pay 4111111111111111 now") ->
             pii_type m = BANK_ACCOUNT ->
             end_ m <= 4 \/ 4 + 16 <= start m)
  /\ ((forall m, In m (detect default_detector "pay 4111111111111111 now") ->
                 pii_type m = EMAIL ->
                 end_ m <= 4 \/ 4 + 16 <= start m) ->
      In (visa_match "pay 4111111111111111 now" 4)
        (detect default_detector "pay 4111111111111111 now")).
Proof.
  apply (visa_run_detection "pay 4111111111111111 now" 4).
  vm_compute. reflexivity.
Defined.

(** C5, as stated, fails: in ["4111111111111111@example.com"] the 16
    digits are a Visa-shaped run between word boundaries, and the only
    match returned is the e-mail match; no payment-card match covers the
    run. *)
Lemma visa_run_taken_by_email :
  visa_run_at "4111111111111111@example.com" 0 = true
  /\ detect default_detector "4111111111111111@example.com"
     = [mkMatch EMAIL "4111111111111111@example.com" 0 28 (99 # 100)]
  /\ ~ (exists m,
          In m (detect default_detector "4111111111111111@example.com")
          /\ pii_type m = CREDIT_CARD /\ start m <= 0 /\ 0 + 16 <= end_ m).
Proof.
  assert (Hd : detect default_detector "4111111111111111@example.com"
               = [mkMatch EMAIL "4111111111111111@example.com" 0 28 (99 # 100)])
    by (vm_compute; reflexivity).
  split; [vm_compute; reflexivity|]. split; [exact Hd|].
  intros (m & Hm & Ht & _). rewrite Hd in Hm.
  destruct Hm as [<-|[]]. discriminate.
Qed.

(** * Further properties *)

(** ** More on the detection loop *)

Lemma pairwise_nth_lt {A : Type} (R : A -> A -> Prop) l :
  pairwise R l ->
  forall i j x y, i < j -> nth_error l i = Some x -> nth_error l j = Some y ->
                  R x y.
Proof.
  induction 1 as [|z l Hz Hl IH]; intros i j x y Hij Hi Hj.
  - destruct i; discriminate.
  - destruct j as [|j]; [lia|]. destruct i as [|i]; simpl in *.
    + injection Hi as <-. rewrite List.Forall_forall in Hz.
      apply Hz. exact (List.nth_error_In _ _ Hj).
    + apply (IH i j x y); [lia|assumption|assumption].
Qed.

(** [detect] returns its matches by ascending start offset: an entry never
    starts after one that follows it in the list. *)
Theorem detect_sorted_by_start (d : RegexDetector) (text : string) :
  forall i j m1 m2,
    i < j ->
    nth_error (detect d text) i = Some m1 ->
    nth_error (detect d text) j = Some m2 ->
    start m1 <= start m2.
Proof.
  intros i j m1 m2 Hij H1 H2.
  exact (pairwise_nth_lt _ _ (detect_sorted d text) i j m1 m2 Hij H1 H2).
Qed.

Lemma detect_sorted_by_start_witness : 8 <= 32.
Proof.
  apply (detect_sorted_by_start default_detector
           "Contact john@example.com or call 555-123-4567" 0 1
           (mkMatch EMAIL "john@example.com" 8 24 (99 # 100))
           (mkMatch PHONE " 555-123-4567" 32 45 (95 # 100))).
  - lia.
  - vm_compute. reflexivity.
  - vm_compute. reflexivity.
Defined.

(** Every match a rule of the detector finds in the text is either
    returned by [detect], with the category of its entry and the confidence
    of its rule, or overlaps a match that [detect] returns: a candidate is
    only ever dropped for an overlap. *)
Theorem detect_keeps_or_blocks (d : RegexDetector) (text : string)
    (t : PIIType) (rules : list (Pattern * Q)) (p : Pattern) (conf : Q)
    (s e : nat) :
  In (t, rules) (_compiled_patterns d) ->
  In (p, conf) rules ->
  In (s, e) (finditer p text) ->
  In (mkMatch t (str_slice s e text) s e conf) (detect d text)
  \/ exists m, In m (detect d text) /\ _spans_overlap (s, e) (span_of m) = true.
Proof.
  intros Ht Hp Hsp.
  assert (Hh : In (t, conf, (s, e)) (all_hits text d)).
  { apply in_all_hits. exists rules, p. auto. }
  destruct (in_split _ _ Hh) as (hs1 & hs2 & Heq).
  pose proof (kept_or_blocked text hs1 (t, conf, (s, e)) hs2) as Hk.
  cbv zeta in Hk.
  destruct Hk as [Hk|(h' & _ & Hin & Hov)].
  - left. apply detect_in. rewrite Heq. exact Hk.
  - right. exists (match_of_hit text h'). split.
    + apply detect_in. rewrite Heq. exact Hin.
    + rewrite span_of_hit. exact Hov.
Qed.

Lemma detect_keeps_or_blocks_witness :
  In (mkMatch EMAIL (str_slice 3 9 "to a@b.cd!") 3 9 (99 # 100))
     (detect default_detector "to a@b.cd!")
  \/ exists m, In m (detect default_detector "to a@b.cd!")
               /\ _spans_overlap (3, 9) (span_of m) = true.
Proof.
  apply (detect_keeps_or_blocks default_detector "to a@b.cd!" EMAIL
           (builtin_rules EMAIL)
           (fst (hd (mkPattern Empty false, 0%Q) (builtin_rules EMAIL)))
           (99 # 100) 3 9).
  - vm_compute. left. reflexivity.
  - vm_compute. left. reflexivity.
  - vm_compute. left. reflexivity.
Defined.

(** Every match that [detect] returns was found by a rule of the
    detector: its category is a key of the compiled dictionary, its
    confidence is the one registered with a rule of that category, and its
    span is one that rule's [finditer] yields on the text. *)
Theorem detect_match_provenance (d : RegexDetector) (text : string)
    (m : PIIMatch) :
  In m (detect d text) ->
  exists rules p,
    In (pii_type m, rules) (_compiled_patterns d)
    /\ In (p, confidence m) rules
    /\ In (start m, end_ m) (finditer p text).
Proof.
  intros Hm.
  destruct (detect_from_hit d text m Hm) as ([[t conf] sp] & Hh & ->).
  apply in_all_hits in Hh. destruct Hh as (rules & p & H1 & H2 & H3).
  exists rules, p. simpl. destruct sp; auto.
Qed.

Lemma detect_match_provenance_witness :
  exists rules p,
    In (EMAIL, rules) (_compiled_patterns default_detector)
    /\ In (p, 99 # 100) rules
    /\ In (3, 9) (finditer p "to a@b.cd!").
Proof.
  apply (detect_match_provenance default_detector "to a@b.cd!"
           (mkMatch EMAIL "a@b.cd" 3 9 (99 # 100))).
  vm_compute. left. reflexivity.
Defined.

(** ** The constructor's filter *)

Lemma compile_patterns_keys types :
  forall acc res,
    _compile_patterns types acc = Ok res ->
    forall t rules, In (t, rules) res ->
      (In t types /\ dict_get t PATTERNS <> None) \/ In (t, rules) acc.
Proof.
  induction types as [|ty types IH]; intros acc res Hres t rules Hin.
  - injection Hres as <-. auto.
  - change (_compile_patterns (ty :: types) acc)
      with (match dict_get ty PATTERNS with
            | Some rules0 =>
                ps ← compile_rules rules0;
                _compile_patterns types (dict_set ty ps acc)
            | None => _compile_patterns types acc
            end) in Hres.
    destruct (dict_get ty PATTERNS) as [rules0|] eqn:Hget.
    + destruct (compile_rules rules0) as [ps|e]; [|discriminate].
      cbn [mbind outcome_bind] in Hres.
      destruct (IH _ _ Hres t rules Hin) as [[H1 H2]|H].
      * left. split; [right; exact H1|exact H2].
      * apply in_dict_set in H. destruct H as [[-> _]|H]; [|auto].
        left. split; [left; reflexivity|congruence].
    + destruct (IH _ _ Hres t rules Hin) as [[H1 H2]|H]; [|auto].
      left. split; [right; exact H1|exact H2].
Qed.

Lemma init_keys enabled d t rules :
  RegexDetector_init enabled = Ok d ->
  In (t, rules) (_compiled_patterns d) ->
  In t (enabled_or_all enabled) /\ dict_get t PATTERNS <> None.
Proof.
  unfold RegexDetector_init. intros Hd Hin.
  destruct (_compile_patterns (enabled_or_all enabled) []) as [res|e] eqn:Hc;
    [|discriminate].
  cbn [mbind outcome_bind] in Hd. injection Hd as <-. simpl in Hin.
  destruct (compile_patterns_keys _ _ _ Hc t rules Hin) as [H|[]]. exact H.
Qed.

Lemma with_rules t : dict_get t PATTERNS <> None -> ~ In t without_rules.
Proof.
  intros Hget Hin. apply Hget.
  destruct Hin as [<-|[<-|[<-|[]]]]; reflexivity.
Qed.

(** A detector built by the constructor returns matches of the enabled
    categories only, and never of a category that [PATTERNS] has no rule
    for ([ADDRESS], [NAME], [CUSTOM]), whether enabled or not. *)
Theorem detect_only_enabled_types (enabled : option (list PIIType))
    (d : RegexDetector) (text : string) (m : PIIMatch) :
  RegexDetector_init enabled = Ok d ->
  In m (detect d text) ->
  In (pii_type m) (enabled_or_all enabled) /\ ~ In (pii_type m) without_rules.
Proof.
  intros Hd Hm.
  destruct (detect_from_hit d text m Hm) as ([[t conf] sp] & Hh & ->).
  apply in_all_hits in Hh. destruct Hh as (rules & p & H1 & _).
  destruct (init_keys enabled d t rules Hd H1) as [Hen Hget].
  split; [exact Hen|apply with_rules, Hget].
Qed.

Lemma detect_only_enabled_types_witness :
  In EMAIL (enabled_or_all (Some [NAME; EMAIL])) /\ ~ In EMAIL without_rules.
Proof.
  apply (detect_only_enabled_types (Some [NAME; EMAIL])
           (mkDetector [NAME; EMAIL] [(EMAIL, builtin_rules EMAIL)])
           "to a@b.cd or 10.0.0.1"
           (mkMatch EMAIL "a@b.cd" 3 9 (99 # 100))).
  - vm_compute. reflexivity.
  - vm_compute. left. reflexivity.
Defined.

(** ** Adding a custom rule *)

Lemma dict_get_app_absent {V : Type} k (b t : list (PIIType * V)) :
  Forall (fun e => fst e <> k) b -> dict_get k (b ++ t) = dict_get k t.
Proof.
  induction 1 as [|[k' v'] b Hk _ IH]; simpl; auto.
  destruct (decide (k = k')) as [->|]; [exfalso; apply Hk; reflexivity|auto].
Qed.

Lemma dict_set_app_absent {V : Type} k (v : V) (b t : list (PIIType * V)) :
  Forall (fun e => fst e <> k) b ->
  dict_set k v (b ++ t) = (b ++ dict_set k v t)%list.
Proof.
  induction 1 as [|[k' v'] b Hk _ IH]; simpl; auto.
  destruct (decide (k = k')) as [->|]; [exfalso; apply Hk; reflexivity|].
  rewrite IH. reflexivity.
Qed.

Lemma init_custom_last enabled d :
  RegexDetector_init enabled = Ok d -> custom_last (_compiled_patterns d).
Proof.
  intros Hd. exists (_compiled_patterns d), [].
  rewrite app_nil_r. split; [reflexivity|]. split; [|left; reflexivity].
  rewrite List.Forall_forall. intros [t rules] Hin.
  destruct (init_keys enabled d t rules Hd Hin) as [_ Hget].
  simpl. intros ->. apply Hget. reflexivity.
Qed.

(** What [add_custom_pattern] does to a dictionary whose [custom] entry
    is last: the entry, made if missing, gains the rule at its end. *)
Lemma add_custom_compiled d name pattern conf :
  custom_last (_compiled_patterns d) ->
  exists builtin rules,
    Forall (fun e => fst e <> CUSTOM) builtin
    /\ (_compiled_patterns d = builtin /\ rules = []
        \/ _compiled_patterns d = (builtin ++ [(CUSTOM, rules)])%list)
    /\ _compiled_patterns (fst (add_custom_pattern d name pattern conf))
       = (builtin
          ++ [(CUSTOM,
               match re_compile pattern false with
               | Ok p => (rules ++ [(p, conf)])%list
               | Raise _ => rules
               end)])%list.
Proof.
  intros (b & tl & Heq & Hb & Htl).
  destruct Htl as [->|[rules ->]].
  - rewrite app_nil_r in Heq. exists b, []. split; [exact Hb|].
    split; [left; auto|].
    unfold add_custom_pattern, add_custom_pattern_with. rewrite Heq.
    assert (Hnone : dict_get CUSTOM b = None).
    { rewrite <- (app_nil_r b), (dict_get_app_absent CUSTOM b [] Hb).
      reflexivity. }
    rewrite Hnone, (dict_set_absent CUSTOM [] b Hnone).
    destruct (re_compile pattern false) as [p|e]; simpl; [|reflexivity].
    rewrite (dict_get_app_absent CUSTOM b _ Hb),
            (dict_set_app_absent CUSTOM _ b _ Hb).
    simpl. destruct (decide (CUSTOM = CUSTOM)); [reflexivity|congruence].
  - exists b, rules. split; [exact Hb|]. split; [right; exact Heq|].
    unfold add_custom_pattern, add_custom_pattern_with. rewrite Heq.
    assert (Hsome : dict_get CUSTOM (b ++ [(CUSTOM, rules)]) = Some rules).
    { rewrite (dict_get_app_absent CUSTOM b _ Hb). simpl.
      destruct (decide (CUSTOM = CUSTOM)); [reflexivity|congruence]. }
    rewrite Hsome.
    destruct (re_compile pattern false) as [p|e]; simpl; [|reflexivity].
    rewrite Hsome, (dict_set_app_absent CUSTOM _ b _ Hb).
    simpl. destruct (decide (CUSTOM = CUSTOM)); [reflexivity|congruence].
Qed.

Lemma add_custom_last d name pattern conf :
  custom_last (_compiled_patterns d) ->
  custom_last (_compiled_patterns (fst (add_custom_pattern d name pattern conf))).
Proof.
  intros H.
  destruct (add_custom_compiled d name pattern conf H) as (b & rules & Hb & _ & ->).
  exists b. eexists. split; [reflexivity|]. split; [exact Hb|].
  right. eexists. reflexivity.
Qed.

Lemma reachable_custom_last d :
  reachable d -> custom_last (_compiled_patterns d).
Proof.
  induction 1 as [enabled d Hd|d name pattern conf _ _ IH].
  - exact (init_custom_last enabled d Hd).
  - exact (add_custom_last d name pattern conf IH).
Qed.

(** The raw hits after a successful [add_custom_pattern]: those of
    before, then those of the new rule. *)
Lemma add_custom_hits d name pattern conf p text :
  custom_last (_compiled_patterns d) ->
  re_compile pattern false = Ok p ->
  all_hits text (fst (add_custom_pattern d name pattern conf))
  = (all_hits text d ++ rule_hits text CUSTOM (p, conf))%list.
Proof.
  intros H Hp.
  destruct (add_custom_compiled d name pattern conf H)
    as (b & rules & Hb & Hd & Hnew).
  unfold all_hits. rewrite Hnew, Hp.
  assert (Hone : forall rs : list (Pattern * Q),
            flat_map (type_hits text) [(CUSTOM, rs)]
            = flat_map (rule_hits text CUSTOM) rs).
  { intros rs. simpl. rewrite app_nil_r. reflexivity. }
  rewrite flat_map_app, Hone, flat_map_app. simpl. rewrite app_nil_r.
  destruct Hd as [[Hd Hr] | Hd]; rewrite Hd.
  - rewrite Hr. reflexivity.
  - rewrite flat_map_app, Hone, app_assoc. reflexivity.
Qed.

(** On a detector the interface builds from patterns of the interpreted
    syntax, an [add_custom_pattern] call that returns, its pattern being
    one that [re_compile] compiles, only adds to what [detect] returns:
    every match returned before is still returned, and every new match
    has the category [CUSTOM], the confidence given, and a span that the
    new pattern, compiled without flags, yields on the text. *)
Theorem add_custom_pattern_only_adds (d : RegexDetector)
    (name pattern : string) (conf : Q) (text : string) (m : PIIMatch) :
  reachable d ->
  snd (add_custom_pattern d name pattern conf) = Ok tt ->
  (In m (detect d text) ->
   In m (detect (fst (add_custom_pattern d name pattern conf)) text))
  /\ (In m (detect (fst (add_custom_pattern d name pattern conf)) text) ->
      In m (detect d text)
      \/ (pii_type m = CUSTOM /\ confidence m = conf
          /\ exists p, re_compile pattern false = Ok p
                       /\ In (start m, end_ m) (finditer p text))).
Proof.
  intros Hr Hok.
  assert (Hp : exists p, re_compile pattern false = Ok p).
  { unfold add_custom_pattern, add_custom_pattern_with in Hok.
    destruct (re_compile pattern false) as [p|e]; [eauto|discriminate]. }
  destruct Hp as [p Hp].
  pose proof (add_custom_hits d name pattern conf p text
                (reachable_custom_last d Hr) Hp) as Hhits.
  rewrite !detect_in, Hhits, fold_left_app. split.
  - apply fold_hits_keeps.
  - intros Hm. apply fold_hits_from in Hm.
    destruct Hm as [Hm|(h & Hh & ->)]; [left; exact Hm|right].
    unfold rule_hits in Hh. apply in_map_iff in Hh.
    destruct Hh as ([s e] & <- & Hsp). simpl.
    split; [reflexivity|]. split; [reflexivity|]. exists p. auto.
Qed.

Lemma add_custom_pattern_only_adds_witness :
  (In (mkMatch CUSTOM "abc" 2 5 (4 # 5)) (detect default_detector "x abc") ->
   In (mkMatch CUSTOM "abc" 2 5 (4 # 5)) (detect abc_detector "x abc"))
  /\ (In (mkMatch CUSTOM "abc" 2 5 (4 # 5)) (detect abc_detector "x abc") ->
      In (mkMatch CUSTOM "abc" 2 5 (4 # 5)) (detect default_detector "x abc")
      \/ (CUSTOM = CUSTOM /\ (4 # 5)%Q = (4 # 5)%Q
          /\ exists p, re_compile "abc" false = Ok p
                       /\ In (2, 5) (finditer p "x abc"))).
Proof.
  apply (add_custom_pattern_only_adds default_detector "abc" "abc" (4 # 5)
           "x abc" (mkMatch CUSTOM "abc" 2 5 (4 # 5))).
  - apply (reachable_init None). vm_compute. reflexivity.
  - vm_compute. reflexivity.
Defined.

(** ** The built-in rules and letter case *)

Lemma lower_or_upper c : c = sre_lower c \/ c = sre_upper (sre_lower c).
Proof. destruct c as [[] [] [] [] [] [] [] []]; vm_compute; auto. Qed.

Lemma upper_of_lower c : sre_upper c = sre_upper (sre_lower c).
Proof. destruct c as [[] [] [] [] [] [] [] []]; vm_compute; reflexivity. Qed.

Lemma isword_lower c : uni_isword c = uni_isword (sre_lower c).
Proof. destruct c as [[] [] [] [] [] [] [] []]; vm_compute; reflexivity. Qed.

Lemma isdecimal_lower c : uni_isdecimal c = uni_isdecimal (sre_lower c).
Proof. destruct c as [[] [] [] [] [] [] [] []]; vm_compute; reflexivity. Qed.

Lemma isspace_lower c : uni_isspace c = uni_isspace (sre_lower c).
Proof. destruct c as [[] [] [] [] [] [] [] []]; vm_compute; reflexivity. Qed.

Lemma newline_lower c : is_code 10 c = is_code 10 (sre_lower c).
Proof. destruct c as [[] [] [] [] [] [] [] []]; vm_compute; reflexivity. Qed.

Lemma case_blind_by_lower (p : ascii -> bool) :
  (forall c, p c = p (sre_lower c)) -> case_blind p.
Proof. intros H c1 c2 Heq. rewrite (H c1), (H c2), Heq. reflexivity. Qed.

Lemma category_case_blind neg kd :
  case_blind (fun c => xorb neg (category_matches kd c)).
Proof.
  apply case_blind_by_lower. intros c. f_equal.
  destruct kd; simpl;
    [apply isdecimal_lower|apply isspace_lower|apply isword_lower].
Qed.

Lemma anychar_case_blind : case_blind (fun c => negb (is_code 10 c)).
Proof. apply case_blind_by_lower. intros c. f_equal. apply newline_lower. Qed.

Lemma lit_case_blind x : case_blind (lit_matches true x).
Proof.
  assert (H : forall c, lit_matches true x c
                        = Ascii.eqb (sre_lower x) (sre_lower c)).
  { intros c. unfold lit_matches. simpl.
    destruct (Ascii.eqb x c) eqn:E; [|reflexivity].
    apply Ascii.eqb_eq in E. subst. simpl. symmetry. apply Ascii.eqb_refl. }
  intros c1 c2 Heq. rewrite (H c1), (H c2), Heq. reflexivity.
Qed.

Lemma charset_case_blind neg items : case_blind (charset_matches true neg items).
Proof.
  assert (H : forall c,
            charset_matches true neg items c
            = xorb neg (set_matches items (sre_lower c)
                        || set_matches items (sre_upper (sre_lower c)))).
  { intros c. unfold charset_matches. simpl. f_equal.
    rewrite <- (upper_of_lower c).
    destruct (lower_or_upper c) as [E|E].
    - rewrite <- E.
      destruct (set_matches items c), (set_matches items (sre_upper c));
        reflexivity.
    - rewrite <- (upper_of_lower c) in E. rewrite <- E.
      destruct (set_matches items c), (set_matches items (sre_lower c));
        reflexivity. }
  intros c1 c2 Heq. rewrite (H c1), (H c2), Heq. reflexivity.
Qed.

Lemma same_letters_length a :
  forall b, same_letters a b = true -> String.length a = String.length b.
Proof.
  induction a as [|x a IH]; intros [|y b] H; simpl in *;
    try discriminate; auto.
  apply andb_true_iff in H. destruct H as [_ H]. f_equal. auto.
Qed.

Lemma same_letters_get a :
  forall b i, same_letters a b = true ->
    match String.get i a, String.get i b with
    | Some c1, Some c2 => sre_lower c1 = sre_lower c2
    | None, None => True
    | _, _ => False
    end.
Proof.
  induction a as [|x a IH]; intros [|y b] i H; simpl in *;
    try discriminate.
  - destruct i; exact I.
  - apply andb_true_iff in H. destruct H as [Hx H].
    destruct i as [|i]; [apply Ascii.eqb_eq, Hx|apply IH, H].
Qed.

Section Case_folding.
Variable text1 : string.
Variable text2 : string.
Hypothesis Hsame : same_letters text1 text2 = true.

Lemma fold_length : String.length text1 = String.length text2.
Proof. exact (same_letters_length _ _ Hsame). Qed.

Lemma fold_test p i :
  case_blind p ->
  match char_at text1 i with Some c => p c | None => false end
  = match char_at text2 i with Some c => p c | None => false end.
Proof.
  intros Hp. unfold char_at.
  pose proof (same_letters_get text1 text2 i Hsame) as H.
  destruct (String.get i text1), (String.get i text2);
    try contradiction; auto.
Qed.

Lemma fold_char_step p i k :
  case_blind p -> char_step text1 p i k = char_step text2 p i k.
Proof.
  intros Hp. unfold char_step, char_at.
  pose proof (same_letters_get text1 text2 i Hsame) as H.
  destruct (String.get i text1), (String.get i text2);
    try contradiction; auto.
  rewrite (Hp _ _ H). reflexivity.
Qed.

Lemma fold_is_word_at i : is_word_at text1 i = is_word_at text2 i.
Proof.
  unfold is_word_at. apply (fold_test uni_isword).
  apply case_blind_by_lower, isword_lower.
Qed.

Lemma fold_at_matches a i : at_matches text1 a i = at_matches text2 a i.
Proof.
  unfold at_matches, word_before. rewrite fold_length.
  rewrite (fold_test (is_code 10) i
             (case_blind_by_lower _ newline_lower)).
  rewrite (fold_is_word_at i).
  destruct i as [|j]; [reflexivity|].
  rewrite (fold_is_word_at j). reflexivity.
Qed.

Lemma fold_until mb1 mb2 lo hi k :
  (forall i k0, mb1 i k0 = mb2 i k0) ->
  (forall i k0 k1, (forall j, k0 j = k1 j) -> mb2 i k0 = mb2 i k1) ->
  forall fuel count last i,
    until mb1 lo hi k fuel count last i = until mb2 lo hi k fuel count last i.
Proof.
  intros Hmb Hext.
  induction fuel as [|fuel IH]; intros count last i; simpl; [reflexivity|].
  rewrite !Hmb.
  rewrite (Hext i (fun j => until mb1 lo hi k fuel (S count) last j)
             (fun j => until mb2 lo hi k fuel (S count) last j))
    by (intros j; apply IH).
  rewrite (Hext i (fun j => until mb1 lo hi k fuel (S count) (Some i) j)
             (fun j => until mb2 lo hi k fuel (S count) (Some i) j))
    by (intros j; apply IH).
  reflexivity.
Qed.

Lemma re_match_ext text r i k k' :
  (forall j, k j = k' j) -> re_match true text r i k = re_match true text r i k'.
Proof. intros H. apply re_match_local. intros j _ _. apply H. Qed.

(** Under [IGNORECASE] the matcher does not tell the two texts apart. *)
Lemma fold_re_match r :
  forall i k, re_match true text1 r i k = re_match true text2 r i k.
Proof.
  induction r as [x| |neg kd|neg items|a| |r1 IH1 r2 IH2|r1 IH1 r2 IH2
                  |lo hi body IH]; intros i k; simpl.
  - apply fold_char_step, lit_case_blind.
  - apply fold_char_step, anychar_case_blind.
  - apply fold_char_step, category_case_blind.
  - apply fold_char_step, charset_case_blind.
  - rewrite fold_at_matches. reflexivity.
  - reflexivity.
  - rewrite IH1. apply re_match_ext. intros j. apply IH2.
  - rewrite IH1, IH2. reflexivity.
  - rewrite fold_length. apply fold_until.
    + exact IH.
    + intros j k0 k1 H. apply re_match_ext, H.
Qed.

Lemma fold_match_at r i ma :
  match_at true text1 r i ma = match_at true text2 r i ma.
Proof. unfold match_at. apply fold_re_match. Qed.

Lemma fold_search_from r n :
  forall s ma,
    search_from true text1 r n s ma = search_from true text2 r n s ma.
Proof.
  induction n as [|n IH]; intros s ma; simpl; rewrite fold_match_at;
    [reflexivity|].
  rewrite IH. reflexivity.
Qed.

Lemma fold_search r pos ma :
  search true text1 r pos ma = search true text2 r pos ma.
Proof. unfold search. rewrite fold_length, fold_search_from. reflexivity. Qed.

Lemma fold_scan r fuel :
  forall pos ma, scan true text1 r fuel pos ma = scan true text2 r fuel pos ma.
Proof.
  induction fuel as [|fuel IH]; intros pos ma; simpl; [reflexivity|].
  rewrite fold_search. destruct (search true text2 r pos ma) as [[s e]|];
    [|reflexivity].
  rewrite IH. reflexivity.
Qed.

Lemma fold_finditer p :
  pat_ignorecase p = true -> finditer p text1 = finditer p text2.
Proof.
  intros Hp. unfold finditer. rewrite Hp, fold_length. apply fold_scan.
Qed.

Lemma fold_all_hits d :
  (forall t rules p conf,
      In (t, rules) (_compiled_patterns d) -> In (p, conf) rules ->
      pat_ignorecase p = true) ->
  all_hits text1 d = all_hits text2 d.
Proof.
  intros H. unfold all_hits.
  induction (_compiled_patterns d) as [|[t rules] cps IH]; simpl;
    [reflexivity|].
  rewrite IH by (intros; eapply H; [right|]; eassumption).
  f_equal. unfold type_hits. simpl.
  assert (Hr : forall p conf, In (p, conf) rules -> pat_ignorecase p = true).
  { intros p conf Hin. apply (H t rules p conf); [left; reflexivity|exact Hin]. }
  clear H IH. induction rules as [|[p conf] rules IHr]; simpl; [reflexivity|].
  rewrite IHr by (intros; eapply Hr; right; eassumption).
  f_equal. unfold rule_hits. simpl.
  rewrite (fold_finditer p) by (apply (Hr p conf); left; reflexivity).
  reflexivity.
Qed.

Lemma fold_hit_step st1 st2 h :
  map match_shape (fst st1) = map match_shape (fst st2) ->
  snd st1 = snd st2 ->
  map match_shape (fst (hit_step text1 st1 h))
  = map match_shape (fst (hit_step text2 st2 h))
  /\ snd (hit_step text1 st1 h) = snd (hit_step text2 st2 h).
Proof.
  destruct st1 as [ms1 seen1], st2 as [ms2 seen2], h as [[t conf] sp].
  simpl. intros Hms <-. unfold hit_step, detect_hit. simpl.
  destruct (existsb _ seen1); simpl; [auto|].
  rewrite !map_app, Hms. auto.
Qed.

Lemma fold_hits hs :
  forall st1 st2,
    map match_shape (fst st1) = map match_shape (fst st2) ->
    snd st1 = snd st2 ->
    map match_shape (fst (fold_left (hit_step text1) hs st1))
    = map match_shape (fst (fold_left (hit_step text2) hs st2)).
Proof.
  induction hs as [|h hs IH]; intros st1 st2 H1 H2; simpl; [exact H1|].
  destruct (fold_hit_step st1 st2 h H1 H2) as [H1' H2'].
  apply IH; assumption.
Qed.
End Case_folding.

Lemma insert_asc_map {A B : Type} (f : A -> B) key key' x l :
  (forall a, key a = key' (f a)) ->
  map f (insert_asc key x l) = insert_asc key' (f x) (map f l).
Proof.
  intros H. induction l as [|y l IH]; simpl; [reflexivity|].
  rewrite <- !H. destruct (key x <=? key y); simpl; [reflexivity|].
  rewrite IH. reflexivity.
Qed.

Lemma sort_asc_map {A B : Type} (f : A -> B) key key' l :
  (forall a, key a = key' (f a)) ->
  map f (sort_asc key l) = sort_asc key' (map f l).
Proof.
  intros H. induction l as [|x l IH]; simpl; [reflexivity|].
  rewrite (insert_asc_map f key key' _ _ H), IH. reflexivity.
Qed.

Lemma compile_rules_ignorecase rules :
  forall ps, compile_rules rules = Ok ps ->
             forall p conf, In (p, conf) ps -> pat_ignorecase p = true.
Proof.
  induction rules as [|[pattern c] rules IH]; intros ps Hps p conf Hin.
  - injection Hps as <-. destruct Hin.
  - simpl in Hps. unfold re_compile in Hps.
    destruct (re_parse pattern) as [r|e]; [|discriminate].
    cbn [mbind outcome_bind] in Hps.
    destruct (compile_rules rules) as [ps'|e]; [|discriminate].
    cbn [mbind outcome_bind] in Hps. injection Hps as <-.
    destruct Hin as [Hin|Hin].
    + injection Hin as <- _. reflexivity.
    + exact (IH ps' eq_refl p conf Hin).
Qed.

Lemma builtin_rules_ignorecase t p conf :
  In (p, conf) (builtin_rules t) -> pat_ignorecase p = true.
Proof.
  unfold builtin_rules.
  destruct (dict_get t PATTERNS) as [rules|]; [|intros []].
  destruct (compile_rules rules) as [ps|e] eqn:Hc; [|intros []].
  apply (compile_rules_ignorecase rules ps Hc).
Qed.

(** The built-in rules are blind to letter case: on two texts that differ
    by the case of their letters only, a detector built by the constructor
    returns matches of the same categories, at the same offsets and with
    the same confidences, in the same order. *)
Theorem builtin_detection_ignores_case (enabled : option (list PIIType))
    (d : RegexDetector) (text1 text2 : string) :
  RegexDetector_init enabled = Ok d ->
  same_letters text1 text2 = true ->
  map match_shape (detect d text1) = map match_shape (detect d text2).
Proof.
  intros Hd Hsame.
  assert (Hic : forall t rules p conf,
             In (t, rules) (_compiled_patterns d) -> In (p, conf) rules ->
             pat_ignorecase p = true).
  { intros t rules p conf Ht Hp.
    destruct (init_builtin enabled d Hd t rules Ht) as [->| ->].
    - destruct (init_keys enabled d CUSTOM rules Hd Ht) as [_ Hget].
      exfalso. apply Hget. reflexivity.
    - exact (builtin_rules_ignorecase t p conf Hp). }
  rewrite !detect_unfold.
  rewrite !(sort_asc_map match_shape start (fun sh => snd (fst (fst sh))))
    by reflexivity.
  f_equal. rewrite (fold_all_hits text1 text2 Hsame d Hic).
  apply fold_hits; reflexivity.
Qed.

Lemma builtin_detection_ignores_case_witness :
  map match_shape (detect default_detector "Mail JOHN@Example.COM")
  = map match_shape (detect default_detector "mail john@example.com").
Proof.
  apply (builtin_detection_ignores_case None default_detector).
  - vm_compute. reflexivity.
  - vm_compute. reflexivity.
Defined.

(** ** The substitution cache, continued *)

Section Cache_effect.
Context {F : Faker}.
Variable md5_seed : string -> Z.

(** What a call of [generate] does to the cache.  Without consistency
    the cache is never written; a call that raises leaves it as it was;
    and in consistent mode a call that returns leaves the cache with the
    value returned under the original, and nothing else changed. *)
Theorem generate_cache_effect (g : FakeDataGenerator) (t : PIIType)
    (v : string) :
  (consistent g = false -> _cache (snd (generate md5_seed g t v)) = _cache g)
  /\ (forall e, fst (generate md5_seed g t v) = Raise e ->
                _cache (snd (generate md5_seed g t v)) = _cache g)
  /\ (forall r, consistent g = true ->
                fst (generate md5_seed g t v) = Ok r ->
                _cache (snd (generate md5_seed g t v)) = <[v := r]> (_cache g)).
Proof.
  unfold generate. repeat split.
  - intros Hc. rewrite Hc.
    destruct (_generate_by_type t v (faker g)) as [[r|e] st']; reflexivity.
  - intros e. destruct (consistent g).
    + destruct (_cache g !! v) as [r|]; [discriminate|].
      destruct (_generate_by_type t v _) as [[r|e'] st']; [discriminate|].
      reflexivity.
    + destruct (_generate_by_type t v _) as [[r|e'] st']; reflexivity.
  - intros r Hc. rewrite Hc.
    destruct (_cache g !! v) as [r'|] eqn:Hget.
    + simpl. intros [= <-]. symmetry. apply insert_id. exact Hget.
    + destruct (_generate_by_type t v _) as [[r'|e'] st']; simpl;
        [|discriminate].
      intros [= <-]. reflexivity.
Qed.

(** After [clear_cache] a consistent generator computes the value for an
    original anew, from the seed taken from the original alone: whatever
    the histories of two generators, their next results for the same
    category and original agree. *)
Theorem generate_after_clear_cache (g1 g2 : FakeDataGenerator) (t : PIIType)
    (v : string) :
  seed_replaces_state ->
  consistent g1 = true -> consistent g2 = true ->
  fst (generate md5_seed (clear_cache g1) t v)
  = fst (generate md5_seed (clear_cache g2) t v).
Proof.
  intros Hseed H1 H2. unfold generate, clear_cache. simpl.
  rewrite H1, H2, !lookup_empty.
  rewrite (Hseed (md5_seed v) (faker g1) (faker g2)).
  destruct (_generate_by_type t v _) as [[r|e] st']; reflexivity.
Qed.
End Cache_effect.

Lemma generate_after_clear_cache_witness :
  fst (generate length_seed
         (clear_cache (snd (generate length_seed example_generator EMAIL "a@b.cd")))
         DATE "1/2/2020")
  = fst (generate length_seed (clear_cache example_generator) DATE "1/2/2020").
Proof.
  apply (generate_after_clear_cache length_seed).
  - intros s st st'. reflexivity.
  - reflexivity.
  - reflexivity.
Defined.

(** ** The shape of the replacements *)

Section Shapes_of_replacements.
Context {F : Faker}.

Lemma yields_ret {A : Type} (a : A) (P : A -> Prop) : P a -> yields (gen_ret a) P.
Proof. intros H st. exists a, st. auto. Qed.

Lemma yields_draw {A : Type} (f : rng -> A * rng) (P : A -> Prop) :
  (forall st, P (fst (f st))) -> yields (draw f) P.
Proof.
  intros H st. unfold draw. specialize (H st).
  destruct (f st) as [a st']. exists a, st'. auto.
Qed.

Lemma yields_bind {A B : Type} (c : gen A) (k : A -> gen B)
    (Q : A -> Prop) (P : B -> Prop) :
  yields c Q -> (forall a, Q a -> yields (k a) P) -> yields (gen_bind c k) P.
Proof.
  intros Hc Hk st. unfold gen_bind.
  destruct (Hc st) as (a & st' & -> & Ha). apply (Hk a Ha).
Qed.

Lemma yields_random_int lo hi :
  draws_in_range -> (lo <= hi)%Z ->
  yields (random_int (PyInt lo) (PyInt hi)) (fun n => (lo <= n)%Z /\ (n <= hi)%Z).
Proof.
  intros Hd H. unfold random_int.
  apply Z.leb_le in H as Hb. rewrite Hb.
  apply yields_draw. intros st. apply Hd, H.
Qed.
End Shapes_of_replacements.

Lemma str_contains_app c a b :
  str_contains c (a ++ b) = str_contains c a || str_contains c b.
Proof.
  induction a as [|x a IH]; simpl; [reflexivity|].
  destruct (Ascii.eqb x c); [reflexivity|exact IH].
Qed.

Lemma str_replace_removes c r s :
  str_contains c r = false -> str_contains c (str_replace c r s) = false.
Proof.
  intros Hr. induction s as [|x s IH]; simpl; [reflexivity|].
  destruct (Ascii.eqb x c) eqn:E.
  - rewrite str_contains_app, Hr, IH. reflexivity.
  - simpl. rewrite E. exact IH.
Qed.

Lemma digit_string_app a b :
  digit_string (a ++ b) = digit_string a && digit_string b.
Proof.
  unfold digit_string. induction a as [|x a IH]; simpl; [reflexivity|].
  rewrite IH, andb_assoc. reflexivity.
Qed.

Lemma pretty_N_char_digit x : is_ascii_digit (pretty_N_char x) = true.
Proof. unfold pretty_N_char. repeat case_match; reflexivity. Qed.

(** The decimal numeral of a number of [k + 1] digits. *)
Lemma pretty_N_go_shape (k : nat) :
  forall x s,
    (10 ^ N.of_nat k <= x)%N -> (x < 10 ^ N.of_nat (S k))%N ->
    String.length (pretty_N_go x s) = S k + String.length s
    /\ (digit_string s = true -> digit_string (pretty_N_go x s) = true).
Proof.
  induction k as [|k IH]; intros x s Hlo Hhi.
  - change (10 ^ N.of_nat 0)%N with 1%N in Hlo.
    change (10 ^ N.of_nat 1)%N with 10%N in Hhi.
    rewrite pretty_N_go_step by lia.
    rewrite (N.div_small x 10) by lia. rewrite pretty_N_go_0. simpl.
    split; [reflexivity|]. intros Hs. unfold digit_string. simpl.
    rewrite pretty_N_char_digit. exact Hs.
  - assert (E : forall m, (10 ^ N.of_nat (S m) = 10 * 10 ^ N.of_nat m)%N).
    { intros m. rewrite Nat2N.inj_succ, N.pow_succ_r'. reflexivity. }
    rewrite E in Hlo. rewrite (E (S k)), (E k) in Hhi.
    assert (Hpos : (0 < 10 ^ N.of_nat k)%N)
      by (apply N.neq_0_lt_0, N.pow_nonzero; lia).
    rewrite pretty_N_go_step by lia.
    destruct (IH (x `div` 10)%N
                (String (pretty_N_char (x `mod` 10)) s)) as [Hlen Hdig].
    + apply N.div_le_lower_bound; lia.
    + rewrite (E k). apply N.Div0.div_lt_upper_bound; lia.
    + split.
      * rewrite Hlen. simpl. lia.
      * intros Hs. apply Hdig. unfold digit_string. simpl.
        rewrite pretty_N_char_digit. exact Hs.
Qed.

(** [str(n)] for an integer of exactly [k] digits. *)
Lemma str_of_Z_shape (k : nat) (n : Z) :
  1 <= k ->
  (10 ^ (Z.of_nat k - 1) <= n)%Z -> (n <= 10 ^ Z.of_nat k - 1)%Z ->
  String.length (str_of_Z n) = k /\ digit_string (str_of_Z n) = true.
Proof.
  intros Hk Hlo Hhi.
  destruct k as [|k]; [lia|].
  replace (Z.of_nat (S k) - 1)%Z with (Z.of_nat k) in Hlo by lia.
  assert (Hpos : (0 < 10 ^ Z.of_nat k)%Z) by (apply Z.pow_pos_nonneg; lia).
  destruct n as [|p|p]; try lia.
  unfold str_of_Z, pretty, pretty_Z, pretty, pretty_positive, pretty, pretty_N.
  destruct (decide (N.pos p = 0%N)) as [E|_]; [discriminate|].
  destruct (pretty_N_go_shape k (N.pos p) "") as [Hlen Hdig].
  - apply N2Z.inj_le. rewrite N2Z.inj_pow, nat_N_Z. simpl. exact Hlo.
  - apply N2Z.inj_lt. rewrite N2Z.inj_pow, nat_N_Z. simpl Z.of_N. lia.
  - split; [rewrite Hlen; simpl; lia|apply Hdig; reflexivity].
Qed.

Lemma str_of_digit (d : Z) :
  (0 <= d)%Z -> (d <= 9)%Z ->
  String.length (str_of_Z d) = 1 /\ digit_string (str_of_Z d) = true.
Proof.
  intros H0 H9. destruct (Z.eq_dec d 0%Z) as [->|Hne].
  - split; reflexivity.
  - apply (str_of_Z_shape 1 d); simpl; lia.
Qed.

Section Replacement_shapes.
Context {F : Faker}.

(** The replacement of a social-security number written without hyphens
    holds no hyphen. *)
Theorem ssn_without_hyphens (original : string) :
  str_contains "-" original = false ->
  yields (_generate_ssn original) (fun r => str_contains "-" r = false).
Proof.
  intros H. unfold _generate_ssn. rewrite H. simpl.
  apply (yields_bind _ _ (fun _ => True)).
  - apply yields_draw. auto.
  - intros s _. apply yields_ret. apply str_replace_removes. reflexivity.
Qed.

(** The replacement of an address is a single line: it holds no line
    feed, whatever the library's address is. *)
Theorem address_on_one_line (original : string) :
  yields (_generate_address original)
    (fun r => str_contains (ascii_of_nat 10) r = false).
Proof.
  unfold _generate_address.
  apply (yields_bind _ _ (fun _ => True)).
  - apply yields_draw. auto.
  - intros s _. apply yields_ret. apply str_replace_removes. reflexivity.
Qed.

Lemma random_digits_shape n :
  digit_draws ->
  yields (random_digits n)
    (fun r => String.length r = n /\ digit_string r = true).
Proof.
  intros Hd. induction n as [|n IH]; simpl.
  - apply yields_ret. auto.
  - apply (yields_bind _ _ (fun d => (0 <= d)%Z /\ (d <= 9)%Z)).
    + apply yields_draw. exact Hd.
    + intros d [H0 H9].
      apply (yields_bind _ _ _ _ IH). intros rest [Hlen Hdig].
      apply yields_ret.
      destruct (str_of_digit d H0 H9) as [Hl Hg].
      rewrite str_length_app, digit_string_app, Hl, Hg, Hlen, Hdig. auto.
Qed.

(** An account number for which [original[:2].isalpha()] is false (it is
    empty, or one of its first two characters, or its only character, is
    not alphabetic) is replaced by a string of decimal digits of the same
    length. *)
Theorem bank_account_keeps_length (original : string) :
  digit_draws ->
  isalpha (str_take 2 original) = false ->
  yields (_generate_bank_account original)
    (fun r => String.length r = String.length original
              /\ digit_string r = true).
Proof.
  intros Hd H. unfold _generate_bank_account. rewrite H.
  apply random_digits_shape, Hd.
Qed.

(** A passport or driver-license number with at least one digit is
    replaced by the alphabetic characters of the original, in their
    order, followed by a decimal numeral of as many digits as the
    original holds. *)
Theorem passport_keeps_shape (original : string) :
  draws_in_range ->
  1 <= String.length (str_filter uni_isdigit original) ->
  yields (_generate_passport original)
    (fun r => exists numeral,
         r = str_filter uni_isalpha original ++ numeral
         /\ String.length numeral
            = String.length (str_filter uni_isdigit original)
         /\ digit_string numeral = true).
Proof.
  intros Hd H. unfold _generate_passport.
  set (k := String.length (str_filter uni_isdigit original)) in *.
  unfold py_pow10.
  assert (H0 : (0 <=? Z.of_nat k - 1)%Z = true) by (apply Z.leb_le; lia).
  assert (H1 : (0 <=? Z.of_nat k)%Z = true) by (apply Z.leb_le; lia).
  rewrite H0, H1. simpl py_pred.
  assert (Hle : (10 ^ (Z.of_nat k - 1) <= 10 ^ Z.of_nat k - 1)%Z).
  { replace (Z.of_nat k) with (Z.succ (Z.of_nat k - 1)) at 2 by lia.
    rewrite Z.pow_succ_r by lia.
    assert (0 < 10 ^ (Z.of_nat k - 1))%Z by (apply Z.pow_pos_nonneg; lia).
    lia. }
  apply (yields_bind _ _ _ _ (yields_random_int _ _ Hd Hle)).
  intros n [Hlo Hhi]. apply yields_ret.
  exists (str_of_Z n). split; [reflexivity|].
  exact (str_of_Z_shape k n H Hlo Hhi).
Qed.
End Replacement_shapes.

Lemma counter_draws_in_range : @draws_in_range counter_faker.
Proof. intros lo hi st H. simpl. lia. Qed.

Lemma counter_digit_draws : @digit_draws counter_faker.
Proof. intros st. simpl. lia. Qed.

Lemma ssn_without_hyphens_witness :
  exists r st',
    @_generate_ssn counter_faker "078051120" 0%Z = (Ok r, st')
    /\ str_contains "-" r = false.
Proof.
  apply (@ssn_without_hyphens counter_faker "078051120"). reflexivity.
Defined.

Lemma bank_account_keeps_length_witness :
  exists r st',
    @_generate_bank_account counter_faker "12345678" 0%Z = (Ok r, st')
    /\ String.length r = 8 /\ digit_string r = true.
Proof.
  apply (@bank_account_keeps_length counter_faker "12345678").
  - exact counter_digit_draws.
  - reflexivity.
Defined.

Lemma passport_keeps_shape_witness :
  exists r st',
    @_generate_passport counter_faker "AB1234567" 0%Z = (Ok r, st')
    /\ exists numeral,
         r = "AB" ++ numeral /\ String.length numeral = 7
         /\ digit_string numeral = true.
Proof.
  apply (@passport_keeps_shape counter_faker "AB1234567").
  - exact counter_draws_in_range.
  - simpl. lia.
Defined.

(** ** Texts the built-in rules pass over *)

Lemma count_str_take p n :
  forall s, count_str p (str_take n s) <= count_str p s.
Proof.
  induction n as [|n IH]; intros [|c s]; simpl; try lia.
  specialize (IH s). lia.
Qed.

Lemma count_str_drop p n :
  forall s, count_str p (str_drop n s) <= count_str p s.
Proof.
  induction n as [|n IH]; intros [|c s]; simpl; try lia.
  specialize (IH s). lia.
Qed.

Lemma count_between_le p text i j :
  count_between p text i j <= count_str p text.
Proof.
  unfold count_between, str_slice.
  etransitivity; [apply count_str_take|apply count_str_drop].
Qed.

Lemma builtin_rules_hold_trigger t :
  rules_hold_trigger (builtin_rules t) = true.
Proof. destruct t; vm_compute; reflexivity. Qed.

Lemma plain_text_no_match enabled d text m :
  RegexDetector_init enabled = Ok d ->
  count_str trigger text = 0 ->
  ~ In m (detect d text).
Proof.
  intros Hd Hplain Hm. apply detect_from_hit in Hm.
  destruct Hm as ([[t conf] [s e]] & Hh & _).
  apply in_all_hits in Hh. destruct Hh as (rules & p & Hin & Hp & Hsp).
  apply finditer_sound in Hsp. destruct Hsp as (_ & _ & Hmatch).
  assert (Hrules : rules = builtin_rules t).
  { destruct (init_builtin enabled d Hd t rules Hin) as [->|H]; [|exact H].
    destruct (init_keys enabled d CUSTOM rules Hd Hin) as [_ Hget].
    exfalso. apply Hget. reflexivity. }
  subst rules.
  pose proof (builtin_rules_hold_trigger t) as Hr.
  unfold rules_hold_trigger in Hr. rewrite forallb_forall in Hr.
  specialize (Hr _ Hp). cbv beta in Hr. apply Nat.leb_le in Hr. simpl in Hr.
  apply (matches_mincount _ _ trigger) in Hmatch.
  pose proof (count_between_le trigger text s e). lia.
Qed.

Lemma no_member_nil {A : Type} (l : list A) : (forall x, ~ In x l) -> l = [].
Proof.
  destruct l as [|x l]; [reflexivity|]. intros H. exfalso.
  apply (H x). left. reflexivity.
Qed.

(** A text that holds no decimal digit, no [@] and no [:] has no match
    for a detector built by the constructor: each built-in rule asks for
    one of these characters.  The empty text is such a text. *)
Theorem detect_plain_text (enabled : option (list PIIType))
    (d : RegexDetector) (text : string) :
  RegexDetector_init enabled = Ok d ->
  count_str trigger text = 0 ->
  detect d text = [].
Proof.
  intros Hd Hplain. apply no_member_nil. intros m.
  exact (plain_text_no_match enabled d text m Hd Hplain).
Qed.

Lemma detect_plain_text_witness :
  detect default_detector "Dear Ann, see you on Monday. -- Bob" = [].
Proof.
  apply (detect_plain_text None default_detector).
  - vm_compute. reflexivity.
  - vm_compute. reflexivity.
Defined.

(** ** The report *)

Lemma insert_desc_sorted {A : Type} (key : A -> nat) x l :
  pairwise (fun a b => key b <= key a) l ->
  pairwise (fun a b => key b <= key a) (insert_desc key x l).
Proof.
  induction 1 as [|y l Hy Hl IH]; simpl.
  - repeat constructor.
  - destruct (key y <=? key x) eqn:Hxy.
    + apply Nat.leb_le in Hxy. constructor; [|constructor; assumption].
      constructor; [assumption|].
      rewrite List.Forall_forall in *. intros z Hz. specialize (Hy z Hz). lia.
    + apply Nat.leb_gt in Hxy. constructor; [|assumption].
      apply (Permutation_Forall (Permutation_sym (insert_desc_perm key x l))).
      constructor; [lia|assumption].
Qed.

Lemma sort_desc_sorted {A : Type} (key : A -> nat) l :
  pairwise (fun a b => key b <= key a) (sort_desc key l).
Proof.
  induction l as [|x l IH]; simpl; [constructor|].
  apply insert_desc_sorted, IH.
Qed.

Lemma pairwise_map {A B : Type} (f : A -> B) (R : B -> B -> Prop) l :
  pairwise (fun a b => R (f a) (f b)) l -> pairwise R (map f l).
Proof.
  induction 1 as [|x l Hx Hl IH]; simpl; constructor; auto.
  rewrite List.Forall_forall in *. intros y Hy.
  apply in_map_iff in Hy. destruct Hy as (z & <- & Hz). auto.
Qed.

Lemma pairwise_of_map {A B : Type} (f : A -> B) (R : B -> B -> Prop) l :
  pairwise R (map f l) -> pairwise (fun a b => R (f a) (f b)) l.
Proof.
  induction l as [|x l IH]; simpl; intros H; [constructor|].
  inversion H as [|? ? Hx Hl]; subst. constructor; auto.
  rewrite List.Forall_forall in *. intros y Hy. apply Hx, in_map, Hy.
Qed.

Section Report.
Context {F : Faker}.
Variable md5_seed : string -> Z.

(** The entries the replacement loop appends: one for each match, in the
    order of the matches. *)
Lemma replace_loop_entries ms :
  forall g txt entries res entries' g',
    replace_loop md5_seed ms g txt entries = (Ok (res, entries'), g') ->
    exists es,
      entries' = (entries ++ es)%list
      /\ map report_key es = map match_key ms.
Proof.
  induction ms as [|m ms IH]; intros g txt entries res entries' g' H;
    simpl in H.
  - injection H as _ <- _. exists []. rewrite app_nil_r. auto.
  - destruct (generate md5_seed g (pii_type m) (value m)) as [[fake|e] g1];
      [|discriminate].
    apply IH in H. destruct H as (es & -> & Hes).
    eexists (_ :: es). rewrite <- app_assoc. split; [reflexivity|].
    simpl. rewrite Hes. reflexivity.
Qed.

(** In consistent mode the loop leaves every original it replaced in the
    cache, with its replacement, and loses no entry of the cache. *)
Lemma replace_loop_cache ms :
  forall g txt entries res entries' g',
    consistent g = true ->
    replace_loop md5_seed ms g txt entries = (Ok (res, entries'), g') ->
    consistent g' = true
    /\ (forall v r, _cache g !! v = Some r -> _cache g' !! v = Some r)
    /\ exists es,
         entries' = (entries ++ es)%list
         /\ Forall (fun e => _cache g' !! entry_original e
                             = Some (entry_replacement e)) es.
Proof.
  induction ms as [|m ms IH]; intros g txt entries res entries' g' Hc H;
    simpl in H.
  - injection H as _ <- <-. split; [exact Hc|]. split; [auto|].
    exists []. rewrite app_nil_r. auto.
  - destruct (generate md5_seed g (pii_type m) (value m)) as [[fake|e] g1] eqn:Hg;
      [|discriminate].
    assert (Hc1 : consistent g1 = true).
    { pose proof (generate_consistent_kept md5_seed g (pii_type m) (value m)) as Hk.
      rewrite Hg in Hk. simpl in Hk. congruence. }
    assert (Hst : _cache g1 !! value m = Some fake).
    { pose proof (generate_stores md5_seed g (pii_type m) (value m) fake Hc) as Hs.
      rewrite Hg in Hs. apply Hs. reflexivity. }
    assert (Hkeep : forall v r, _cache g !! v = Some r -> _cache g1 !! v = Some r).
    { intros v r Hv.
      pose proof (generate_keeps md5_seed g (pii_type m) v (value m) r Hc Hv) as Hk.
      rewrite Hg in Hk. exact Hk. }
    destruct (IH _ _ _ _ _ _ Hc1 H) as (Hc' & Hmono & es & -> & Hes).
    split; [exact Hc'|]. split; [auto|].
    eexists (_ :: es). rewrite <- app_assoc. split; [reflexivity|].
    constructor; [|exact Hes]. simpl. apply Hmono, Hst.
Qed.

(** The report of [anonymize_with_report] lists the detected matches,
    one entry for each with its category label, original, position and
    confidence, by ascending position; [pii_found] is their number and
    [original_text] the text given.  This holds for every set of matches,
    those of a backend included. *)
Theorem report_lists_matches (p : PrivacyProtector) (text : string)
    (ms : list PIIMatch) (r : AnonymizationResult) :
  _detect_all p text = Ok ms ->
  fst (anonymize_with_report md5_seed p text) = Ok r ->
  original_text r = text
  /\ pii_found r = length ms
  /\ Permutation (map report_key (replacements r)) (map match_key ms)
  /\ forall i j e1 e2,
       i < j ->
       nth_error (replacements r) i = Some e1 ->
       nth_error (replacements r) j = Some e2 ->
       entry_position e1 <= entry_position e2.
Proof.
  intros Hms Hr. unfold anonymize_with_report in Hr. rewrite Hms in Hr.
  destruct (replace_loop md5_seed (sort_desc start ms) (generator p) text [])
    as [[[res entries]|e] g'] eqn:Hloop; [|discriminate].
  simpl in Hr. injection Hr as <-. simpl.
  apply replace_loop_entries in Hloop. destruct Hloop as (es & -> & Hes).
  simpl. split; [reflexivity|].
  split; [apply Permutation_length, sort_desc_perm|].
  split.
  - rewrite List.map_rev, Hes, <- List.map_rev.
    apply Permutation_map.
    etransitivity; [symmetry; apply Permutation_rev|apply sort_desc_perm].
  - apply (pairwise_nth_lt
             (fun e1 e2 => entry_position e1 <= entry_position e2)).
    apply (pairwise_of_map report_key
             (fun a b => snd (fst a) <= snd (fst b))).
    rewrite List.map_rev, Hes, <- List.map_rev.
    apply (pairwise_map match_key (fun a b => snd (fst a) <= snd (fst b))).
    apply (pairwise_rev (fun a b => start b <= start a)).
    apply sort_desc_sorted.
Qed.

(** A text in which nothing is detected comes back as it is: the result
    holds the text twice, an empty report and the count 0, and the
    protector, with its cache and random state, is unchanged. *)
Theorem anonymize_plain_text (p : PrivacyProtector)
    (enabled : option (list PIIType)) (text : string) :
  RegexDetector_init enabled = Ok (regex_detector p) ->
  llm_guard p = None ->
  count_str trigger text = 0 ->
  anonymize_with_report md5_seed p text = (Ok (mkResult text text [] 0), p)
  /\ anonymize md5_seed p text = (Ok text, p).
Proof.
  intros Hd Hg Hplain.
  assert (H : anonymize_with_report md5_seed p text
              = (Ok (mkResult text text [] 0), p)).
  { unfold anonymize_with_report, _detect_all.
    rewrite Hg.
    rewrite (no_member_nil (detect (regex_detector p) text)
               (fun m => plain_text_no_match enabled _ text m Hd Hplain)).
    simpl.
    destruct p; simpl in *. rewrite Hg. reflexivity. }
  split; [exact H|]. unfold anonymize. rewrite H. reflexivity.
Qed.

(** In consistent mode the report is a mapping: two entries with the
    same original have the same replacement, and after the call the cache
    of the protector holds the replacement of every entry under its
    original. *)
Theorem report_is_a_mapping (p : PrivacyProtector) (text : string)
    (r : AnonymizationResult) :
  consistent (generator p) = true ->
  fst (anonymize_with_report md5_seed p text) = Ok r ->
  (forall e, In e (replacements r) ->
     _cache (generator (snd (anonymize_with_report md5_seed p text)))
       !! entry_original e = Some (entry_replacement e))
  /\ (forall e1 e2, In e1 (replacements r) -> In e2 (replacements r) ->
        entry_original e1 = entry_original e2 ->
        entry_replacement e1 = entry_replacement e2).
Proof.
  intros Hc Hr.
  assert (Hcache : forall e, In e (replacements r) ->
            _cache (generator (snd (anonymize_with_report md5_seed p text)))
              !! entry_original e = Some (entry_replacement e)).
  { unfold anonymize_with_report in *.
    destruct (_detect_all p text) as [ms|e0]; [|discriminate].
    destruct (replace_loop md5_seed (sort_desc start ms) (generator p) text [])
      as [[[res entries]|e0] g'] eqn:Hloop; [|discriminate].
    simpl in Hr. injection Hr as <-. simpl.
    destruct (replace_loop_cache _ _ _ _ _ _ _ Hc Hloop)
      as (_ & _ & es & -> & Hes).
    simpl. intros e He. rewrite <- in_rev in He.
    rewrite List.Forall_forall in Hes. apply Hes, He. }
  split; [exact Hcache|].
  intros e1 e2 H1 H2 Heq.
  pose proof (Hcache e1 H1) as C1. pose proof (Hcache e2 H2) as C2.
  rewrite Heq in C1. congruence.
Qed.

Lemma anonymize_cache p text r p' :
  consistent (generator p) = true ->
  anonymize_with_report md5_seed p text = (Ok r, p') ->
  consistent (generator p') = true
  /\ (forall v x, _cache (generator p) !! v = Some x ->
                  _cache (generator p') !! v = Some x)
  /\ Forall (fun e => _cache (generator p') !! entry_original e
                      = Some (entry_replacement e)) (replacements r)
  /\ original_text r = text.
Proof.
  intros Hc H. unfold anonymize_with_report in H.
  destruct (_detect_all p text) as [ms|e0]; [|discriminate].
  destruct (replace_loop md5_seed (sort_desc start ms) (generator p) text [])
    as [[[res entries]|e0] g'] eqn:Hloop; [|discriminate].
  injection H as <- <-. simpl.
  destruct (replace_loop_cache _ _ _ _ _ _ _ Hc Hloop)
    as (Hc' & Hmono & es & -> & Hes).
  simpl. repeat split; auto.
  rewrite List.Forall_forall in *. intros e He. apply Hes, in_rev, He.
Qed.

Lemma anonymize_original_text p text r p' :
  anonymize_with_report md5_seed p text = (Ok r, p') -> original_text r = text.
Proof.
  unfold anonymize_with_report.
  destruct (_detect_all p text) as [ms|e0]; [|discriminate].
  destruct (replace_loop _ _ _ _ _) as [[[res entries]|e0] g'];
    [|discriminate].
  intros [= <- _]. reflexivity.
Qed.

Lemma process_batch_order texts :
  forall p rs p',
    process_batch md5_seed p texts = (Ok rs, p') ->
    map original_text rs = texts.
Proof.
  induction texts as [|text texts IH]; intros p rs p' H; simpl in H.
  - injection H as <- _. reflexivity.
  - destruct (anonymize_with_report md5_seed p text) as [[r|e] p1] eqn:Hr;
      [|discriminate].
    destruct (process_batch md5_seed p1 texts) as [[rs'|e] p2] eqn:Hb;
      [|discriminate].
    injection H as <- _. simpl.
    rewrite (anonymize_original_text _ _ _ _ Hr), (IH _ _ _ Hb). reflexivity.
Qed.

Lemma process_batch_cache texts :
  forall p rs p',
    consistent (generator p) = true ->
    process_batch md5_seed p texts = (Ok rs, p') ->
    (forall v x, _cache (generator p) !! v = Some x ->
                 _cache (generator p') !! v = Some x)
    /\ Forall (fun r =>
                 Forall (fun e => _cache (generator p') !! entry_original e
                                  = Some (entry_replacement e))
                   (replacements r)) rs.
Proof.
  induction texts as [|text texts IH]; intros p rs p' Hc H; simpl in H.
  - injection H as <- <-. auto.
  - destruct (anonymize_with_report md5_seed p text) as [[r|e] p1] eqn:Hr;
      [|discriminate].
    destruct (process_batch md5_seed p1 texts) as [[rs'|e] p2] eqn:Hb;
      [|discriminate].
    injection H as <- <-.
    destruct (anonymize_cache _ _ _ _ Hc Hr) as (Hc1 & Hmono1 & Hes & _).
    destruct (IH _ _ _ Hc1 Hb) as (Hmono2 & Hrs).
    split; [auto|]. constructor; [|exact Hrs].
    rewrite List.Forall_forall in *. intros e He. apply Hmono2, Hes, He.
Qed.

(** [process_batch] returns one result for each text, in the order of
    the texts; and in consistent mode the replacements agree across the
    whole batch: two report entries with the same original, in the same
    result or in two, have the same replacement. *)
Theorem process_batch_consistent (p : PrivacyProtector)
    (texts : list string) (rs : list AnonymizationResult) :
  fst (process_batch md5_seed p texts) = Ok rs ->
  map original_text rs = texts
  /\ (consistent (generator p) = true ->
      forall r1 r2 e1 e2,
        In r1 rs -> In r2 rs ->
        In e1 (replacements r1) -> In e2 (replacements r2) ->
        entry_original e1 = entry_original e2 ->
        entry_replacement e1 = entry_replacement e2).
Proof.
  intros H.
  destruct (process_batch md5_seed p texts) as [[rs'|e] p'] eqn:Hb;
    [|discriminate].
  simpl in H. injection H as ->. split.
  - exact (process_batch_order texts p rs p' Hb).
  - intros Hc r1 r2 e1 e2 Hr1 Hr2 He1 He2 Heq.
    destruct (process_batch_cache texts p rs p' Hc Hb) as [_ Hall].
    rewrite List.Forall_forall in Hall.
    pose proof (Hall r1 Hr1) as A1. pose proof (Hall r2 Hr2) as A2.
    rewrite List.Forall_forall in A1, A2.
    pose proof (A1 e1 He1) as C1. pose proof (A2 e2 He2) as C2.
    rewrite Heq in C1. congruence.
Qed.

(** ** Detection with a backend *)

Lemma merge_loop_filter (known : list (nat * nat)) gms :
  forall acc,
    fold_left
      (fun ms gm =>
         if existsb (fun sp => (fst sp =? start gm) && (snd sp =? end_ gm)) known
         then ms else (ms ++ [gm])%list)
      gms acc
    = (acc
       ++ List.filter
            (fun gm =>
               negb (existsb (fun sp => (fst sp =? start gm) && (snd sp =? end_ gm))
                       known))
            gms)%list.
Proof.
  induction gms as [|gm gms IH]; intros acc; simpl.
  - rewrite app_nil_r. reflexivity.
  - rewrite IH. destruct (existsb _ known); simpl; [reflexivity|].
    rewrite <- app_assoc. reflexivity.
Qed.

Lemma known_span_spans ms gm :
  existsb (fun sp => (fst sp =? start gm) && (snd sp =? end_ gm)) (map span_of ms)
  = known_span ms gm.
Proof.
  unfold known_span. induction ms as [|m ms IH]; simpl; [reflexivity|].
  rewrite IH. reflexivity.
Qed.

(** With a backend, [detect] of the protector returns the matches of the
    regex detector, all of them and first, followed by the matches of the
    backend whose exact span no regex match has, in the backend's order.
    Backend matches are not compared with each other, and one that
    merely overlaps a regex match is kept.  A failure of the backend is
    the failure of the call. *)
Theorem detect_with_guard (p : PrivacyProtector) (guard : LLMGuard)
    (text : string) :
  llm_guard p = Some guard ->
  protector_detect p text
  = (gms ← guard text;
     Ok (detect (regex_detector p) text
         ++ List.filter (fun gm => negb (known_span (detect (regex_detector p) text) gm))
              gms)%list).
Proof.
  intros Hg. unfold protector_detect, _detect_all. rewrite Hg.
  destruct (guard text) as [gms|e]; [|reflexivity].
  cbn [mbind outcome_bind]. f_equal. unfold merge_guard.
  rewrite merge_loop_filter. f_equal.
  apply List.filter_ext. intros gm. rewrite known_span_spans. reflexivity.
Qed.

(** ** Construction *)

(** Building a protector fails in two cases, and in no other.  Either
    [Faker] does not know the locale of the configuration, and the error
    is the one of [Faker(locale)]; or it knows the locale, a backend is
    asked for and the backend factory fails, and the error is the
    factory's.  Compiling the built-in rules does not fail, whatever
    categories are enabled. *)
Theorem construction_failures
    (get_guard : string -> kwargs -> outcome LLMGuard)
    (config : option ProtectorConfig) (provider loc : string) (c : bool)
    (kw : kwargs) (e : exn) :
  PrivacyProtector_new get_guard config provider loc c kw = Raise e
  <-> (known_locale (locale (effective_config config provider loc c kw))
       = false
       /\ e = LocaleError (locale (effective_config config provider loc c kw)))
      \/ (known_locale (locale (effective_config config provider loc c kw))
          = true
          /\ use_llm_guard (effective_config config provider loc c kw) = true
          /\ get_guard
               (guard_provider (effective_config config provider loc c kw))
               (guard_kwargs (effective_config config provider loc c kw))
             = Raise e).
Proof.
  unfold PrivacyProtector_new, PrivacyProtector_init, FakeDataGenerator_new.
  set (cfg := effective_config config provider loc c kw).
  destruct (init_total (cfg_enabled_types cfg)) as [d ->].
  cbn [mbind outcome_bind].
  destruct (known_locale (locale cfg)); cbn [mbind outcome_bind].
  - split.
    + destruct (use_llm_guard cfg); [|discriminate].
      destruct (get_guard (guard_provider cfg) (guard_kwargs cfg))
        as [guard|e']; [discriminate|].
      cbn [mbind outcome_bind]. intros [= <-]. right. auto.
    + intros [[Hk _]|(_ & Hu & Hg)]; [discriminate|].
      rewrite Hu, Hg. reflexivity.
  - split.
    + intros [= <-]. left. auto.
    + intros [[_ ->]|(Hk & _)]; [reflexivity|discriminate].
Qed.
End Report.

Lemma report_lists_matches_witness :
  original_text example_report = example_text
  /\ pii_found example_report = length (detect default_detector example_text)
  /\ Permutation (map report_key (replacements example_report))
       (map match_key (detect default_detector example_text))
  /\ forall i j e1 e2,
       i < j ->
       nth_error (replacements example_report) i = Some e1 ->
       nth_error (replacements example_report) j = Some e2 ->
       entry_position e1 <= entry_position e2.
Proof.
  apply (report_lists_matches length_seed (protector_of default_detector)
           example_text (detect default_detector example_text) example_report).
  - reflexivity.
  - vm_compute. reflexivity.
Defined.

Lemma anonymize_plain_text_witness :
  anonymize_with_report length_seed (protector_of default_detector)
    "Dear Ann, see you on Monday. -- Bob"
  = (Ok (mkResult "Dear Ann, see you on Monday. -- Bob"
           "Dear Ann, see you on Monday. -- Bob" [] 0),
     protector_of default_detector)
  /\ anonymize length_seed (protector_of default_detector)
       "Dear Ann, see you on Monday. -- Bob"
     = (Ok "Dear Ann, see you on Monday. -- Bob", protector_of default_detector).
Proof.
  apply (anonymize_plain_text length_seed (protector_of default_detector) None).
  - vm_compute. reflexivity.
  - reflexivity.
  - vm_compute. reflexivity.
Defined.

Lemma report_is_a_mapping_witness :
  (forall e, In e (replacements example_report) ->
     _cache (generator (snd (anonymize_with_report length_seed
                               (protector_of default_detector) example_text)))
       !! entry_original e = Some (entry_replacement e))
  /\ (forall e1 e2,
        In e1 (replacements example_report) ->
        In e2 (replacements example_report) ->
        entry_original e1 = entry_original e2 ->
        entry_replacement e1 = entry_replacement e2).
Proof.
  apply (report_is_a_mapping length_seed (protector_of default_detector)
           example_text example_report).
  - reflexivity.
  - vm_compute. reflexivity.
Defined.

Lemma process_batch_consistent_witness :
  map original_text example_batch = ["to a@b.cd"; "a@b.cd!"]
  /\ (consistent (generator (protector_of default_detector)) = true ->
      forall r1 r2 e1 e2,
        In r1 example_batch -> In r2 example_batch ->
        In e1 (replacements r1) -> In e2 (replacements r2) ->
        entry_original e1 = entry_original e2 ->
        entry_replacement e1 = entry_replacement e2).
Proof.
  apply (process_batch_consistent length_seed (protector_of default_detector)
           ["to a@b.cd"; "a@b.cd!"] example_batch).
  vm_compute. reflexivity.
Defined.

Lemma detect_with_guard_witness :
  protector_detect guarded_protector "Ann has a@b.cd"
  = (gms ← example_guard "Ann has a@b.cd";
     Ok (detect (regex_detector guarded_protector) "Ann has a@b.cd"
         ++ List.filter
              (fun gm =>
                 negb (known_span
                         (detect (regex_detector guarded_protector)
                            "Ann has a@b.cd") gm))
              gms)%list).
Proof.
  apply (detect_with_guard guarded_protector example_guard "Ann has a@b.cd").
  reflexivity.
Defined.

(** An unknown locale, and a backend factory that fails. *)
Lemma construction_failures_witness :
  @PrivacyProtector_new counter_faker failing_get_guard None "regex" "xx_XX"
    true [] = Raise (LocaleError "xx_XX")
  /\ @PrivacyProtector_new counter_faker failing_get_guard None "presidio"
       "en_US" true [] = Raise (GuardError "presidio").
Proof.
  split.
  - apply (proj2 (@construction_failures counter_faker failing_get_guard
                    None "regex" "xx_XX" true [] (LocaleError "xx_XX"))).
    left. split; reflexivity.
  - apply (proj2 (@construction_failures counter_faker failing_get_guard
                    None "presidio" "en_US" true [] (GuardError "presidio"))).
    right. repeat split; reflexivity.
Defined.

(** ** The constructor in closed form *)

Lemma dict_get_none_keys {V : Type} t (acc : list (PIIType * V)) :
  is_key t (map fst acc) = false -> dict_get t acc = None.
Proof.
  induction acc as [|[k v] acc IH]; simpl; [reflexivity|].
  intros H. apply orb_false_iff in H. destruct H as [Hk H].
  destruct (decide (t = k)) as [->|_]; [|auto].
  rewrite bool_decide_eq_false in Hk. congruence.
Qed.

Lemma dict_set_present {V : Type} t (v : V) acc :
  (forall v', In (t, v') acc -> v' = v) ->
  is_key t (map fst acc) = true -> dict_set t v acc = acc.
Proof.
  induction acc as [|[k v'] acc IH]; simpl; [discriminate|].
  intros Hv H. destruct (decide (t = k)) as [->|Hne].
  - rewrite (Hv v' (or_introl eq_refl)). reflexivity.
  - f_equal. apply IH; [intros; apply Hv; auto|].
    apply orb_true_iff in H. destruct H as [H|H]; [|exact H].
    rewrite bool_decide_eq_true in H. congruence.
Qed.

Lemma compile_patterns_closed types :
  forall acc,
    (forall t rules, In (t, rules) acc -> rules = builtin_rules t) ->
    _compile_patterns types acc
    = Ok (acc ++ map (fun t => (t, builtin_rules t))
                   (compiled_keys types (map fst acc)))%list.
Proof.
  induction types as [|ty types IH]; intros acc Hacc.
  - simpl. rewrite app_nil_r. reflexivity.
  - change (_compile_patterns (ty :: types) acc)
      with (match dict_get ty PATTERNS with
            | Some rules0 =>
                ps ← compile_rules rules0;
                _compile_patterns types (dict_set ty ps acc)
            | None => _compile_patterns types acc
            end).
    change (compiled_keys (ty :: types) (map fst acc))
      with (if has_rules ty && negb (is_key ty (map fst acc))
            then ty :: compiled_keys types (map fst acc ++ [ty])
            else compiled_keys types (map fst acc)).
    unfold has_rules.
    destruct (dict_get ty PATTERNS) as [rules0|] eqn:Hget;
      [|exact (IH acc Hacc)].
    rewrite (compile_builtin ty rules0 Hget). cbn [mbind outcome_bind].
    destruct (is_key ty (map fst acc)) eqn:Hkey; cbn [andb negb].
    + rewrite dict_set_present; [exact (IH acc Hacc)| |exact Hkey].
      intros v' Hin. exact (Hacc _ _ Hin).
    + rewrite (dict_set_absent ty _ acc (dict_get_none_keys ty acc Hkey)).
      rewrite IH.
      * rewrite map_app. simpl. rewrite <- app_assoc. reflexivity.
      * intros t rules Hin. apply in_app_or in Hin.
        destruct Hin as [Hin|[[= <- <-]|[]]]; [exact (Hacc _ _ Hin)|reflexivity].
Qed.

(** The constructor never fails, and its compiled dictionary holds, for
    each enabled category that [PATTERNS] has rules for, the compiled
    rules of the category, in the order in which the categories first
    occur in [enabled_types]: a category given twice counts once, and one
    without rules adds no entry. *)
Theorem constructor_closed_form (enabled : option (list PIIType)) :
  RegexDetector_init enabled
  = Ok (mkDetector (enabled_or_all enabled)
          (map (fun t => (t, builtin_rules t))
             (compiled_keys (enabled_or_all enabled) []))).
Proof.
  unfold RegexDetector_init.
  rewrite (compile_patterns_closed (enabled_or_all enabled) [])
    by (intros t rules []).
  reflexivity.
Qed.

(** ** More shapes of replacements *)

Lemma str_slice_length_min i j s :
  String.length (str_slice i j s) = Nat.min (j - i) (String.length s - i).
Proof.
  unfold str_slice. rewrite str_take_length, str_drop_length. reflexivity.
Qed.

(** The four groups are the first 16 characters of the number, cut
    after every fourth. *)
Lemma grouped_card cc :
  (str_slice 0 4 cc ++ str_slice 4 8 cc ++ str_slice 8 12 cc
   ++ str_slice 12 16 cc)
  = str_take 16 cc.
Proof.
  change (str_take 16 cc) with (str_slice 0 16 cc).
  rewrite (str_slice_split 0 4 16 cc), (str_slice_split 4 8 16 cc),
          (str_slice_split 8 12 16 cc) by lia.
  reflexivity.
Qed.

Section More_shapes.
Context {F : Faker}.

(** When the original card number holds a separator, a hyphen or else a
    blank, the replacement is four groups joined by three separators,
    whatever the library's number is.  The groups are the first 16
    characters of the library's number cut after every fourth: put
    together they are those 16 characters (what the library gives beyond
    them is dropped), and each holds four characters, or what is left of
    the number when it is shorter; so a number of 16 characters or more
    gives four groups of four. *)
Theorem credit_card_grouping (original : string) (sep : ascii) (st : rng) :
  (sep = "-"%char /\ str_contains "-" original = true)
  \/ (sep = " "%char /\ str_contains "-" original = false
      /\ str_contains " " original = true) ->
  exists g1 g2 g3 g4,
    _generate_credit_card original st
    = (Ok (g1 ++ String sep "" ++ g2 ++ String sep "" ++ g3
           ++ String sep "" ++ g4),
       snd (credit_card_number st))
    /\ g1 ++ g2 ++ g3 ++ g4 = str_take 16 (fst (credit_card_number st))
    /\ String.length g1
       = Nat.min 4 (String.length (fst (credit_card_number st)))
    /\ String.length g2
       = Nat.min 4 (String.length (fst (credit_card_number st)) - 4)
    /\ String.length g3
       = Nat.min 4 (String.length (fst (credit_card_number st)) - 8)
    /\ String.length g4
       = Nat.min 4 (String.length (fst (credit_card_number st)) - 12).
Proof.
  intros Hsep. unfold _generate_credit_card, gen_bind, draw, gen_ret.
  destruct (credit_card_number st) as [cc st'] eqn:Hcc. cbn [fst snd].
  exists (str_slice 0 4 cc), (str_slice 4 8 cc), (str_slice 8 12 cc),
         (str_slice 12 16 cc).
  split; [|split; [exact (grouped_card cc)|]].
  - assert (Hj : str_join (String sep "") (groups_of_4 cc)
                 = str_slice 0 4 cc ++ String sep "" ++ str_slice 4 8 cc
                   ++ String sep "" ++ str_slice 8 12 cc
                   ++ String sep "" ++ str_slice 12 16 cc).
    { unfold groups_of_4. cbn [map str_join Nat.add]. reflexivity. }
    destruct Hsep as [[-> H]|(-> & H1 & H2)].
    + rewrite H, Hj. reflexivity.
    + rewrite H1, H2, Hj. reflexivity.
  - rewrite !str_slice_length_min. repeat split; lia.
Qed.

(** A match of a custom rule is replaced by a marker of fixed shape,
    [[REDACTED-] then four decimal digits then []]: nothing of the
    original shows in it. *)
Theorem generic_marker_shape (original : string) :
  draws_in_range ->
  yields (_generate_by_type CUSTOM original)
    (fun r => exists numeral,
         r = "[REDACTED-" ++ numeral ++ "]" /\ numeral_of 4 numeral).
Proof.
  intros Hd. simpl. unfold _generate_generic, random_int'.
  apply (yields_bind _ _ _ _ (yields_random_int 1000 9999 Hd ltac:(lia))).
  intros n [Hlo Hhi]. apply yields_ret.
  exists (str_of_Z n). split; [reflexivity|].
  apply (str_of_Z_shape 4 n); simpl; lia.
Qed.

(** The two layouts the telephone generator builds itself: an original
    that starts with [+972] is replaced by [+972-dd-ddd-dddd]; one that
    starts neither with [+972], [+1] nor [1] and holds an opening
    parenthesis is replaced by [(ddd) ddd-dddd]. *)
Theorem phone_keeps_layout (original : string) :
  draws_in_range ->
  (startswith "+972" original = true ->
   yields (_generate_phone original)
     (fun r => exists a b c,
          r = "+972-" ++ a ++ "-" ++ b ++ "-" ++ c
          /\ numeral_of 2 a /\ numeral_of 3 b /\ numeral_of 4 c))
  /\ (startswith "+972" original = false ->
      startswith "+1" original || startswith "1" original = false ->
      str_contains "(" original = true ->
      yields (_generate_phone original)
        (fun r => exists a b c,
             r = "(" ++ a ++ ") " ++ b ++ "-" ++ c
             /\ numeral_of 3 a /\ numeral_of 3 b /\ numeral_of 4 c)).
Proof.
  intros Hd. unfold _generate_phone, random_int'. split.
  - intros ->.
    apply (yields_bind _ _ _ _ (yields_random_int 50 59 Hd ltac:(lia))).
    intros a [Ha1 Ha2].
    apply (yields_bind _ _ _ _ (yields_random_int 100 999 Hd ltac:(lia))).
    intros b [Hb1 Hb2].
    apply (yields_bind _ _ _ _ (yields_random_int 1000 9999 Hd ltac:(lia))).
    intros c [Hc1 Hc2]. apply yields_ret.
    exists (str_of_Z a), (str_of_Z b), (str_of_Z c).
    split; [reflexivity|].
    repeat split;
      first [apply (str_of_Z_shape 2 a); simpl; lia
            |apply (str_of_Z_shape 3 b); simpl; lia
            |apply (str_of_Z_shape 4 c); simpl; lia].
  - intros -> -> ->.
    apply (yields_bind _ _ _ _ (yields_random_int 200 999 Hd ltac:(lia))).
    intros a [Ha1 Ha2].
    apply (yields_bind _ _ _ _ (yields_random_int 100 999 Hd ltac:(lia))).
    intros b [Hb1 Hb2].
    apply (yields_bind _ _ _ _ (yields_random_int 1000 9999 Hd ltac:(lia))).
    intros c [Hc1 Hc2]. apply yields_ret.
    exists (str_of_Z a), (str_of_Z b), (str_of_Z c).
    split; [reflexivity|].
    repeat split;
      first [apply (str_of_Z_shape 3 a); simpl; lia
            |apply (str_of_Z_shape 3 b); simpl; lia
            |apply (str_of_Z_shape 4 c); simpl; lia].
Qed.
End More_shapes.

Lemma credit_card_grouping_witness :
  exists g1 g2 g3 g4,
    @_generate_credit_card counter_faker "4111-1111-1111-1111" 0%Z
    = (Ok (g1 ++ "-" ++ g2 ++ "-" ++ g3 ++ "-" ++ g4),
       snd (@credit_card_number counter_faker 0%Z))
    /\ g1 ++ g2 ++ g3 ++ g4
       = str_take 16 (fst (@credit_card_number counter_faker 0%Z))
    /\ String.length g1
       = Nat.min 4 (String.length (fst (@credit_card_number counter_faker 0%Z)))
    /\ String.length g2
       = Nat.min 4
           (String.length (fst (@credit_card_number counter_faker 0%Z)) - 4)
    /\ String.length g3
       = Nat.min 4
           (String.length (fst (@credit_card_number counter_faker 0%Z)) - 8)
    /\ String.length g4
       = Nat.min 4
           (String.length (fst (@credit_card_number counter_faker 0%Z)) - 12).
Proof.
  apply (@credit_card_grouping counter_faker "4111-1111-1111-1111" "-" 0%Z).
  left. split; reflexivity.
Defined.

Lemma generic_marker_shape_witness :
  exists r st',
    @_generate_by_type counter_faker CUSTOM "abc" 0%Z = (Ok r, st')
    /\ exists numeral,
         r = "[REDACTED-" ++ numeral ++ "]" /\ numeral_of 4 numeral.
Proof.
  apply (@generic_marker_shape counter_faker "abc").
  exact counter_draws_in_range.
Defined.

Lemma phone_keeps_layout_witness :
  (startswith "+972" "+972-50-123-4567" = true ->
   @yields counter_faker string (_generate_phone "+972-50-123-4567")
     (fun r => exists a b c,
          r = "+972-" ++ a ++ "-" ++ b ++ "-" ++ c
          /\ numeral_of 2 a /\ numeral_of 3 b /\ numeral_of 4 c))
  /\ (startswith "+972" "+972-50-123-4567" = false ->
      startswith "+1" "+972-50-123-4567" || startswith "1" "+972-50-123-4567"
      = false ->
      str_contains "(" "+972-50-123-4567" = true ->
      @yields counter_faker string (_generate_phone "+972-50-123-4567")
        (fun r => exists a b c,
             r = "(" ++ a ++ ") " ++ b ++ "-" ++ c
             /\ numeral_of 3 a /\ numeral_of 3 b /\ numeral_of 4 c)).
Proof.
  apply (@phone_keeps_layout counter_faker "+972-50-123-4567").
  exact counter_draws_in_range.
Defined.
